(** * image-uploader: validation, preview-handle lifecycle and the ordered
    collection of [src/components/image-uploader.tsx].

    The component is a controlled React widget: the owner holds the ordered
    sequence [images] and hands it down together with [onImagesChange].  The
    handlers [handleFileSelect] (Add), [handleDelete] (Remove) and
    [handleDragEnd] (Move) read the current sequence, talk to the browser
    ([URL.createObjectURL], [URL.revokeObjectURL], [crypto.randomUUID]) and
    report the complete new sequence through [onImagesChange].

    Conventions of the embedding.
    - JavaScript strings are [string]s of ASCII characters; [trim] strips the
      ASCII white space and [toLowerCase] maps A-Z to a-z.
    - JavaScript numbers that hold sizes and counts are integers of [Z];
      [Infinity] is the [None] of [option Z].
    - an optional property ([maxFiles?: number]) is an [option]; [undefined]
      is [None].
    - effects are threaded through a state-and-exception monad [M]; every
      call that leaves the component is appended to the [trace] of the
      world.
    - a session lists what happens to a mounted uploader, each event with
      the properties of the render it happens in; the function that the
      effect of [ImageUploader] returns is run at the teardown and, as
      React does for a changed dependency, between two events whenever
      [onError] is not the function it was. *)

From Stdlib Require Import List String Ascii ZArith Lia Bool Arith.
From Stdlib Require Import Sorting.Permutation.
From Stdlib Require Import Numbers.DecimalString.
Import ListNotations.

Local Open Scope string_scope.
Local Open Scope Z_scope.

(* ------------------------------------------------------------------ *)
(** ** JavaScript string primitives used by the source                   *)
(* ------------------------------------------------------------------ *)

Module Js.

(** [String.prototype.startsWith]. *)
Definition startsWith (s p : string) : bool := String.prefix p s.

(** [String.prototype.endsWith]: some suffix of [s] is [suf]. *)
Fixpoint endsWith (s suf : string) : bool :=
  String.eqb s suf ||
  match s with
  | EmptyString => false
  | String _ s' => endsWith s' suf
  end.

Definition isUpper (c : ascii) : bool :=
  let n := nat_of_ascii c in (65 <=? n)%nat && (n <=? 90)%nat.

Definition lowerChar (c : ascii) : ascii :=
  if isUpper c then ascii_of_nat (nat_of_ascii c + 32) else c.

(** [String.prototype.toLowerCase] on ASCII. *)
Fixpoint toLowerCase (s : string) : string :=
  match s with
  | EmptyString => EmptyString
  | String c s' => String (lowerChar c) (toLowerCase s')
  end.

(** White space removed by [trim]: TAB, LF, VT, FF, CR and SPACE. *)
Definition isSpace (c : ascii) : bool :=
  let n := nat_of_ascii c in
  ((9 <=? n)%nat && (n <=? 13)%nat) || (n =? 32)%nat.

Fixpoint trimStart (s : string) : string :=
  match s with
  | EmptyString => EmptyString
  | String c s' => if isSpace c then trimStart s' else s
  end.

(** [trimEnd] keeps a character when it is no space or when something
    remains after it. *)
Fixpoint trimEnd (s : string) : string :=
  match s with
  | EmptyString => EmptyString
  | String c s' =>
      match trimEnd s' with
      | EmptyString => if isSpace c then EmptyString else String c EmptyString
      | r => String c r
      end
  end.

(** [String.prototype.trim]. *)
Definition trim (s : string) : string := trimEnd (trimStart s).

(** [String.prototype.split] with a separator of one character; the
    result is never empty ([("").split(",")] is [[""]]). *)
Fixpoint split (sep : ascii) (s : string) : list string :=
  match s with
  | EmptyString => [EmptyString]
  | String c s' =>
      if Ascii.eqb c sep then EmptyString :: split sep s'
      else match split sep s' with
           | h :: t => String c h :: t
           | [] => [String c EmptyString]
           end
  end.

(** [s.includes(c)] for one character. *)
Fixpoint includesChar (c : ascii) (s : string) : bool :=
  match s with
  | EmptyString => false
  | String a s' => Ascii.eqb a c || includesChar c s'
  end.

(** The string of an integer number, as a template literal prints it. *)
Definition numberToString (z : Z) : string :=
  NilEmpty.string_of_int (Z.to_int z).

End Js.

(* ------------------------------------------------------------------ *)
(** ** Types                                                            *)
(* ------------------------------------------------------------------ *)

(** The part of a DOM [File] that the component reads. *)
Record File := mkFile {
  file_name : string;
  file_type : string;   (* declared MIME type *)
  file_size : Z         (* bytes *)
}.

(** [interface ImageFile]. *)
Record ImageFile := mkImageFile {
  id : string;
  file : File;
  preview : string      (* object URL *)
}.

(** The [code] of an [ErrorPayload]. *)
Inductive ErrorCode :=
| FILE_TOO_LARGE
| INVALID_TYPE
| MAX_FILES_EXCEEDED
| UNKNOWN.

(** [interface ErrorPayload]. *)
Record ErrorPayload := mkError {
  code : ErrorCode;
  message : string;
  err_file : option File
}.

Definition ErrorCode_eqb (a b : ErrorCode) : bool :=
  match a, b with
  | FILE_TOO_LARGE, FILE_TOO_LARGE
  | INVALID_TYPE, INVALID_TYPE
  | MAX_FILES_EXCEEDED, MAX_FILES_EXCEEDED
  | UNKNOWN, UNKNOWN => true
  | _, _ => false
  end.

(* ------------------------------------------------------------------ *)
(** ** Constants and helpers                                            *)
(* ------------------------------------------------------------------ *)

Definition DEFAULT_MAX_FILE_SIZE : Z := 10 * 1024 * 1024.

Definition dquote : string := String (ascii_of_nat 34) EmptyString.

(** The callback of [acceptedPatterns.some]: one pattern, already trimmed
    and lower-cased, against one file. *)
Definition matchesPattern (f : File) (pattern : string) : bool :=
  if String.eqb pattern "*/*" then true
  else if Js.endsWith pattern "/*" then
    let type := hd EmptyString (Js.split "/" pattern) in
    Js.startsWith (file_type f) (type ++ "/")
  else if Js.startsWith pattern "." then
    Js.endsWith (Js.toLowerCase (file_name f)) pattern
  else String.eqb (file_type f) pattern.

(** [isAcceptedType(file, acceptedTypes?)]. *)
Definition isAcceptedType (f : File) (acceptedTypes : option string) : bool :=
  match acceptedTypes with
  | None => true
  | Some a =>
      let trimmed := Js.trim a in
      if String.eqb trimmed EmptyString then true
      else if String.eqb trimmed "image/*" then Js.startsWith (file_type f) "image/"
      else
        let acceptedPatterns :=
          map (fun s => Js.toLowerCase (Js.trim s)) (Js.split "," trimmed) in
        existsb (matchesPattern f) acceptedPatterns
  end.

(** Result of [validateFile]: [{ isValid: boolean; error?: ErrorPayload }]. *)
Record Validation := mkValidation {
  isValid : bool;
  error : option ErrorPayload
}.

(** The [options] argument of [validateFile]. *)
Record ValidateOptions := mkOptions {
  opt_maxFileSize : option Z;
  opt_acceptedFileTypes : option string
}.

(** A JavaScript number in a condition: [0] is falsy, [undefined] too. *)
Definition truthy (n : option Z) : bool :=
  match n with
  | Some z => negb (z =? 0)
  | None => false
  end.

(** What a template literal prints for an optional value. *)
Definition showOpt {A} (show : A -> string) (o : option A) : string :=
  match o with
  | Some a => show a
  | None => "undefined"
  end.

(* ------------------------------------------------------------------ *)
(** ** The world around the component                                   *)
(* ------------------------------------------------------------------ *)

(** A thrown JavaScript value. *)
Definition JsError := string.

(** Calls that leave the component, in the order they happen. *)
Inductive Event :=
| EvCreateObjectURL (f : File) (url : string)  (* URL.createObjectURL(f) gave url *)
| EvRelease (url : string)                     (* the hook's revokeObjectURL(url, _) entered *)
| EvRevokeObjectURL (url : string)             (* URL.revokeObjectURL(url) *)
| EvConsoleWarn (msg : string) (e : JsError)   (* console.warn(msg, e) *)
| EvOnError (e : ErrorPayload)                 (* props.onError(e) *)
| EvOnImagesChange (imgs : list ImageFile).    (* props.onImagesChange(imgs) *)

(** The browser: what the platform functions answer on their n-th call. *)
Record Host := mkHost {
  crypto_randomUUID : option (nat -> string);   (* [None]: no crypto.randomUUID *)
  fallback_id : nat -> string;                  (* Date.now() and Math.random() *)
  host_createObjectURL : nat -> File -> string;
  host_revoke_throws : nat -> string -> option JsError
}.

Record World := mkWorld {
  images : list ImageFile;      (* the owner's sequence, props.images *)
  generatedUrls : list string;  (* generatedUrlsRef.current, a Set in insertion order *)
  idCalls : nat;                (* calls of generateId so far *)
  urlCalls : nat;               (* calls of URL.createObjectURL so far *)
  revokeCalls : nat;            (* calls of URL.revokeObjectURL so far *)
  trace : list Event
}.

Definition emptyWorld : World := mkWorld [] [] 0 0 0 [].

Definition set_images (l : list ImageFile) (w : World) : World :=
  mkWorld l (generatedUrls w) (idCalls w) (urlCalls w) (revokeCalls w) (trace w).
Definition set_generatedUrls (s : list string) (w : World) : World :=
  mkWorld (images w) s (idCalls w) (urlCalls w) (revokeCalls w) (trace w).
Definition log (ev : Event) (w : World) : World :=
  mkWorld (images w) (generatedUrls w) (idCalls w) (urlCalls w) (revokeCalls w)
          (trace w ++ [ev]).

(** [Set.prototype.has], [add] and [delete] on the insertion-ordered set. *)
Module JsSet.
Definition has (s : list string) (x : string) : bool :=
  existsb (String.eqb x) s.
Definition add (s : list string) (x : string) : list string :=
  if has s x then s else s ++ [x].
Definition delete (s : list string) (x : string) : list string :=
  filter (fun y => negb (String.eqb x y)) s.
End JsSet.

(** *** State and exceptions *)

Inductive Res (A : Type) :=
| Ok (a : A) (w : World)
| Throw (e : JsError) (w : World).
Arguments Ok {A} a w.
Arguments Throw {A} e w.

Definition M (A : Type) := World -> Res A.

Definition ret {A} (a : A) : M A := fun w => Ok a w.
Definition bind {A B} (m : M A) (k : A -> M B) : M B :=
  fun w => match m w with
           | Ok a w' => k a w'
           | Throw e w' => Throw e w'
           end.
Definition throw {A} (e : JsError) : M A := fun w => Throw e w.
(** [try { m } catch (e) { h e }]. *)
Definition tryCatch {A} (m : M A) (h : JsError -> M A) : M A :=
  fun w => match m w with
           | Ok a w' => Ok a w'
           | Throw e w' => h e w'
           end.
Definition get : M World := fun w => Ok w w.
Definition modify (f : World -> World) : M unit := fun w => Ok tt (f w).
Definition emit (ev : Event) : M unit := modify (log ev).

Declare Scope js_scope.
Delimit Scope js_scope with js.
Notation "x <- m ;; k" := (bind m (fun x => k))
  (at level 61, m at next level, right associativity) : js_scope.
Notation "m ;; k" := (bind m (fun _ => k))
  (at level 61, right associativity) : js_scope.
Local Open Scope js_scope.

(** [xs.forEach(f)]. *)
Fixpoint forEach {A} (f : A -> M unit) (xs : list A) : M unit :=
  match xs with
  | [] => ret tt
  | x :: xs' => f x ;; forEach f xs'
  end.

(** [xs.map(f)] for an effectful [f], left to right. *)
Fixpoint mapM {A B} (f : A -> M B) (xs : list A) : M (list B) :=
  match xs with
  | [] => ret []
  | x :: xs' => y <- f x ;; ys <- mapM f xs' ;; ret (y :: ys)
  end.

(** The world a computation ends in, however it ends. *)
Definition finalWorld {A} (r : Res A) : World :=
  match r with
  | Ok _ w => w
  | Throw _ w => w
  end.

Definition returns {A} (r : Res A) : bool :=
  match r with
  | Ok _ _ => true
  | Throw _ _ => false
  end.

(** The world with [t] appended to its trace. *)
Definition addTrace (t : list Event) (w : World) : World :=
  mkWorld (images w) (generatedUrls w) (idCalls w) (urlCalls w) (revokeCalls w)
          (trace w ++ t).

(** *** Reading a trace *)

Definition browserRevokes (t : list Event) : list string :=
  flat_map (fun ev => match ev with EvRevokeObjectURL u => [u] | _ => [] end) t.
Definition releases (t : list Event) : list string :=
  flat_map (fun ev => match ev with EvRelease u => [u] | _ => [] end) t.
Definition acquires (t : list Event) : list (File * string) :=
  flat_map (fun ev => match ev with EvCreateObjectURL f u => [(f, u)] | _ => [] end) t.
Definition sinkCalls (t : list Event) : list ErrorPayload :=
  flat_map (fun ev => match ev with EvOnError e => [e] | _ => [] end) t.
Definition changeCalls (t : list Event) : list (list ImageFile) :=
  flat_map (fun ev => match ev with EvOnImagesChange l => [l] | _ => [] end) t.

(** The events a step added: what follows the first [n] of the trace. *)
Definition since (w w' : World) : list Event :=
  skipn (List.length (trace w)) (trace w').

(** *** Array helpers of the handlers *)

(** [Array.prototype.findIndex]: the first index, or [-1]. *)
Fixpoint findIndex {A} (p : A -> bool) (l : list A) : Z :=
  match l with
  | [] => -1
  | x :: l' => if p x then 0
               else let r := findIndex p l' in
                    if r <? 0 then -1 else r + 1
  end.

Fixpoint removeAt {A} (n : nat) (l : list A) : list A :=
  match n, l with
  | _, [] => []
  | O, _ :: l' => l'
  | S n', x :: l' => x :: removeAt n' l'
  end.

Fixpoint insertAt {A} (n : nat) (x : A) (l : list A) : list A :=
  match n, l with
  | O, _ => x :: l
  | S _, [] => [x]
  | S n', y :: l' => y :: insertAt n' x l'
  end.

(** Modelled from the spec: [arrayMove] is imported from the drag-and-drop
    library [@dnd-kit/sortable] and is not in the repository.  Section 4.4
    describes Move as relocating the item to a new position, shifting the
    others: the element at [from] is taken out and put back at [to].  The
    handler only passes indices that [findIndex] found, so [from] is in
    range; out of range the array is returned as it is. *)
Definition arrayMove {A} (l : list A) (from to : Z) : list A :=
  match nth_error l (Z.to_nat from) with
  | Some x => insertAt (Z.to_nat to) x (removeAt (Z.to_nat from) l)
  | None => l
  end.

(** [interface ImageUploaderProps], without the presentation fields.  The
    owner's [images] and [onImagesChange] are the [images] of the world and
    the event [EvOnImagesChange]; [onError] records whether the caller
    supplied an error callback. *)
Record Props := mkProps {
  maxFiles : option Z;
  maxFileSize : option Z;
  acceptedFileTypes : option string;
  disabled : option bool;
  onError : bool
}.

(** Destructuring defaults of [ImageUploader]. *)
Definition maxFileSize_of (p : Props) : Z :=
  match maxFileSize p with Some m => m | None => DEFAULT_MAX_FILE_SIZE end.
Definition acceptedFileTypes_of (p : Props) : string :=
  match acceptedFileTypes p with Some a => a | None => "image/*" end.
Definition disabled_of (p : Props) : bool :=
  match disabled p with Some b => b | None => false end.

(* ------------------------------------------------------------------ *)
(** ** The component                                                    *)
(* ------------------------------------------------------------------ *)

Section Uploader.

(** [formatFileSize] prints a byte count through [Math.log], a division
    and [toFixed(2)]; it only ever feeds the text of a message and is kept
    abstract. *)
Variable formatFileSize : Z -> string.

(** The browser the component runs in. *)
Variable host : Host.

(** *** Platform calls *)

Definition URL_createObjectURL (f : File) : M string := fun w =>
  let url := host_createObjectURL host (urlCalls w) f in
  Ok url (mkWorld (images w) (generatedUrls w) (idCalls w) (S (urlCalls w))
                  (revokeCalls w) (trace w ++ [EvCreateObjectURL f url])).

Definition URL_revokeObjectURL (url : string) : M unit := fun w =>
  let w' := mkWorld (images w) (generatedUrls w) (idCalls w) (urlCalls w)
                    (S (revokeCalls w)) (trace w ++ [EvRevokeObjectURL url]) in
  match host_revoke_throws host (revokeCalls w) url with
  | Some e => Throw e w'
  | None => Ok tt w'
  end.

Definition console_warn (msg : string) (e : JsError) : M unit :=
  emit (EvConsoleWarn msg e).

(** *** Helpers *)

(** [safeRevokeObjectURL(url, onError?)]. *)
Definition safeRevokeObjectURL (url : string)
           (onError : option (JsError -> M unit)) : M unit :=
  tryCatch (URL_revokeObjectURL url)
           (fun error =>
              console_warn "Failed to revoke object URL:" error ;;
              match onError with
              | Some k => k error
              | None => ret tt
              end).

(** [generateId()]: [crypto.randomUUID()] when there is one, else the
    time stamp and random suffix. *)
Definition generateId : M string := fun w =>
  let n := idCalls w in
  let s := match crypto_randomUUID host with
           | Some uuid => uuid n
           | None => fallback_id host n
           end in
  Ok s (mkWorld (images w) (generatedUrls w) (S n) (urlCalls w)
                (revokeCalls w) (trace w)).

(** *** useObjectURLs *)

Definition createObjectURL (f : File) : M string :=
  url <- URL_createObjectURL f ;;
  modify (fun w => set_generatedUrls (JsSet.add (generatedUrls w) url) w) ;;
  ret url.

Definition revokeObjectURL (url : string)
           (onError : option (JsError -> M unit)) : M unit :=
  emit (EvRelease url) ;;
  w <- get ;;
  if JsSet.has (generatedUrls w) url then
    safeRevokeObjectURL url onError ;;
    modify (fun w => set_generatedUrls (JsSet.delete (generatedUrls w) url) w)
  else ret tt.

Definition cleanup (onError : option (JsError -> M unit)) : M unit :=
  w <- get ;;
  forEach (fun url => safeRevokeObjectURL url onError) (generatedUrls w) ;;
  modify (set_generatedUrls []).

(** *** useFileValidation *)

Definition validateFile (f : File) (options : ValidateOptions) : Validation :=
  let maxFileSize := opt_maxFileSize options in
  let acceptedFileTypes := opt_acceptedFileTypes options in
  if truthy maxFileSize
     && (match maxFileSize with Some m => m <? file_size f | None => false end)
  then
    mkValidation false (Some (mkError FILE_TOO_LARGE
      ("File " ++ dquote ++ file_name f ++ dquote ++ " exceeds maximum size of "
       ++ showOpt formatFileSize maxFileSize ++ ".")
      (Some f)))
  else if negb (isAcceptedType f acceptedFileTypes) then
    mkValidation false (Some (mkError INVALID_TYPE
      ("File " ++ dquote ++ file_name f ++ dquote
       ++ " is not an accepted file type. Accepted: "
       ++ showOpt (fun s => s) acceptedFileTypes ++ ".")
      (Some f)))
  else mkValidation true None.

(** *** ImageUploader *)

(** [onError?.(e)]. *)
Definition callOnError (p : Props) (e : ErrorPayload) : M unit :=
  if onError p then emit (EvOnError e) else ret tt.

(** [onImagesChange(l)]: the owner stores the sequence it is handed. *)
Definition onImagesChange (l : list ImageFile) : M unit :=
  modify (fun w => log (EvOnImagesChange l) (set_images l w)).

Definition validationOf (p : Props) (f : File) : Validation :=
  validateFile f (mkOptions (Some (maxFileSize_of p))
                            (Some (acceptedFileTypes_of p))).

(** The two arrays filled by [files.forEach] in [handleFileSelect]. *)
Definition validFilesOf (p : Props) (files : list File) : list File :=
  filter (fun f => isValid (validationOf p f)) files.

Definition errorsOf (p : Props) (files : list File) : list ErrorPayload :=
  flat_map (fun f =>
              let validation := validationOf p f in
              if isValid validation then []
              else match error validation with
                   | Some e => [e]
                   | None => []
                   end) files.

(** [maxFiles ? Math.max(0, maxFiles - currentCount) : Infinity]. *)
Definition remainingSlotsOf (p : Props) (currentCount : Z) : option Z :=
  if truthy (maxFiles p)
  then match maxFiles p with
       | Some m => Some (Z.max 0 (m - currentCount))
       | None => None
       end
  else None.

Definition newImage (f : File) : M ImageFile :=
  preview <- createObjectURL f ;;
  i <- generateId ;;
  ret (mkImageFile i f preview).

Definition handleFileSelect (p : Props) (files : list File) : M unit :=
  if (Nat.eqb (List.length files) 0) || disabled_of p then ret tt
  else
    let validFiles := validFilesOf p files in
    let errors := errorsOf p files in
    forEach (callOnError p) errors ;;
    if Nat.eqb (List.length validFiles) 0 then ret tt
    else
      w <- get ;;
      let currentCount := Z.of_nat (List.length (images w)) in
      let remainingSlots := remainingSlotsOf p currentCount in
      if match remainingSlots with Some r => r <=? 0 | None => false end then
        callOnError p (mkError MAX_FILES_EXCEEDED
          ("Maximum of " ++ showOpt Js.numberToString (maxFiles p)
           ++ " files allowed.") None)
      else
        filesToAdd <-
          match remainingSlots with
          | Some r =>
              if r <? Z.of_nat (List.length validFiles) then
                callOnError p (mkError MAX_FILES_EXCEEDED
                  ("Only " ++ Js.numberToString r ++ " of "
                   ++ Js.numberToString (Z.of_nat (List.length validFiles))
                   ++ " files were added due to limit of "
                   ++ showOpt Js.numberToString (maxFiles p) ++ ".") None) ;;
                ret (firstn (Z.to_nat r) validFiles)
              else ret validFiles
          | None => ret validFiles
          end ;;
        newImages <- mapM newImage filesToAdd ;;
        onImagesChange (images w ++ newImages).

Definition handleDelete (p : Props) (i : string) : M unit :=
  w <- get ;;
  let imageToDelete := find (fun img => String.eqb (id img) i) (images w) in
  match imageToDelete with
  | Some img =>
      revokeObjectURL (preview img)
        (Some (fun _ => callOnError p
                 (mkError UNKNOWN "Failed to clean up image preview" None)))
  | None => ret tt
  end ;;
  onImagesChange (filter (fun img => negb (String.eqb (id img) i)) (images w)).

(** [handleDragEnd({ active, over })] of [ImageUploader.Root]; [over] is
    [null] when the item was dropped on no target. *)
Definition handleDragEnd (active : string) (over : option string) : M unit :=
  match over with
  | None => ret tt
  | Some over_id =>
      if String.eqb active over_id then ret tt
      else
        w <- get ;;
        let oldIndex := findIndex (fun item => String.eqb (id item) active) (images w) in
        let newIndex := findIndex (fun item => String.eqb (id item) over_id) (images w) in
        if (0 <=? oldIndex) && (0 <=? newIndex) && negb (oldIndex =? newIndex)
        then onImagesChange (arrayMove (images w) oldIndex newIndex)
        else ret tt
  end.

End Uploader.

(* ------------------------------------------------------------------ *)
(** ** What one Add leaves behind, written without the monad            *)
(* ------------------------------------------------------------------ *)

Section Description.

Variable formatFileSize : Z -> string.
Variable host : Host.

(** The id that the n-th call of [generateId] returns. *)
Definition idAt (n : nat) : string :=
  match crypto_randomUUID host with
  | Some uuid => uuid n
  | None => fallback_id host n
  end.

(** The items [newImage] builds for [files] when [nid] ids and [nurl]
    object URLs were handed out before. *)
Fixpoint itemsFrom (nid nurl : nat) (files : list File) : list ImageFile :=
  match files with
  | [] => []
  | f :: fs =>
      mkImageFile (idAt nid) f (host_createObjectURL host nurl f)
      :: itemsFrom (S nid) (S nurl) fs
  end.

(** The files of a batch that end up in the sequence of [count] items. *)
Definition keptFiles (p : Props) (count : nat) (files : list File) : list File :=
  let validFiles := validFilesOf formatFileSize p files in
  match remainingSlotsOf p (Z.of_nat count) with
  | Some r => if r <=? 0 then [] else firstn (Z.to_nat r) validFiles
  | None => validFiles
  end.

(** The kept files and the new items of an Add in the world [w]. *)
Definition keptOf (p : Props) (w : World) (files : list File) : list File :=
  keptFiles p (List.length (images w)) files.

Definition itemsOf (p : Props) (w : World) (files : list File) : list ImageFile :=
  itemsFrom (idCalls w) (urlCalls w) (keptOf p w files).

Definition maxReached (p : Props) : ErrorPayload :=
  mkError MAX_FILES_EXCEEDED
    ("Maximum of " ++ showOpt Js.numberToString (maxFiles p) ++ " files allowed.")
    None.

Definition onlySome (p : Props) (r : Z) (n : nat) : ErrorPayload :=
  mkError MAX_FILES_EXCEEDED
    ("Only " ++ Js.numberToString r ++ " of " ++ Js.numberToString (Z.of_nat n)
     ++ " files were added due to limit of "
     ++ showOpt Js.numberToString (maxFiles p) ++ ".")
    None.

(** The [MAX_FILES_EXCEEDED] errors of one Add. *)
Definition limitErrors (p : Props) (count : nat) (files : list File)
  : list ErrorPayload :=
  let validFiles := validFilesOf formatFileSize p files in
  match validFiles with
  | [] => []
  | _ :: _ =>
      match remainingSlotsOf p (Z.of_nat count) with
      | Some r =>
          if r <=? 0 then [maxReached p]
          else if r <? Z.of_nat (List.length validFiles)
               then [onlySome p r (List.length validFiles)]
               else []
      | None => []
      end
  end.

Definition createEvents (items : list ImageFile) : list Event :=
  map (fun it => EvCreateObjectURL (file it) (preview it)) items.

Definition sinkEvents (p : Props) (es : list ErrorPayload) : list Event :=
  if onError p then map EvOnError es else [].

(** The events of one Add of [files] by an enabled uploader. *)
Definition addEvents (p : Props) (w : World) (files : list File) : list Event :=
  let kept := keptFiles p (List.length (images w)) files in
  let items := itemsFrom (idCalls w) (urlCalls w) kept in
  sinkEvents p (errorsOf formatFileSize p files)
  ++ sinkEvents p (limitErrors p (List.length (images w)) files)
  ++ createEvents items
  ++ match kept with
     | [] => []
     | _ :: _ => [EvOnImagesChange (images w ++ items)]
     end.

(** The world after one Add of [files] by an enabled uploader. *)
Definition afterAdd (p : Props) (w : World) (files : list File) : World :=
  let kept := keptFiles p (List.length (images w)) files in
  let items := itemsFrom (idCalls w) (urlCalls w) kept in
  mkWorld (images w ++ items)
          (fold_left JsSet.add (map preview items) (generatedUrls w))
          (idCalls w + List.length kept)
          (urlCalls w + List.length kept)
          (revokeCalls w)
          (trace w ++ addEvents p w files).

(** A file over the configured bound: the test of [validateFile]. *)
Definition tooLarge (p : Props) (f : File) : bool :=
  negb (maxFileSize_of p =? 0) && (maxFileSize_of p <? file_size f).


Definition hasCode (c : ErrorCode) (e : ErrorPayload) : bool :=
  ErrorCode_eqb (code e) c.

End Description.

(* ------------------------------------------------------------------ *)
(** ** Concrete browsers, files and configurations                      *)
(* ------------------------------------------------------------------ *)

Module Demo.

Definition fmt (z : Z) : string := Js.numberToString z ++ " Bytes".

(** A browser with [crypto.randomUUID] whose revocations succeed. *)
Definition host : Host :=
  mkHost (Some (fun n => "uuid-" ++ Js.numberToString (Z.of_nat n)))
         (fun n => "0-" ++ Js.numberToString (Z.of_nat n))
         (fun n _ => "blob:" ++ Js.numberToString (Z.of_nat n))
         (fun _ _ => None).

(** A browser whose every revocation throws. *)
Definition failingHost : Host :=
  mkHost None
         (fun n => "0-" ++ Js.numberToString (Z.of_nat n))
         (fun n _ => "blob:" ++ Js.numberToString (Z.of_nat n))
         (fun _ _ => Some "TypeError").

Definition png : File := mkFile "a.png" "image/png" 10.
Definition png2 : File := mkFile "b.png" "image/png" 20.
Definition png3 : File := mkFile "c.png" "image/png" 30.
Definition pdf : File := mkFile "b.pdf" "application/pdf" 10.
Definition huge : File := mkFile "huge.png" "image/png" 20000000.
Definition photoPNG : File := mkFile "photo.PNG" "" 1.
Definition photoJpg : File := mkFile "photo.jpg" "image/jpeg" 1.

(** All defaults, with an error callback. *)
Definition defaults : Props := mkProps None None None None true.
Definition limit (n : Z) : Props := mkProps (Some n) None None None true.
Definition unlimitedSize : Props := mkProps None (Some 0) None None true.
Definition disabledProps : Props := mkProps None None None (Some true) true.

Definition item0 : ImageFile := mkImageFile "x" png "blob:x".
Definition item1 : ImageFile := mkImageFile "y" png2 "blob:y".
Definition item2 : ImageFile := mkImageFile "z" png3 "blob:z".

(** A sequence of three items whose handles are outstanding. *)
Definition three : World :=
  mkWorld [item0; item1; item2] ["blob:x"; "blob:y"; "blob:z"] 3 3 0 [].
(** One item handed in by the owner; the hook never saw its handle. *)
Definition foreign : World := mkWorld [item0] [] 0 0 0 [].

End Demo.

(* ------------------------------------------------------------------ *)
(** ** The rest of the component                                        *)
(* ------------------------------------------------------------------ *)

Definition DEFAULT_FILENAME_TRUNCATE_LENGTH : Z := 40.

(** [s.slice(0, e)]: a negative [e] counts from the end of the string, and
    the end is clamped to the string. *)
Definition slice0 (s : string) (e : Z) : string :=
  let len := Z.of_nat (String.length s) in
  let stop := if e <? 0 then Z.max (len + e) 0 else Z.min e len in
  substring 0 (Z.to_nat stop) s.

(** [truncateFilename(name, maxLength)]. *)
Definition truncateFilename (name : string) (maxLength : Z) : string :=
  if String.eqb name EmptyString || (Z.of_nat (String.length name) <=? maxLength)
  then name
  else slice0 name (maxLength - 3) ++ "...".

(** [disabled || (maxFiles ? images.length >= maxFiles : false)], the
    [disabled] that [ImageUploader] hands to its dropzone. *)
Definition isDropzoneDisabled (p : Props) (w : World) : bool :=
  disabled_of p ||
  (if truthy (maxFiles p)
   then match maxFiles p with
        | Some m => m <=? Z.of_nat (List.length (images w))
        | None => false
        end
   else false).

Section Teardown.

Variable host : Host.

(** The function the effect of [useObjectURLs] returns: it runs when the
    hook goes away. *)
Definition hookUnmount : M unit :=
  cleanup host (Some (fun error => console_warn "Cleanup error:" error)).

(** The function the effect of [ImageUploader] returns. *)
Definition uploaderUnmount (p : Props) : M unit :=
  cleanup host
    (Some (fun _ => callOnError p
                      (mkError UNKNOWN "Failed to clean up image previews" None))).

End Teardown.

(** *** Sessions: what happens to a mounted uploader *)

(** What happens to the uploader between its first render and its
    teardown; each event comes with the properties of the render in which
    it happens.  The last of the four is no act of the user: the effect of
    [ImageUploader] depends on [cleanup] and [onError], so when a render
    brings an [onError] that is another function than the one before (an
    owner that writes the callback inline does so on every render), React
    runs the function the effect returned, which is [cleanup] with the
    callback of the render that goes away. *)
Inductive Action :=
| Select (files : list File)                       (* files chosen in the dropzone *)
| Delete (i : string)                              (* the delete button of item [i] *)
| DragEnd (active : string) (over : option string) (* a drag that ended *)
| OnErrorChanged.                                  (* a render with another onError *)

Section Sessions.

Variable formatFileSize : Z -> string.
Variable host : Host.

(** The function the effect returned, run because the dependency [onError]
    changed; [p] are the properties of the render the effect belongs to. *)
Definition effectRerun (p : Props) : M unit := uploaderUnmount host p.

(** One event.  A handler runs with the properties of the current render.
    Where there is no [onError] there is no function to replace by another
    one ([undefined] is identical to [undefined]), and the effect stays. *)
Definition perform (pa : Props * Action) : M unit :=
  match snd pa with
  | Select files => handleFileSelect formatFileSize host (fst pa) files
  | Delete i => handleDelete host (fst pa) i
  | DragEnd active over => handleDragEnd active over
  | OnErrorChanged => if onError (fst pa) then effectRerun (fst pa) else ret tt
  end.

(** The step from the render with the properties [prev] to one with the
    properties [p]: an [onError] that appears or goes away is a changed
    dependency as well. *)
Definition rerender (prev : option Props) (p : Props) : M unit :=
  match prev with
  | Some q => if Bool.eqb (onError q) (onError p) then ret tt else effectRerun q
  | None => ret tt
  end.

(** The events after a render with the properties [prev], each handled
    after the owner has stored the sequence of the one before. *)
Fixpoint sessionFrom (prev : option Props) (events : list (Props * Action))
  : M unit :=
  match events with
  | [] => ret tt
  | pa :: es =>
      rerender prev (fst pa) ;;
      perform pa ;;
      sessionFrom (Some (fst pa)) es
  end.

(** A session: its first event happens in the render the world is in. *)
Definition session (events : list (Props * Action)) : M unit :=
  sessionFrom None events.

End Sessions.

(** Every event happens in a render whose [onError] is there or not as [b]
    says, and no render brings another function. *)
Definition sameOnError (b : bool) (events : list (Props * Action)) : bool :=
  forallb (fun pa => Bool.eqb (onError (fst pa)) b &&
                     match snd pa with
                     | OnErrorChanged => false
                     | _ => true
                     end) events.

(** The owner hands the same [onError] on every render of the session (a
    function kept with [useCallback], or none at all): the effect of
    [ImageUploader] is never run again before the teardown. *)
Definition stableOnError (events : list (Props * Action)) : bool :=
  match events with
  | [] => true
  | pa :: _ => sameOnError (onError (fst pa)) events
  end.

(** *** Teardown, written without the monad *)

(** The events of revoking [urls] one after the other when [n] revocations
    were made before; a revocation that throws is followed by the warning
    and by what the error callback does, here the events [report]. *)
Fixpoint teardownEvents (host : Host) (report : JsError -> list Event)
         (n : nat) (urls : list string) : list Event :=
  match urls with
  | [] => []
  | u :: us =>
      (EvRevokeObjectURL u
       :: match host_revoke_throws host n u with
          | Some e => EvConsoleWarn "Failed to revoke object URL:" e :: report e
          | None => []
          end)
      ++ teardownEvents host report (S n) us
  end.

(** The revocations among them that throw. *)
Fixpoint failingRevokes (host : Host) (n : nat) (urls : list string)
  : list (string * JsError) :=
  match urls with
  | [] => []
  | u :: us =>
      match host_revoke_throws host n u with
      | Some e => (u, e) :: failingRevokes host (S n) us
      | None => failingRevokes host (S n) us
      end
  end.

Definition cleanupFailed : ErrorPayload :=
  mkError UNKNOWN "Failed to clean up image previews" None.

(** *** Accept strings made of plain patterns *)

(** A pattern as one writes it in a list: not empty, no white space and no
    comma in it. *)
Definition isToken (s : string) : bool :=
  negb (String.eqb s EmptyString) &&
  forallb (fun c => negb (Js.isSpace c) && negb (Ascii.eqb c ","))
          (list_ascii_of_string s).

(** *** The handles of a world *)

(** The object URLs created and the object URLs revoked so far. *)
Definition createdUrls (w : World) : list string :=
  map snd (acquires (trace w)).
Definition revokedUrls (w : World) : list string :=
  browserRevokes (trace w).

(** A browser never hands out the same object URL twice. *)
Definition freshUrls (host : Host) : Prop :=
  forall n m f g,
    host_createObjectURL host n f = host_createObjectURL host m g -> n = m.

(** An id source that never repeats itself. *)
Definition freshIds (host : Host) : Prop :=
  forall n m, idAt host n = idAt host m -> n = m.

(** The books of the object URLs are in order: every URL created so far
    came from a call that was made, none was created twice, and each is
    either outstanding or revoked. *)
Definition urlLedger (host : Host) (w : World) : Prop :=
  NoDup (createdUrls w) /\
  (forall u, In u (createdUrls w) ->
             exists m g, (m < urlCalls w)%nat /\ u = host_createObjectURL host m g) /\
  Permutation (createdUrls w) (generatedUrls w ++ revokedUrls w).

(** The handles are in order: every URL created so far came from a call
    that was made, none was created twice, each is either outstanding or
    revoked, and the items of the sequence hold different, outstanding
    URLs. *)
Definition handlesInOrder (host : Host) (w : World) : Prop :=
  NoDup (createdUrls w) /\
  (forall u, In u (createdUrls w) ->
             exists m g, (m < urlCalls w)%nat /\ u = host_createObjectURL host m g) /\
  Permutation (createdUrls w) (generatedUrls w ++ revokedUrls w) /\
  NoDup (map preview (images w)) /\
  (forall it, In it (images w) -> In (preview it) (generatedUrls w)).

(** The ids are in order: the items have different ids, each generated by a
    call that was made, and the outstanding URLs are the previews of the
    items. *)
Definition idsInOrder (host : Host) (w : World) : Prop :=
  NoDup (map id (images w)) /\
  (forall it, In it (images w) ->
              exists m, (m < idCalls w)%nat /\ id it = idAt host m) /\
  Permutation (generatedUrls w) (map preview (images w)).

(** What of that every session keeps, also one in which the effect is run
    again: the items have different ids, each generated by a call that was
    made, and every outstanding URL is the preview of an item. *)
Definition idsLedger (host : Host) (w : World) : Prop :=
  NoDup (map id (images w)) /\
  (forall it, In it (images w) ->
              exists m, (m < idCalls w)%nat /\ id it = idAt host m) /\
  (forall u, In u (generatedUrls w) -> In u (map preview (images w))).

(** *** More concrete values *)

Module Sample.

(** [n] strokes. *)
Fixpoint strokes (n : nat) : string :=
  match n with
  | O => EmptyString
  | S n' => String "i" (strokes n')
  end.

(** A browser without [crypto.randomUUID] whose every revocation throws;
    its ids and URLs never repeat. *)
Definition host : Host :=
  mkHost None
         (fun n => "id-" ++ strokes n)
         (fun n _ => "blob:" ++ strokes n)
         (fun _ _ => Some "SecurityError").

Definition longName : string :=
  "holiday-photographs-from-the-summer-of-2019.jpeg".

Definition events : list (Props * Action) :=
  [(Demo.limit 3, Select [Demo.png; Demo.pdf; Demo.png2]);
   (Demo.limit 3, DragEnd "id-" (Some "id-i"));
   (Demo.limit 3, Delete "id-");
   (Demo.limit 3, Select [Demo.png3; Demo.png; Demo.png2])].

(** The same session with an owner that writes [onError] inline: after
    the first Add the effect is run again. *)
Definition eventsInlineOnError : list (Props * Action) :=
  [(Demo.limit 3, Select [Demo.png; Demo.pdf; Demo.png2]);
   (Demo.limit 3, OnErrorChanged);
   (Demo.limit 3, Delete "id-");
   (Demo.limit 3, Select [Demo.png3])].

End Sample.

(* ------------------------------------------------------------------ *)
(** * Proofs                                                            *)
(* ------------------------------------------------------------------ *)

Arguments isAcceptedType : simpl never.
Arguments Js.numberToString : simpl never.
Arguments tooLarge : simpl never.

(** ** Lists *)

Lemma filter_none {A} (f : A -> bool) (l : list A) :
  (forall x, In x l -> f x = false) -> filter f l = [].
Proof.
  induction l as [|x l IH]; intros H; simpl; [reflexivity|].
  rewrite (H x (or_introl eq_refl)). apply IH. intros y Hy. apply H. now right.
Qed.

Lemma filter_all {A} (f : A -> bool) (l : list A) :
  (forall x, In x l -> f x = true) -> filter f l = l.
Proof.
  induction l as [|x l IH]; intros H; simpl; [reflexivity|].
  rewrite (H x (or_introl eq_refl)). f_equal. apply IH. intros y Hy. apply H. now right.
Qed.

Lemma In_firstn {A} (n : nat) (l : list A) (x : A) :
  In x (firstn n l) -> In x l.
Proof.
  revert l. induction n as [|n IH]; intros [|y l] H; simpl in *; try contradiction.
  destruct H as [->|H]; [now left|right; now apply IH].
Qed.

(** ** Worlds and traces *)

Lemma addTrace_nil (w : World) : addTrace [] w = w.
Proof. destruct w; unfold addTrace; simpl; now rewrite app_nil_r. Qed.

Lemma addTrace_app (t1 t2 : list Event) (w : World) :
  addTrace t2 (addTrace t1 w) = addTrace (t1 ++ t2) w.
Proof. unfold addTrace; simpl; now rewrite app_assoc. Qed.

Lemma since_app (w w' : World) (t : list Event) :
  trace w' = (trace w ++ t)%list -> since w w' = t.
Proof.
  intros E. unfold since. rewrite E.
  rewrite skipn_app, skipn_all, Nat.sub_diag. reflexivity.
Qed.

Lemma since_addTrace (w : World) (t : list Event) : since w (addTrace t w) = t.
Proof. now apply since_app. Qed.

Lemma since_refl (w : World) : since w w = [].
Proof. apply since_app. now rewrite app_nil_r. Qed.

Section TraceReaders.

Lemma sinkCalls_app (a b : list Event) :
  sinkCalls (a ++ b)%list = (sinkCalls a ++ sinkCalls b)%list.
Proof. apply flat_map_app. Qed.

Lemma acquires_app (a b : list Event) :
  acquires (a ++ b)%list = (acquires a ++ acquires b)%list.
Proof. apply flat_map_app. Qed.

Lemma releases_app (a b : list Event) :
  releases (a ++ b)%list = (releases a ++ releases b)%list.
Proof. apply flat_map_app. Qed.

Lemma browserRevokes_app (a b : list Event) :
  browserRevokes (a ++ b)%list = (browserRevokes a ++ browserRevokes b)%list.
Proof. apply flat_map_app. Qed.

Lemma changeCalls_app (a b : list Event) :
  changeCalls (a ++ b)%list = (changeCalls a ++ changeCalls b)%list.
Proof. apply flat_map_app. Qed.

Lemma sinkCalls_sinkEvents (p : Props) (es : list ErrorPayload) :
  sinkCalls (sinkEvents p es) = if onError p then es else [].
Proof.
  unfold sinkEvents. destruct (onError p); [|reflexivity].
  induction es as [|e es IH]; simpl; [reflexivity|now rewrite IH].
Qed.

Lemma sinkCalls_createEvents (items : list ImageFile) :
  sinkCalls (createEvents items) = [].
Proof. induction items; simpl; auto. Qed.

Lemma acquires_sinkEvents (p : Props) (es : list ErrorPayload) :
  acquires (sinkEvents p es) = [].
Proof.
  unfold sinkEvents. destruct (onError p); [|reflexivity].
  induction es; simpl; auto.
Qed.

Lemma changeCalls_sinkEvents (p : Props) (es : list ErrorPayload) :
  changeCalls (sinkEvents p es) = [].
Proof.
  unfold sinkEvents. destruct (onError p); [|reflexivity].
  induction es; simpl; auto.
Qed.

Lemma acquires_createEvents (items : list ImageFile) :
  acquires (createEvents items) = map (fun it => (file it, preview it)) items.
Proof. induction items as [|it items IH]; simpl; [reflexivity|now rewrite IH]. Qed.

Lemma changeCalls_createEvents (items : list ImageFile) :
  changeCalls (createEvents items) = [].
Proof. induction items; simpl; auto. Qed.

End TraceReaders.

(** ** The loops of [handleFileSelect] *)

Section Loops.

Variable formatFileSize : Z -> string.
Variable host : Host.

Lemma forEach_callOnError (p : Props) (es : list ErrorPayload) (w : World) :
  forEach (callOnError p) es w = Ok tt (addTrace (sinkEvents p es) w).
Proof.
  unfold sinkEvents, callOnError. destruct (onError p).
  - revert w. induction es as [|e es IH]; intros w; simpl.
    + unfold ret. now rewrite addTrace_nil.
    + unfold bind, emit, modify. rewrite IH.
      change (log (EvOnError e) w) with (addTrace [EvOnError e] w).
      now rewrite addTrace_app.
  - rewrite addTrace_nil. revert w.
    induction es as [|e es IH]; intros w; simpl; [reflexivity|].
    unfold bind, ret. apply IH.
Qed.

Lemma itemsFrom_files (nid nurl : nat) (files : list File) :
  map file (itemsFrom host nid nurl files) = files.
Proof.
  revert nid nurl. induction files as [|f fs IH]; intros; simpl; [reflexivity|].
  now rewrite IH.
Qed.

Lemma newImage_run (f : File) (w : World) :
  let url := host_createObjectURL host (urlCalls w) f in
  newImage host f w =
  Ok (mkImageFile (idAt host (idCalls w)) f url)
     (mkWorld (images w) (JsSet.add (generatedUrls w) url)
              (S (idCalls w)) (S (urlCalls w)) (revokeCalls w)
              (trace w ++ [EvCreateObjectURL f url])).
Proof. reflexivity. Qed.

Lemma mapM_newImage (files : list File) (w : World) :
  let items := itemsFrom host (idCalls w) (urlCalls w) files in
  mapM (newImage host) files w =
  Ok items
     (mkWorld (images w)
              (fold_left JsSet.add (map preview items) (generatedUrls w))
              (idCalls w + List.length files)
              (urlCalls w + List.length files)
              (revokeCalls w)
              (trace w ++ createEvents items)).
Proof.
  revert w. induction files as [|f fs IH]; intros w; simpl.
  - unfold ret. rewrite !Nat.add_0_r, app_nil_r. now destruct w.
  - unfold bind. rewrite newImage_run. rewrite IH. unfold ret. simpl.
    f_equal. f_equal; try lia.
    now rewrite <- app_assoc.
Qed.

End Loops.

(** ** Add, as a whole *)

Section AddRun.

Variable formatFileSize : Z -> string.
Variable host : Host.

Lemma sinkEvents_nil (p : Props) : sinkEvents p [] = [].
Proof. unfold sinkEvents. now destruct (onError p). Qed.

Lemma callOnError_run (p : Props) (e : ErrorPayload) (w : World) :
  callOnError p e w = Ok tt (addTrace (sinkEvents p [e]) w).
Proof.
  unfold callOnError, sinkEvents. destruct (onError p); simpl.
  - reflexivity.
  - unfold ret. now rewrite addTrace_nil.
Qed.

Lemma handleFileSelect_disabled (p : Props) (files : list File) (w : World) :
  disabled_of p = true ->
  handleFileSelect formatFileSize host p files w = Ok tt w.
Proof.
  intros D. unfold handleFileSelect. rewrite D, orb_true_r. reflexivity.
Qed.

Lemma append_run (imgs : list ImageFile) (kept : list File) (w : World) :
  let items := itemsFrom host (idCalls w) (urlCalls w) kept in
  (newImages <- mapM (newImage host) kept ;;
   onImagesChange (imgs ++ newImages)) w
  = Ok tt (mkWorld (imgs ++ items)
                   (fold_left JsSet.add (map preview items) (generatedUrls w))
                   (idCalls w + List.length kept)
                   (urlCalls w + List.length kept)
                   (revokeCalls w)
                   (trace w ++ createEvents items
                            ++ [EvOnImagesChange (imgs ++ items)])).
Proof.
  simpl. unfold bind. rewrite mapM_newImage.
  unfold onImagesChange, modify, log, set_images. simpl.
  now rewrite <- app_assoc.
Qed.

Lemma handleFileSelect_enabled (p : Props) (files : list File) (w : World) :
  disabled_of p = false ->
  handleFileSelect formatFileSize host p files w
  = Ok tt (afterAdd formatFileSize host p w files).
Proof.
  intros D. unfold handleFileSelect, afterAdd, addEvents, keptFiles, limitErrors.
  rewrite D, orb_false_r.
  destruct files as [|f0 fs].
  - simpl. unfold ret. rewrite sinkEvents_nil.
    destruct (remainingSlotsOf p (Z.of_nat (Datatypes.length (images w)))) as [r|];
      [destruct (r <=? 0); [|rewrite firstn_nil]|];
      simpl; rewrite ?Nat.add_0_r, ?app_nil_r; now destruct w.
  - change (Nat.eqb (Datatypes.length (f0 :: fs)) 0) with false. cbv iota.
    unfold bind at 1. rewrite forEach_callOnError.
    destruct (validFilesOf formatFileSize p (f0 :: fs)) as [|v vs] eqn:V.
    + simpl. unfold ret. rewrite sinkEvents_nil.
      destruct (remainingSlotsOf p (Z.of_nat (Datatypes.length (images w)))) as [r|];
        [destruct (r <=? 0); [|rewrite firstn_nil]|];
        simpl; rewrite ?Nat.add_0_r, ?app_nil_r; unfold addTrace; reflexivity.
    + change (Nat.eqb (Datatypes.length (v :: vs)) 0) with false. cbv iota.
      unfold bind at 1. unfold get at 1.
      change (images (addTrace ?t w)) with (images w).
      set (E := sinkEvents p (errorsOf formatFileSize p (f0 :: fs))).
      destruct (remainingSlotsOf p (Z.of_nat (Datatypes.length (images w))))
        as [r|].
      * destruct (r <=? 0) eqn:R0.
        -- rewrite callOnError_run, addTrace_app. unfold addTrace. simpl.
           rewrite !app_nil_r, !Nat.add_0_r. reflexivity.
        -- apply Z.leb_gt in R0.
           destruct (r <? Z.of_nat (Datatypes.length (v :: vs))) eqn:RL.
           ++ unfold bind at 1. unfold bind at 1.
              rewrite callOnError_run, addTrace_app. unfold ret at 1.
              rewrite append_run.
              destruct (firstn (Z.to_nat r) (v :: vs)) as [|k ks] eqn:K.
              { destruct (Z.to_nat r) eqn:N; [lia|discriminate K]. }
              unfold addTrace. simpl. f_equal. f_equal.
              rewrite <- !app_assoc. reflexivity.
           ++ apply Z.ltb_ge in RL.
              rewrite firstn_all2 by lia.
              unfold bind at 1. unfold ret at 1.
              rewrite append_run. unfold addTrace. simpl. f_equal. f_equal.
              rewrite sinkEvents_nil. rewrite <- !app_assoc. reflexivity.
      * unfold bind at 1. unfold ret at 1.
        rewrite append_run. unfold addTrace. simpl. f_equal. f_equal.
        rewrite sinkEvents_nil. rewrite <- !app_assoc. reflexivity.
Qed.

End AddRun.

(** ** Validation *)

Section ValidationFacts.

Variable formatFileSize : Z -> string.


Lemma validationOf_isValid (p : Props) (f : File) :
  isValid (validationOf formatFileSize p f)
  = negb (tooLarge p f) && isAcceptedType f (Some (acceptedFileTypes_of p)).
Proof.
  unfold validationOf, validateFile, tooLarge. simpl.
  destruct (negb (maxFileSize_of p =? 0) && (maxFileSize_of p <? file_size f));
    simpl; [reflexivity|].
  now destruct (isAcceptedType f (Some (acceptedFileTypes_of p))).
Qed.

Lemma validationOf_error_code (p : Props) (f : File) (e : ErrorPayload) :
  error (validationOf formatFileSize p f) = Some e ->
  err_file e = Some f /\
  ((code e = FILE_TOO_LARGE /\ tooLarge p f = true) \/
   (code e = INVALID_TYPE /\ tooLarge p f = false)).
Proof.
  unfold validationOf, validateFile, tooLarge. simpl.
  destruct (negb (maxFileSize_of p =? 0) && (maxFileSize_of p <? file_size f));
    simpl.
  - intros [= <-]. simpl. auto.
  - destruct (isAcceptedType f (Some (acceptedFileTypes_of p))); simpl.
    + discriminate.
    + intros [= <-]. simpl. auto.
Qed.

Lemma within_bound_not_tooLarge (p : Props) (f : File) :
  file_size f <= maxFileSize_of p -> tooLarge p f = false.
Proof.
  intros L. unfold tooLarge.
  apply andb_false_iff. right. apply Z.ltb_ge. exact L.
Qed.

Lemma validFilesOf_all (p : Props) (files : list File) :
  Forall (fun f => isValid (validationOf formatFileSize p f) = true) files ->
  validFilesOf formatFileSize p files = files /\
  errorsOf formatFileSize p files = [].
Proof.
  unfold validFilesOf, errorsOf.
  induction 1 as [|f fs Hf _ [IH1 IH2]]; simpl; [auto|].
  rewrite Hf, IH1. simpl. auto.
Qed.

Lemma validFilesOf_In (p : Props) (files : list File) (f : File) :
  In f (validFilesOf formatFileSize p files) ->
  In f files /\ isValid (validationOf formatFileSize p f) = true.
Proof. unfold validFilesOf. apply filter_In. Qed.

Lemma errorsOf_In (p : Props) (files : list File) (e : ErrorPayload) :
  In e (errorsOf formatFileSize p files) ->
  exists f, In f files /\ error (validationOf formatFileSize p f) = Some e.
Proof.
  unfold errorsOf. rewrite in_flat_map. intros [f [Hf He]].
  exists f. split; [assumption|].
  destruct (isValid (validationOf formatFileSize p f)); [contradiction|].
  destruct (error (validationOf formatFileSize p f)) as [e'|]; [|contradiction].
  destruct He as [->|[]]. reflexivity.
Qed.


Lemma limitErrors_code (p : Props) (n : nat) (files : list File) (e : ErrorPayload) :
  In e (limitErrors formatFileSize p n files) -> code e = MAX_FILES_EXCEEDED.
Proof.
  unfold limitErrors.
  destruct (validFilesOf formatFileSize p files); [intros []|].
  destruct (remainingSlotsOf p (Z.of_nat n)) as [r|]; [|intros []].
  destruct (r <=? 0); [intros [<-|[]]; reflexivity|].
  destruct (r <? _); [intros [<-|[]]; reflexivity|intros []].
Qed.

End ValidationFacts.

(** ** The set of outstanding handles *)

Lemma JsSet_has_In (s : list string) (x : string) :
  JsSet.has s x = true <-> In x s.
Proof.
  unfold JsSet.has. rewrite existsb_exists. split.
  - intros [y [Hy E]]. apply String.eqb_eq in E. now subst.
  - intros H. exists x. split; [assumption|apply String.eqb_refl].
Qed.

Lemma JsSet_add_In (s : list string) (x y : string) :
  In y (JsSet.add s x) <-> In y s \/ y = x.
Proof.
  unfold JsSet.add. destruct (JsSet.has s x) eqn:H.
  - apply JsSet_has_In in H. split; [auto|]. intros [?| ->]; assumption.
  - rewrite in_app_iff. simpl. intuition.
Qed.

Lemma JsSet_delete_In (s : list string) (x y : string) :
  In y (JsSet.delete s x) <-> In y s /\ y <> x.
Proof.
  unfold JsSet.delete. rewrite filter_In, negb_true_iff, String.eqb_neq.
  intuition.
Qed.

Lemma fold_add_In (l s : list string) (y : string) :
  In y (fold_left JsSet.add l s) <-> In y s \/ In y l.
Proof.
  revert s. induction l as [|x l IH]; intros s; simpl.
  - intuition.
  - rewrite IH, JsSet_add_In. intuition.
Qed.

(** ** Add (handleFileSelect) *)

Section AddFacts.

Variable formatFileSize : Z -> string.
Variable host : Host.

Lemma nth_error_itemsFrom (nid nurl : nat) (files : list File) (k : nat) (f : File) :
  nth_error files k = Some f ->
  nth_error (itemsFrom host nid nurl files) k
  = Some (mkImageFile (idAt host (nid + k)) f
                      (host_createObjectURL host (nurl + k) f)).
Proof.
  revert nid nurl k. induction files as [|g gs IH]; intros nid nurl [|k] H;
    simpl in *; try discriminate.
  - injection H as ->. now rewrite !Nat.add_0_r.
  - rewrite (IH _ _ _ H). now rewrite !Nat.add_succ_r.
Qed.

Lemma keptFiles_all (p : Props) (n : nat) (files : list File) :
  validFilesOf formatFileSize p files = files ->
  (forall r, remainingSlotsOf p (Z.of_nat n) = Some r ->
             Z.of_nat (List.length files) <= r) ->
  keptFiles formatFileSize p n files = files /\
  limitErrors formatFileSize p n files = [].
Proof.
  intros V C. unfold keptFiles, limitErrors. rewrite V.
  destruct (remainingSlotsOf p (Z.of_nat n)) as [r|].
  - specialize (C r eq_refl). destruct files as [|f fs].
    + rewrite firstn_nil. now destruct (r <=? 0).
    + simpl List.length in *.
      assert ((r <=? 0) = false) as -> by (apply Z.leb_gt; lia).
      assert ((r <? Z.of_nat (S (List.length fs))) = false) as ->
          by (apply Z.ltb_ge; lia).
      split; [|reflexivity].
      apply firstn_all2. simpl. lia.
  - split; [reflexivity|now destruct files].
Qed.

Lemma afterAdd_kept_all (p : Props) (w : World) (files : list File) :
  keptFiles formatFileSize p (List.length (images w)) files = files ->
  limitErrors formatFileSize p (List.length (images w)) files = [] ->
  errorsOf formatFileSize p files = [] ->
  let items := itemsFrom host (idCalls w) (urlCalls w) files in
  afterAdd formatFileSize host p w files
  = mkWorld (images w ++ items)
            (fold_left JsSet.add (map preview items) (generatedUrls w))
            (idCalls w + List.length files) (urlCalls w + List.length files)
            (revokeCalls w)
            (trace w ++ createEvents items
               ++ match files with
                  | [] => []
                  | _ :: _ => [EvOnImagesChange (images w ++ items)]
                  end).
Proof.
  intros K L E. unfold afterAdd, addEvents. rewrite K, L, E.
  now rewrite sinkEvents_nil.
Qed.

(** C1.  An enabled uploader that is handed a batch in which every file is
    within the size bound and of an accepted type, with no ceiling on the
    count or room for the whole batch, appends exactly the files of the
    batch, in the order of the batch, behind the items already there.  The
    k-th new item carries the k-th file, the id of a call of [generateId]
    that had not been made before and the object URL of a call of
    [URL.createObjectURL] that had not been made before; each URL is
    acquired once and is outstanding afterwards; the items that were there
    stay where they were; no error is reported. *)
Theorem handleFileSelect_appends_valid_batch
        (p : Props) (files : list File) (w : World) :
  disabled_of p = false ->
  Forall (fun f => file_size f <= maxFileSize_of p /\
                   isAcceptedType f (Some (acceptedFileTypes_of p)) = true)
         files ->
  (forall r, remainingSlotsOf p (Z.of_nat (List.length (images w))) = Some r ->
             Z.of_nat (List.length files) <= r) ->
  exists w',
    handleFileSelect formatFileSize host p files w = Ok tt w' /\
    let items := itemsFrom host (idCalls w) (urlCalls w) files in
    images w' = (images w ++ items)%list /\
    firstn (List.length (images w)) (images w') = images w /\
    map file (skipn (List.length (images w)) (images w')) = files /\
    (forall k f, nth_error files k = Some f ->
       nth_error (images w') (List.length (images w) + k)
       = Some (mkImageFile (idAt host (idCalls w + k)) f
                           (host_createObjectURL host (urlCalls w + k) f))) /\
    acquires (since w w') = map (fun it => (file it, preview it)) items /\
    idCalls w' = (idCalls w + List.length files)%nat /\
    urlCalls w' = (urlCalls w + List.length files)%nat /\
    (forall it, In it items -> In (preview it) (generatedUrls w')) /\
    sinkCalls (since w w') = [].
Proof.
  intros D V C.
  assert (Forall (fun f => isValid (validationOf formatFileSize p f) = true) files)
    as V'.
  { eapply Forall_impl; [|exact V]. intros f [S A]. simpl in *.
    rewrite validationOf_isValid, (within_bound_not_tooLarge p f S), A.
    reflexivity. }
  destruct (validFilesOf_all formatFileSize p files V') as [VF EF].
  destruct (keptFiles_all p _ files VF C) as [K L].
  eexists. split; [apply handleFileSelect_enabled; exact D|].
  rewrite (afterAdd_kept_all p w files K L EF). cbv zeta.
  set (items := itemsFrom host (idCalls w) (urlCalls w) files).
  simpl images. simpl idCalls. simpl urlCalls. simpl generatedUrls.
  repeat split.
  - rewrite firstn_app, Nat.sub_diag, firstn_all. simpl. apply app_nil_r.
  - rewrite skipn_app, skipn_all, Nat.sub_diag. simpl.
    apply itemsFrom_files.
  - intros k f H. rewrite nth_error_app2 by lia.
    replace (List.length (images w) + k - List.length (images w))%nat with k by lia.
    now apply nth_error_itemsFrom.
  - erewrite since_app by (simpl; reflexivity).
    rewrite acquires_app, acquires_createEvents.
    destruct files; simpl; rewrite ?app_nil_r; reflexivity.
  - intros it H. apply fold_add_In. right. now apply in_map.
  - erewrite since_app by (simpl; reflexivity).
    rewrite sinkCalls_app, sinkCalls_createEvents. now destruct files.
Qed.

End AddFacts.

(** ** Reading the trace of one Add *)

Section AddTrace.

Variable formatFileSize : Z -> string.
Variable host : Host.

Lemma afterAdd_since (p : Props) (w : World) (files : list File) :
  since w (afterAdd formatFileSize host p w files)
  = addEvents formatFileSize host p w files.
Proof. now apply since_app. Qed.

Lemma afterAdd_sinkCalls (p : Props) (w : World) (files : list File) :
  sinkCalls (since w (afterAdd formatFileSize host p w files))
  = if onError p
    then (errorsOf formatFileSize p files
          ++ limitErrors formatFileSize p (List.length (images w)) files)%list
    else [].
Proof.
  rewrite afterAdd_since. unfold addEvents.
  rewrite !sinkCalls_app, !sinkCalls_sinkEvents, sinkCalls_createEvents.
  destruct (onError p); simpl.
  - destruct (keptFiles _ _ _ _); simpl; now rewrite app_nil_r.
  - now destruct (keptFiles _ _ _ _).
Qed.

Lemma afterAdd_acquires (p : Props) (w : World) (files : list File) :
  acquires (since w (afterAdd formatFileSize host p w files))
  = map (fun it => (file it, preview it)) (itemsOf formatFileSize host p w files).
Proof.
  rewrite afterAdd_since. unfold addEvents.
  rewrite !acquires_app, !acquires_sinkEvents, acquires_createEvents.
  unfold itemsOf, keptOf. simpl.
  destruct (keptFiles _ _ _ _); simpl; now rewrite ?app_nil_r.
Qed.

Lemma afterAdd_changeCalls (p : Props) (w : World) (files : list File) :
  changeCalls (since w (afterAdd formatFileSize host p w files))
  = match keptOf formatFileSize p w files with
    | [] => []
    | _ :: _ => [(images w ++ itemsOf formatFileSize host p w files)%list]
    end.
Proof.
  rewrite afterAdd_since. unfold addEvents.
  rewrite !changeCalls_app, !changeCalls_sinkEvents, changeCalls_createEvents.
  unfold itemsOf, keptOf. simpl.
  now destruct (keptFiles _ _ _ _).
Qed.

Lemma errorsOf_no_limit (p : Props) (files : list File) :
  filter (hasCode MAX_FILES_EXCEEDED) (errorsOf formatFileSize p files) = [].
Proof.
  apply filter_none. intros e He.
  destruct (errorsOf_In formatFileSize p files e He) as [f [_ E]].
  destruct (validationOf_error_code formatFileSize p f e E) as [_ [[C _]|[C _]]];
    unfold hasCode; rewrite C; reflexivity.
Qed.

Lemma limitErrors_all_limit (p : Props) (n : nat) (files : list File) :
  filter (hasCode MAX_FILES_EXCEEDED) (limitErrors formatFileSize p n files)
  = limitErrors formatFileSize p n files.
Proof.
  apply filter_all. intros e He.
  unfold hasCode. now rewrite (limitErrors_code formatFileSize p n files e He).
Qed.

End AddTrace.

(** ** The ceiling on the count *)

Section Ceiling.

Variable formatFileSize : Z -> string.
Variable host : Host.

Lemma remainingSlotsOf_limit (p : Props) (n c : Z) :
  maxFiles p = Some n -> n <> 0 ->
  remainingSlotsOf p c = Some (Z.max 0 (n - c)).
Proof.
  intros M N. unfold remainingSlotsOf, truthy. rewrite M.
  apply Z.eqb_neq in N. now rewrite N.
Qed.

Lemma remainingSlotsOf_unlimited (p : Props) (c : Z) :
  maxFiles p = None \/ maxFiles p = Some 0 ->
  remainingSlotsOf p c = None.
Proof. intros [M|M]; unfold remainingSlotsOf; now rewrite M. Qed.

(** C2, as the code has it.  The uploader is enabled and has an error
    callback.  With a ceiling [maxFiles = n] other than 0, a batch with at
    least one accepted file is treated as follows.  When the sequence
    already holds [n] items or more, exactly one [MAX_FILES_EXCEEDED]
    error is reported, nothing is acquired, [onImagesChange] is not called
    and the sequence stays as it is.  When the room [r] that is left is
    positive and smaller than the number of accepted files, exactly the
    first [r] accepted files are appended, in the order of the batch, and
    exactly one [MAX_FILES_EXCEEDED] error says that only [r] of them were
    added.  With [n - 1] items and three accepted files the first of the
    three is the one that is kept.  Without [maxFiles], or with 0, there is
    no ceiling: every accepted file is appended and no such error is
    reported.  A batch without an accepted file reports its validation
    errors and nothing else. *)
Theorem handleFileSelect_enforces_maxFiles
        (p : Props) (files : list File) (w : World) :
  disabled_of p = false -> onError p = true ->
  exists w',
    handleFileSelect formatFileSize host p files w = Ok tt w' /\
    let valid := validFilesOf formatFileSize p files in
    let count := Z.of_nat (List.length (images w)) in
    let limitCalls :=
      filter (hasCode MAX_FILES_EXCEEDED) (sinkCalls (since w w')) in
    (forall n, maxFiles p = Some n -> n <> 0 -> valid <> [] ->
       (n <= count ->
          images w' = images w /\
          limitCalls = [maxReached p] /\
          acquires (since w w') = [] /\
          changeCalls (since w w') = [] /\
          generatedUrls w' = generatedUrls w) /\
       (forall r, r = n - count -> 0 < r -> r < Z.of_nat (List.length valid) ->
          images w' = (images w ++ itemsFrom host (idCalls w) (urlCalls w)
                                             (firstn (Z.to_nat r) valid))%list /\
          map file (skipn (List.length (images w)) (images w'))
          = firstn (Z.to_nat r) valid /\
          limitCalls = [onlySome p r (List.length valid)] /\
          changeCalls (since w w') = [images w']) /\
       (forall f1 f2 f3, valid = [f1; f2; f3] -> count = n - 1 ->
          images w' = (images w ++
                       [mkImageFile (idAt host (idCalls w)) f1
                          (host_createObjectURL host (urlCalls w) f1)])%list /\
          limitCalls = [onlySome p 1 3])) /\
    (maxFiles p = None \/ maxFiles p = Some 0 ->
       images w' = (images w ++ itemsFrom host (idCalls w) (urlCalls w) valid)%list /\
       limitCalls = []) /\
    (valid = [] ->
       images w' = images w /\
       sinkCalls (since w w') = errorsOf formatFileSize p files /\
       acquires (since w w') = [] /\
       changeCalls (since w w') = []).
Proof.
  intros D SK.
  eexists. split; [apply handleFileSelect_enabled; exact D|].
  cbv zeta.
  rewrite afterAdd_sinkCalls, afterAdd_acquires, afterAdd_changeCalls, SK.
  rewrite filter_app, errorsOf_no_limit, limitErrors_all_limit. simpl app.
  unfold afterAdd, limitErrors, itemsOf, keptOf, keptFiles.
  set (count := Z.of_nat (List.length (images w))).
  simpl images. simpl generatedUrls.
  split; [|split].
  - intros n M N V. rewrite (remainingSlotsOf_limit p n _ M N).
    destruct (validFilesOf formatFileSize p files) as [|v vs] eqn:E;
      [congruence|clear V].
    assert (forall r, 0 < r -> r = n - count ->
              r < Z.of_nat (List.length (v :: vs)) ->
              exists k ks, firstn (Z.to_nat r) (v :: vs) = k :: ks) as NE.
    { intros r R _ _. destruct (Z.to_nat r) eqn:T; [lia|]. simpl. eauto. }
    split; [|split].
    + intros F. replace (Z.max 0 (n - count)) with 0 by lia. simpl.
      now rewrite app_nil_r.
    + intros r -> R L.
      replace (Z.max 0 (n - count)) with (n - count) by lia.
      assert ((n - count <=? 0) = false) as -> by (apply Z.leb_gt; lia).
      assert ((n - count <? Z.of_nat (List.length (v :: vs))) = true) as ->
          by (apply Z.ltb_lt; lia).
      destruct (NE _ R eq_refl L) as [k [ks ->]].
      repeat split.
      rewrite skipn_app, skipn_all, Nat.sub_diag. simpl.
      f_equal. apply itemsFrom_files.
    + intros f1 f2 f3 [= -> ->] C.
      replace (Z.max 0 (n - count)) with 1 by lia. simpl.
      split; reflexivity.
  - intros U. rewrite (remainingSlotsOf_unlimited p _ U).
    split; [reflexivity|].
    now destruct (validFilesOf formatFileSize p files).
  - intros ->.
    destruct (remainingSlotsOf p count) as [r|];
      [destruct (r <=? 0); [|rewrite firstn_nil]|];
      simpl; now rewrite !app_nil_r.
Qed.

End Ceiling.

(** ** Release (revokeObjectURL of useObjectURLs) *)

Section Release.

Variable host : Host.

Lemma revokeObjectURL_unknown (url : string)
      (sink : option (JsError -> M unit)) (w : World) :
  JsSet.has (generatedUrls w) url = false ->
  revokeObjectURL host url sink w = Ok tt (addTrace [EvRelease url] w).
Proof.
  intros H. unfold revokeObjectURL, bind, emit, modify, get, log. simpl.
  rewrite H. reflexivity.
Qed.

Lemma revokeObjectURL_revoked (url : string)
      (sink : option (JsError -> M unit)) (w : World) :
  JsSet.has (generatedUrls w) url = true ->
  host_revoke_throws host (revokeCalls w) url = None ->
  revokeObjectURL host url sink w
  = Ok tt (mkWorld (images w) (JsSet.delete (generatedUrls w) url)
                   (idCalls w) (urlCalls w) (S (revokeCalls w))
                   (trace w ++ [EvRelease url; EvRevokeObjectURL url])).
Proof.
  intros H T.
  unfold revokeObjectURL, bind, emit, modify, get, safeRevokeObjectURL,
    tryCatch, URL_revokeObjectURL, log. simpl.
  rewrite H. simpl. rewrite T. unfold set_generatedUrls. simpl.
  now rewrite <- app_assoc.
Qed.

Lemma revokeObjectURL_failed (url : string)
      (sink : option (JsError -> M unit)) (w : World) (e : JsError) :
  JsSet.has (generatedUrls w) url = true ->
  host_revoke_throws host (revokeCalls w) url = Some e ->
  revokeObjectURL host url sink w
  = (match sink with Some k => k e | None => ret tt end ;;
     modify (fun w => set_generatedUrls (JsSet.delete (generatedUrls w) url) w))
      (mkWorld (images w) (generatedUrls w) (idCalls w) (urlCalls w)
               (S (revokeCalls w))
               (trace w ++ [EvRelease url; EvRevokeObjectURL url;
                            EvConsoleWarn "Failed to revoke object URL:" e])).
Proof.
  intros H T.
  unfold revokeObjectURL, safeRevokeObjectURL, tryCatch, URL_revokeObjectURL,
    console_warn, emit, modify, get, log, bind. simpl.
  rewrite H. simpl. rewrite T. simpl.
  now rewrite <- !app_assoc.
Qed.

(** C7.  Release of a handle the hook does not hold, because it never
    created it or has released it already, attempts no revocation: nothing
    is called, the set of outstanding handles and the sequence are as
    before.  After any release the handle is no longer outstanding, so a
    second release is of that kind.  Release never ends in an exception as
    long as the error callback it is handed returns: when
    [URL.revokeObjectURL] throws, the exception is caught, logged with
    [console.warn] and passed to the callback when there is one, and the
    handle is dropped from the set all the same. *)
Theorem revokeObjectURL_never_throws
        (url : string) (sink : option (JsError -> M unit)) (w : World) :
  (forall k, sink = Some k -> forall e w0, returns (k e w0) = true) ->
  returns (safeRevokeObjectURL host url sink w) = true /\
  returns (revokeObjectURL host url sink w) = true /\
  (JsSet.has (generatedUrls w) url = false ->
     revokeObjectURL host url sink w = Ok tt (addTrace [EvRelease url] w) /\
     browserRevokes (since w (finalWorld (revokeObjectURL host url sink w))) = []) /\
  (let w1 := finalWorld (revokeObjectURL host url sink w) in
   JsSet.has (generatedUrls w1) url = false /\
   revokeObjectURL host url sink w1 = Ok tt (addTrace [EvRelease url] w1)) /\
  (forall e,
     JsSet.has (generatedUrls w) url = true ->
     host_revoke_throws host (revokeCalls w) url = Some e ->
     let caught :=
       mkWorld (images w) (generatedUrls w) (idCalls w) (urlCalls w)
               (S (revokeCalls w))
               (trace w ++ [EvRelease url; EvRevokeObjectURL url;
                            EvConsoleWarn "Failed to revoke object URL:" e]) in
     revokeObjectURL host url sink w
     = match sink with
       | Some k =>
           (k e ;;
            modify (fun w => set_generatedUrls
                               (JsSet.delete (generatedUrls w) url) w)) caught
       | None =>
           Ok tt (set_generatedUrls (JsSet.delete (generatedUrls w) url) caught)
       end).
Proof.
  intros K.
  assert (JsSet.has (generatedUrls (finalWorld (revokeObjectURL host url sink w)))
                    url = false /\
          returns (revokeObjectURL host url sink w) = true) as [Gone Ret].
  { destruct (JsSet.has (generatedUrls w) url) eqn:H.
    - destruct (host_revoke_throws host (revokeCalls w) url) as [e|] eqn:T.
      + rewrite (revokeObjectURL_failed url sink w e H T).
        destruct sink as [k|].
        * specialize (K k eq_refl e). unfold bind.
          match goal with |- context [k e ?x] =>
            specialize (K x); destruct (k e x) as [[] w1|e1 w1] end;
            [|discriminate K].
          simpl. split; [|reflexivity].
          apply not_true_iff_false. rewrite JsSet_has_In, JsSet_delete_In.
          intros [_ N]. now apply N.
        * simpl. split; [|reflexivity].
          apply not_true_iff_false. rewrite JsSet_has_In, JsSet_delete_In.
          intros [_ N]. now apply N.
      + rewrite (revokeObjectURL_revoked url sink w H T). simpl.
        split; [|reflexivity].
        apply not_true_iff_false. rewrite JsSet_has_In, JsSet_delete_In.
        intros [_ N]. now apply N.
    - rewrite (revokeObjectURL_unknown url sink w H). simpl. auto. }
  split.
  { unfold safeRevokeObjectURL, tryCatch, URL_revokeObjectURL, console_warn,
      emit, modify, bind.
    destruct (host_revoke_throws host (revokeCalls w) url) as [e|]; [|reflexivity].
    destruct sink as [k|]; [apply (K k eq_refl)|reflexivity]. }
  split; [exact Ret|]. split; [|split].
  - intros H. rewrite (revokeObjectURL_unknown url sink w H). split; [reflexivity|].
    simpl. now rewrite since_addTrace.
  - cbv zeta. split; [exact Gone|]. now apply revokeObjectURL_unknown.
  - intros e H T. cbv zeta. rewrite (revokeObjectURL_failed url sink w e H T).
    destruct sink; reflexivity.
Qed.

End Release.

(** ** Remove (handleDelete) *)

Section Remove.

Variable host : Host.

Lemma find_filter_unique (l : list ImageFile) (it : ImageFile) :
  NoDup (map id l) -> In it l ->
  exists l1 l2,
    l = (l1 ++ it :: l2)%list /\
    find (fun img => String.eqb (id img) (id it)) l = Some it /\
    filter (fun img => negb (String.eqb (id img) (id it))) l = (l1 ++ l2)%list.
Proof.
  induction l as [|x l IH]; intros ND I; [contradiction|].
  simpl in ND. inversion ND as [|? ? NI ND']; subst.
  destruct I as [->|I].
  - exists [], l. simpl. rewrite String.eqb_refl. simpl.
    repeat split. apply filter_all. intros y Hy.
    apply negb_true_iff, String.eqb_neq. intros E. apply NI.
    rewrite <- E. now apply in_map.
  - destruct (IH ND' I) as [l1 [l2 [E [F G]]]].
    assert (String.eqb (id x) (id it) = false) as X.
    { apply String.eqb_neq. intros E'. apply NI. rewrite E'. now apply in_map. }
    exists (x :: l1), l2. simpl. rewrite X. simpl. rewrite G, F, <- E. auto.
Qed.

Lemma find_filter_absent (l : list ImageFile) (i : string) :
  ~ In i (map id l) ->
  find (fun img => String.eqb (id img) i) l = None /\
  filter (fun img => negb (String.eqb (id img) i)) l = l.
Proof.
  induction l as [|x l IH]; intros NI; simpl; [auto|].
  simpl in NI.
  assert (String.eqb (id x) i = false) as X.
  { apply String.eqb_neq. intros E. apply NI. now left. }
  rewrite X. simpl. destruct IH as [F G]; [tauto|]. now rewrite F, G.
Qed.

(** One release as [handleDelete] asks for it. *)
Lemma release_by_component (p : Props) (err : ErrorPayload) (url : string) (w : World) :
  exists t rc,
    revokeObjectURL host url (Some (fun _ => callOnError p err)) w
    = Ok tt (mkWorld (images w)
                     (if JsSet.has (generatedUrls w) url
                      then JsSet.delete (generatedUrls w) url
                      else generatedUrls w)
                     (idCalls w) (urlCalls w) rc (trace w ++ t)) /\
    releases t = [url] /\
    browserRevokes t = (if JsSet.has (generatedUrls w) url then [url] else []) /\
    changeCalls t = [] /\ acquires t = [] /\
    (sinkCalls t <> [] ->
     host_revoke_throws host (revokeCalls w) url <> None /\ sinkCalls t = [err]).
Proof.
  destruct (JsSet.has (generatedUrls w) url) eqn:H.
  - destruct (host_revoke_throws host (revokeCalls w) url) as [e|] eqn:T.
    + rewrite (revokeObjectURL_failed host url _ w e H T).
      unfold bind. rewrite callOnError_run. unfold modify, addTrace,
        set_generatedUrls. simpl.
      eexists _, _. split; [rewrite <- app_assoc; reflexivity|].
      rewrite releases_app, browserRevokes_app, changeCalls_app, acquires_app,
        sinkCalls_app, sinkCalls_sinkEvents.
      unfold sinkEvents.
      destruct (onError p); simpl; repeat split; congruence.
    + rewrite (revokeObjectURL_revoked host url _ w H T).
      eexists _, _. split; [reflexivity|]. simpl. repeat split; congruence.
  - rewrite (revokeObjectURL_unknown host url _ w H).
    eexists _, _. split; [reflexivity|]. simpl. repeat split; congruence.
Qed.

Lemma handleDelete_found (p : Props) (i : string) (w : World) (img : ImageFile) :
  find (fun x => String.eqb (id x) i) (images w) = Some img ->
  let rest := filter (fun x => negb (String.eqb (id x) i)) (images w) in
  exists t rc,
    handleDelete host p i w
    = Ok tt (mkWorld rest
                     (if JsSet.has (generatedUrls w) (preview img)
                      then JsSet.delete (generatedUrls w) (preview img)
                      else generatedUrls w)
                     (idCalls w) (urlCalls w) rc
                     (trace w ++ t ++ [EvOnImagesChange rest])) /\
    releases t = [preview img] /\
    browserRevokes t
    = (if JsSet.has (generatedUrls w) (preview img) then [preview img] else []) /\
    changeCalls t = [] /\ acquires t = [].
Proof.
  intros F rest.
  destruct (release_by_component p
              (mkError UNKNOWN "Failed to clean up image preview" None)
              (preview img) w) as [t [rc [R [HR [HB [HC [HA _]]]]]]].
  exists t, rc. split; [|auto].
  unfold handleDelete, bind, get. rewrite F, R.
  unfold onImagesChange, modify, log, set_images. simpl.
  now rewrite <- app_assoc.
Qed.

(** C3.  In a sequence whose ids are pairwise different, Remove with the
    id of an item calls release once, for the preview handle of that item,
    and hands the owner the same sequence without the item, the others in
    their order.  The release revokes the handle in the browser once when
    it is outstanding and not at all when the hook does not hold it;
    afterwards it is not outstanding.  Remove with an id that no item has
    leaves the sequence and the outstanding handles as they are and calls
    no release. *)
Theorem handleDelete_removes_item (p : Props) (w : World) :
  (forall it, NoDup (map id (images w)) -> In it (images w) ->
     exists w' l1 l2,
       handleDelete host p (id it) w = Ok tt w' /\
       images w = (l1 ++ it :: l2)%list /\
       images w' = (l1 ++ l2)%list /\
       releases (since w w') = [preview it] /\
       browserRevokes (since w w')
       = (if JsSet.has (generatedUrls w) (preview it) then [preview it] else []) /\
       JsSet.has (generatedUrls w') (preview it) = false) /\
  (forall i, ~ In i (map id (images w)) ->
     exists w',
       handleDelete host p i w = Ok tt w' /\
       images w' = images w /\
       releases (since w w') = [] /\
       browserRevokes (since w w') = [] /\
       generatedUrls w' = generatedUrls w).
Proof.
  split.
  - intros it ND I.
    destruct (find_filter_unique (images w) it ND I) as [l1 [l2 [E [F G]]]].
    destruct (release_by_component p
                (mkError UNKNOWN "Failed to clean up image preview" None)
                (preview it) w) as [t [rc [R [HR [HB [HC [HA _]]]]]]].
    unfold handleDelete, bind, get. rewrite F. rewrite R.
    unfold onImagesChange, modify, log, set_images. simpl.
    eexists _, l1, l2. split; [reflexivity|]. simpl.
    split; [exact E|]. split; [exact G|].
    erewrite since_app by (simpl; rewrite <- app_assoc; reflexivity).
    rewrite releases_app, browserRevokes_app, HR, HB. simpl.
    rewrite !app_nil_r. repeat split.
    destruct (JsSet.has (generatedUrls w) (preview it)) eqn:H; [|exact H].
    apply not_true_iff_false. rewrite JsSet_has_In, JsSet_delete_In.
    intros [_ N]. now apply N.
  - intros i NI.
    destruct (find_filter_absent (images w) i NI) as [F G].
    unfold handleDelete, bind, get. rewrite F. unfold ret.
    unfold onImagesChange, modify, log, set_images. simpl.
    eexists. split; [reflexivity|]. simpl.
    split; [exact G|].
    erewrite since_app by (simpl; reflexivity). simpl. auto.
Qed.

End Remove.

(** ** Add followed by Remove *)

Section RoundTrip.

Variable formatFileSize : Z -> string.
Variable host : Host.

Lemma find_filter_last (l : list ImageFile) (it : ImageFile) :
  ~ In (id it) (map id l) ->
  find (fun img => String.eqb (id img) (id it)) (l ++ [it]) = Some it /\
  filter (fun img => negb (String.eqb (id img) (id it))) (l ++ [it]) = l.
Proof.
  intros NI. destruct (find_filter_absent l (id it) NI) as [F G].
  rewrite filter_app, G. simpl. rewrite String.eqb_refl. simpl.
  split; [|apply app_nil_r].
  clear G. induction l as [|x l IH]; simpl in *.
  - now rewrite String.eqb_refl.
  - destruct (String.eqb (id x) (id it)); [discriminate F|].
    apply IH; [tauto|exact F].
Qed.

(** C4.  When an enabled uploader with room for one more item adds one
    valid file, and the id it generates is not the id of an item already
    there, Remove of that id hands back the sequence as it was before the
    Add.  Over the two operations the object URL of the item is created
    once, released once and revoked in the browser once. *)
Theorem add_then_remove_round_trip (p : Props) (f : File) (w : World) :
  disabled_of p = false ->
  isValid (validationOf formatFileSize p f) = true ->
  (forall r, remainingSlotsOf p (Z.of_nat (List.length (images w))) = Some r ->
             1 <= r) ->
  ~ In (idAt host (idCalls w)) (map id (images w)) ->
  let newId := idAt host (idCalls w) in
  let url := host_createObjectURL host (urlCalls w) f in
  exists w1 w2,
    handleFileSelect formatFileSize host p [f] w = Ok tt w1 /\
    images w1 = (images w ++ [mkImageFile newId f url])%list /\
    handleDelete host p newId w1 = Ok tt w2 /\
    images w2 = images w /\
    acquires (since w w2) = [(f, url)] /\
    releases (since w w2) = [url] /\
    browserRevokes (since w w2) = [url].
Proof.
  intros D V C NI newId url.
  assert (Forall (fun g => isValid (validationOf formatFileSize p g) = true) [f])
    as V' by (constructor; [exact V|constructor]).
  destruct (validFilesOf_all formatFileSize p [f] V') as [VF EF].
  destruct (keptFiles_all formatFileSize p (List.length (images w)) [f] VF)
    as [K L].
  { intros r R. specialize (C r R). simpl. lia. }
  pose proof (handleFileSelect_enabled formatFileSize host p [f] w D) as A.
  rewrite (afterAdd_kept_all formatFileSize host p w [f] K L EF) in A.
  simpl in A. fold newId url in A.
  match type of A with _ = Ok tt ?x => set (w1 := x) in * end.
  destruct (find_filter_last (images w) (mkImageFile newId f url) NI) as [F G].
  change (id (mkImageFile newId f url)) with newId in F, G.
  change (images w ++ [mkImageFile newId f url])%list with (images w1) in F.
  assert (JsSet.has (generatedUrls w1) url = true) as H.
  { apply JsSet_has_In. subst w1. simpl. apply JsSet_add_In. now right. }
  destruct (handleDelete_found host p newId w1 (mkImageFile newId f url) F)
    as [t [rc [R [HR [HB [HC HA]]]]]].
  simpl preview in *. rewrite H in R, HB.
  change (images w1) with (images w ++ [mkImageFile newId f url])%list in R.
  rewrite G in R.
  exists w1. eexists. split; [exact A|]. split; [reflexivity|].
  split; [exact R|]. split; [reflexivity|].
  erewrite since_app
    by (simpl; rewrite <- !app_assoc; simpl; reflexivity).
  simpl. rewrite acquires_app, releases_app, browserRevokes_app, HR, HB, HA.
  simpl. auto.
Qed.

End RoundTrip.

(** ** Oversized files *)

Section Oversized.

Variable formatFileSize : Z -> string.
Variable host : Host.




Lemma limitErrors_no_file (p : Props) (n : nat) (files : list File) (e : ErrorPayload) :
  In e (limitErrors formatFileSize p n files) -> err_file e = None.
Proof.
  unfold limitErrors.
  destruct (validFilesOf formatFileSize p files); [intros []|].
  destruct (remainingSlotsOf p (Z.of_nat n)) as [r|]; [|intros []].
  destruct (r <=? 0); [intros [<-|[]]; reflexivity|].
  destruct (r <? _); [intros [<-|[]]; reflexivity|intros []].
Qed.


End Oversized.

(** ** Type matching (isAcceptedType) *)

Section TypeMatching.

Lemma endsWith_cons (c : ascii) (s suf : string) :
  Js.endsWith (String c s) suf
  = String.eqb (String c s) suf || Js.endsWith s suf.
Proof. reflexivity. Qed.

Lemma endsWith_iff (s suf : string) :
  Js.endsWith s suf = true <-> exists pre, s = pre ++ suf.
Proof.
  split.
  - induction s as [|c s IH]; intros H.
    + destruct suf; [now exists EmptyString|discriminate H].
    + rewrite endsWith_cons in H.
      apply orb_true_iff in H. destruct H as [H|H].
      * apply String.eqb_eq in H. subst. now exists EmptyString.
      * destruct (IH H) as [pre ->]. now exists (String c pre).
  - intros [pre ->]. induction pre as [|c pre IH].
    + destruct suf as [|c suf]; [reflexivity|].
      cbn [String.append]. rewrite endsWith_cons.
      now rewrite String.eqb_refl.
    + cbn [String.append]. rewrite endsWith_cons, IH. apply orb_true_r.
Qed.

Lemma split_head (sep : ascii) (t rest : string) :
  Js.includesChar sep t = false ->
  hd EmptyString (Js.split sep (t ++ String sep rest)) = t.
Proof.
  induction t as [|c t IH]; simpl; intros H.
  - now rewrite Ascii.eqb_refl.
  - apply orb_false_iff in H. destruct H as [H1 H2]. rewrite H1.
    specialize (IH H2).
    destruct (Js.split sep (t ++ String sep rest)); simpl in *; now subst.
Qed.

Lemma wildcard_not_universal (t : string) :
  Js.includesChar "/" t = false -> t <> "*" ->
  String.eqb (t ++ "/*") "*/*" = false.
Proof.
  intros S N. apply String.eqb_neq. intros E.
  destruct t as [|c [|d t]]; simpl in *.
  - discriminate E.
  - injection E as ->. now apply N.
  - injection E as -> -> _. discriminate S.
Qed.

(** What [matchesPattern] and [isAcceptedType] read of a file: its type
    and its name in lower case. *)
Lemma matchesPattern_ext (f g : File) (pattern : string) :
  file_type f = file_type g ->
  Js.toLowerCase (file_name f) = Js.toLowerCase (file_name g) ->
  matchesPattern f pattern = matchesPattern g pattern.
Proof. intros T N. unfold matchesPattern. now rewrite T, N. Qed.

(** C6.  The accept string "image/*" takes every file typed image/png and
    refuses every file typed application/pdf; ".png" takes every file
    named photo.PNG and refuses every file named photo.jpg.  A pattern
    list takes a file when one of its patterns does.  The four kinds of
    pattern: "*/*" takes every file; [t/*] takes the files whose type
    starts with [t/]; a pattern that starts with a dot takes the files
    whose name, in lower case, ends with it; any other pattern takes the
    files whose type is the pattern.  Patterns are lower-cased before they
    are used and only the lower-case form of the file name is read, so the
    extension is matched without regard to case. *)
Theorem isAcceptedType_patterns :
  (forall f, file_type f = "image/png" ->
             isAcceptedType f (Some "image/*") = true) /\
  (forall f, file_type f = "application/pdf" ->
             isAcceptedType f (Some "image/*") = false) /\
  (forall f, file_name f = "photo.PNG" ->
             isAcceptedType f (Some ".png") = true) /\
  (forall f, file_name f = "photo.jpg" ->
             isAcceptedType f (Some ".png") = false) /\
  (forall f a,
     String.eqb (Js.trim a) EmptyString = false ->
     String.eqb (Js.trim a) "image/*" = false ->
     isAcceptedType f (Some a)
     = existsb (matchesPattern f)
               (map (fun s => Js.toLowerCase (Js.trim s))
                    (Js.split "," (Js.trim a)))) /\
  (forall f, matchesPattern f "*/*" = true) /\
  (forall f t, Js.includesChar "/" t = false -> t <> "*" ->
               matchesPattern f (t ++ "/*")
               = Js.startsWith (file_type f) (t ++ "/")) /\
  (forall f ext, Js.endsWith (String "." ext) "/*" = false ->
                 matchesPattern f (String "." ext)
                 = Js.endsWith (Js.toLowerCase (file_name f)) (String "." ext)) /\
  (forall f pattern,
     String.eqb pattern "*/*" = false ->
     Js.endsWith pattern "/*" = false ->
     Js.startsWith pattern "." = false ->
     matchesPattern f pattern = String.eqb (file_type f) pattern) /\
  (forall f g a,
     file_type f = file_type g ->
     Js.toLowerCase (file_name f) = Js.toLowerCase (file_name g) ->
     isAcceptedType f a = isAcceptedType g a) /\
  (forall f, isAcceptedType f (Some ".PNG")
             = Js.endsWith (Js.toLowerCase (file_name f)) ".png").
Proof.
  repeat apply conj.
  - intros f T. unfold isAcceptedType. simpl. now rewrite T.
  - intros f T. unfold isAcceptedType. simpl. now rewrite T.
  - intros f N. unfold isAcceptedType, matchesPattern. simpl. now rewrite N.
  - intros f N. unfold isAcceptedType, matchesPattern. simpl. now rewrite N.
  - intros f a E I. unfold isAcceptedType. now rewrite E, I.
  - reflexivity.
  - intros f t S N. unfold matchesPattern.
    rewrite (wildcard_not_universal t S N).
    assert (Js.endsWith (t ++ "/*") "/*" = true) as ->
        by (apply endsWith_iff; now exists t).
    now rewrite (split_head "/" t "*" S).
  - intros f ext E. unfold matchesPattern. rewrite E.
    destruct ext; reflexivity.
  - intros f pattern U W D. unfold matchesPattern. now rewrite U, W, D.
  - intros f g [a|] T N; [|reflexivity]. unfold isAcceptedType.
    destruct (String.eqb (Js.trim a) EmptyString); [reflexivity|].
    destruct (String.eqb (Js.trim a) "image/*"); [now rewrite T|].
    induction (map _ _) as [|x l IH]; simpl; [reflexivity|].
    now rewrite IH, (matchesPattern_ext f g x T N).
  - intros f. unfold isAcceptedType, matchesPattern. simpl.
    now rewrite orb_false_r.
Qed.

End TypeMatching.

(** ** Move (handleDragEnd) *)

Section Move.

Lemma findIndex_spec {A} (p : A -> bool) (l : list A) :
  (findIndex p l = -1 /\ forall x, In x l -> p x = false) \/
  (exists x, 0 <= findIndex p l /\
             nth_error l (Z.to_nat (findIndex p l)) = Some x /\
             p x = true).
Proof.
  induction l as [|y l IH]; simpl.
  - left. split; [reflexivity|intros x []].
  - destruct (p y) eqn:Y.
    + right. exists y. simpl. auto with zarith.
    + destruct IH as [[E N]|[x [G [H P]]]].
      * left. rewrite E. simpl. split; [reflexivity|].
        intros x [<-|I]; auto.
      * right. exists x.
        assert ((findIndex p l <? 0) = false) as -> by (apply Z.ltb_ge; lia).
        split; [lia|]. split; [|exact P].
        replace (Z.to_nat (findIndex p l + 1)) with (S (Z.to_nat (findIndex p l)))
          by lia.
        exact H.
Qed.

Lemma findIndex_id_found (l : list ImageFile) (i : string) :
  In i (map id l) ->
  exists x, 0 <= findIndex (fun item => String.eqb (id item) i) l /\
            nth_error l (Z.to_nat (findIndex (fun item => String.eqb (id item) i) l))
            = Some x /\
            id x = i.
Proof.
  intros I.
  destruct (findIndex_spec (fun item => String.eqb (id item) i) l)
    as [[_ N]|[x [G [H P]]]].
  - apply in_map_iff in I. destruct I as [y [E Y]].
    specialize (N y Y). simpl in N. rewrite E, String.eqb_refl in N.
    discriminate.
  - exists x. apply String.eqb_eq in P. auto.
Qed.

Lemma findIndex_id_absent (l : list ImageFile) (i : string) :
  ~ In i (map id l) ->
  findIndex (fun item => String.eqb (id item) i) l = -1.
Proof.
  intros NI.
  destruct (findIndex_spec (fun item => String.eqb (id item) i) l)
    as [[E _]|[x [G [H P]]]]; [exact E|].
  exfalso. apply NI. apply String.eqb_eq in P. rewrite <- P.
  apply in_map. eapply nth_error_In. exact H.
Qed.

Lemma removeAt_length {A} (n : nat) (l : list A) :
  (n < List.length l)%nat ->
  S (List.length (removeAt n l)) = List.length l.
Proof.
  revert l. induction n as [|n IH]; intros [|x l] H; simpl in *; try lia.
  rewrite IH; lia.
Qed.

Lemma removeAt_Permutation {A} (n : nat) (l : list A) (x : A) :
  nth_error l n = Some x -> Permutation l (x :: removeAt n l).
Proof.
  revert l. induction n as [|n IH]; intros [|y l] H; simpl in *; try discriminate.
  - injection H as ->. apply Permutation_refl.
  - eapply perm_trans; [apply perm_skip, IH, H|apply perm_swap].
Qed.

Lemma insertAt_Permutation {A} (n : nat) (x : A) (l : list A) :
  Permutation (x :: l) (insertAt n x l).
Proof.
  revert l. induction n as [|n IH]; intros [|y l]; simpl;
    try apply Permutation_refl.
  eapply perm_trans; [apply perm_swap|apply perm_skip, IH].
Qed.

Lemma insertAt_nth {A} (n : nat) (x : A) (l : list A) :
  (n <= List.length l)%nat -> nth_error (insertAt n x l) n = Some x.
Proof.
  revert l. induction n as [|n IH]; intros [|y l] H; simpl in *;
    try reflexivity; try lia.
  apply IH. lia.
Qed.

Lemma removeAt_insertAt {A} (n : nat) (x : A) (l : list A) :
  (n <= List.length l)%nat -> removeAt n (insertAt n x l) = l.
Proof.
  revert l. induction n as [|n IH]; intros [|y l] H; simpl in *;
    try reflexivity; try lia.
  f_equal. apply IH. lia.
Qed.

(** Dropping an item on another one: both ids are ids of items. *)
Lemma handleDragEnd_moved (active o : string) (w : World) :
  active <> o ->
  In active (map id (images w)) -> In o (map id (images w)) ->
  let i := findIndex (fun item => String.eqb (id item) active) (images w) in
  let j := findIndex (fun item => String.eqb (id item) o) (images w) in
  exists src tgt,
    nth_error (images w) (Z.to_nat i) = Some src /\ id src = active /\
    nth_error (images w) (Z.to_nat j) = Some tgt /\ id tgt = o /\
    arrayMove (images w) i j
    = insertAt (Z.to_nat j) src (removeAt (Z.to_nat i) (images w)) /\
    (Z.to_nat j <= List.length (removeAt (Z.to_nat i) (images w)))%nat /\
    handleDragEnd active (Some o) w
    = Ok tt (log (EvOnImagesChange (arrayMove (images w) i j))
                 (set_images (arrayMove (images w) i j) w)).
Proof.
  intros NE IA IO i j.
  destruct (findIndex_id_found (images w) active IA) as [src [Gi [Hi Pi]]].
  destruct (findIndex_id_found (images w) o IO) as [tgt [Gj [Hj Pj]]].
  fold i in Gi, Hi. fold j in Gj, Hj.
  exists src, tgt. repeat split; try assumption.
  - unfold arrayMove. now rewrite Hi.
  - assert (Z.to_nat i < List.length (images w))%nat
      by (apply nth_error_Some; congruence).
    assert (Z.to_nat j < List.length (images w))%nat
      by (apply nth_error_Some; congruence).
    pose proof (removeAt_length (Z.to_nat i) (images w)). lia.
  - unfold handleDragEnd.
    assert (String.eqb active o = false) as -> by now apply String.eqb_neq.
    unfold bind, get. fold i j.
    assert (i <> j) as D.
    { intros E. rewrite E in Hi. rewrite Hi in Hj. congruence. }
    assert ((0 <=? i) = true) as -> by now apply Z.leb_le.
    assert ((0 <=? j) = true) as -> by now apply Z.leb_le.
    assert ((i =? j) = false) as -> by now apply Z.eqb_neq.
    reflexivity.
Qed.

(** Every other drop is ignored. *)
Lemma handleDragEnd_ignored (active : string) (over : option string) (w : World) :
  over = None \/ over = Some active \/
  ~ In active (map id (images w)) \/
  (exists o, over = Some o /\ ~ In o (map id (images w))) ->
  handleDragEnd active over w = Ok tt w.
Proof.
  intros H. unfold handleDragEnd.
  destruct over as [o|]; [|reflexivity].
  destruct (String.eqb active o) eqn:E; [reflexivity|].
  unfold bind, get.
  destruct H as [H|[H|[H|[o' [H N]]]]].
  - discriminate.
  - injection H as ->. now rewrite String.eqb_refl in E.
  - now rewrite (findIndex_id_absent (images w) active H).
  - injection H as <-. rewrite (findIndex_id_absent (images w) o N).
    now rewrite andb_false_r.
Qed.

(** C8.  A drop of the item [active] on the item [o], two different ids
    that both are ids of items, hands the owner the sequence in which the
    first item with id [active] has been taken out and put back at the
    index the first item with id [o] had: the new sequence is a
    permutation of the old one, so are its ids, the moved item stands at
    the index of the target, and with the moved item left out the two
    sequences are the same.  A drop on no target, on the item itself, or
    with an id that no item has, is ignored: the world stays as it is. *)
Theorem handleDragEnd_relocates (active : string) (over : option string) (w : World) :
  (forall o, over = Some o -> active <> o ->
     In active (map id (images w)) -> In o (map id (images w)) ->
     let i := Z.to_nat (findIndex (fun item => String.eqb (id item) active) (images w)) in
     let j := Z.to_nat (findIndex (fun item => String.eqb (id item) o) (images w)) in
     exists w' src tgt,
       handleDragEnd active over w = Ok tt w' /\
       nth_error (images w) i = Some src /\ id src = active /\
       nth_error (images w) j = Some tgt /\ id tgt = o /\
       nth_error (images w') j = Some src /\
       removeAt j (images w') = removeAt i (images w) /\
       Permutation (images w) (images w') /\
       Permutation (map id (images w)) (map id (images w')) /\
       changeCalls (since w w') = [images w']) /\
  (over = None \/ over = Some active \/
   ~ In active (map id (images w)) \/
   (exists o, over = Some o /\ ~ In o (map id (images w))) ->
   handleDragEnd active over w = Ok tt w).
Proof.
  split; [|apply handleDragEnd_ignored].
  intros o -> NE IA IO i j.
  destruct (handleDragEnd_moved active o w NE IA IO)
    as [src [tgt [Hi [Pi [Hj [Pj [AM [LE R]]]]]]]].
  fold i in Hi, AM, LE. fold j in Hj, AM, LE.
  rewrite AM in R.
  eexists _, src, tgt. split; [exact R|].
  unfold log, set_images. simpl images.
  repeat split; try assumption.
  - now apply insertAt_nth.
  - now apply removeAt_insertAt.
  - eapply perm_trans; [apply removeAt_Permutation, Hi|].
    apply insertAt_Permutation.
  - apply Permutation_map.
    eapply perm_trans; [apply removeAt_Permutation, Hi|].
    apply insertAt_Permutation.
  - erewrite since_app by (simpl; reflexivity). reflexivity.
Qed.

End Move.

(** ** The state change callback *)

Section Callback.

Variable formatFileSize : Z -> string.
Variable host : Host.

Lemma app_not_self {A} (l : list A) (x : A) (m : list A) :
  (l ++ x :: m)%list <> l.
Proof.
  intros E. apply (f_equal (@List.length A)) in E.
  rewrite length_app in E. simpl in E. lia.
Qed.

Lemma keptFiles_firstn (p : Props) (n : nat) (files : list File) :
  exists k, keptFiles formatFileSize p n files
            = firstn k (validFilesOf formatFileSize p files).
Proof.
  unfold keptFiles. destruct (remainingSlotsOf p (Z.of_nat n)) as [r|].
  - destruct (r <=? 0); [now exists 0%nat|now exists (Z.to_nat r)].
  - exists (List.length (validFilesOf formatFileSize p files)).
    now rewrite firstn_all.
Qed.

(** C9, as the code has it.  [onImagesChange] is always handed the whole
    new sequence, written out here from the sequence before the call: Add
    hands over the old sequence followed by the new items, Move the old
    sequence with the dragged item taken out and put back at the index of
    the target, Remove the items of the old sequence whose id differs from
    the one given.  Add calls it exactly when it appends something, and
    Move exactly when it relocates an item: once when the sequence
    changes, not at all when it does not.  Remove calls it once on every
    call; for an id that no item has it hands over the sequence as it
    was. *)
Theorem onImagesChange_calls (p : Props) (w : World) :
  (forall files,
     exists w' kept,
       handleFileSelect formatFileSize host p files w = Ok tt w' /\
       (exists k, kept = firstn k (validFilesOf formatFileSize p files)) /\
       let items := itemsFrom host (idCalls w) (urlCalls w) kept in
       images w' = (images w ++ items)%list /\
       changeCalls (since w w')
       = match kept with
         | [] => []
         | _ :: _ => [(images w ++ items)%list]
         end /\
       (kept <> [] <-> images w' <> images w) /\
       (images w' <> images w -> changeCalls (since w w') = [images w']) /\
       (images w' = images w -> changeCalls (since w w') = [])) /\
  (forall active over,
     exists w',
       handleDragEnd active over w = Ok tt w' /\
       ((images w' = images w /\ changeCalls (since w w') = []) \/
        (exists o,
           over = Some o /\
           let moved :=
             arrayMove (images w)
               (findIndex (fun item => String.eqb (id item) active) (images w))
               (findIndex (fun item => String.eqb (id item) o) (images w)) in
           moved <> images w /\
           Permutation (images w) moved /\
           images w' = moved /\
           changeCalls (since w w') = [moved])) /\
       (images w' <> images w -> changeCalls (since w w') = [images w']) /\
       (images w' = images w -> changeCalls (since w w') = [])) /\
  (forall i,
     exists w',
       handleDelete host p i w = Ok tt w' /\
       changeCalls (since w w')
       = [filter (fun img => negb (String.eqb (id img) i)) (images w)] /\
       changeCalls (since w w') = [images w'] /\
       images w' = filter (fun img => negb (String.eqb (id img) i)) (images w) /\
       (~ In i (map id (images w)) -> images w' = images w)).
Proof.
  split; [|split].
  - intros files. destruct (disabled_of p) eqn:D.
    + exists w, []. split; [now apply handleFileSelect_disabled|].
      split; [now exists 0%nat|]. simpl. rewrite since_refl, app_nil_r.
      split; [reflexivity|]. split; [reflexivity|].
      split; [split; intros H; now contradiction H|].
      split; [congruence|reflexivity].
    + exists (afterAdd formatFileSize host p w files),
        (keptFiles formatFileSize p (List.length (images w)) files).
      split; [now apply handleFileSelect_enabled|].
      split; [apply keptFiles_firstn|].
      rewrite afterAdd_changeCalls. unfold afterAdd, itemsOf, keptOf. simpl images.
      destruct (keptFiles formatFileSize p _ files) as [|k ks]; simpl.
      * rewrite app_nil_r. split; [reflexivity|]. split; [reflexivity|].
        split; [split; intros H; now contradiction H|].
        split; [congruence|reflexivity].
      * split; [reflexivity|]. split; [reflexivity|].
        split; [split; [intros _; apply app_not_self|discriminate]|].
        split; [reflexivity|]. intros E. now apply app_not_self in E.
  - intros active over.
    assert (handleDragEnd active over w = Ok tt w ->
            exists w', handleDragEnd active over w = Ok tt w' /\
              ((images w' = images w /\ changeCalls (since w w') = []) \/
               (exists o,
                  over = Some o /\
                  let moved :=
                    arrayMove (images w)
                      (findIndex (fun item => String.eqb (id item) active) (images w))
                      (findIndex (fun item => String.eqb (id item) o) (images w)) in
                  moved <> images w /\
                  Permutation (images w) moved /\
                  images w' = moved /\
                  changeCalls (since w w') = [moved])) /\
              (images w' <> images w -> changeCalls (since w w') = [images w']) /\
              (images w' = images w -> changeCalls (since w w') = [])) as Ign.
    { intros R. exists w. split; [exact R|]. rewrite since_refl.
      split; [left; auto|]. split; [congruence|reflexivity]. }
    destruct over as [o|]; [|apply Ign, handleDragEnd_ignored; auto].
    destruct (string_dec active o) as [->|NE];
      [apply Ign, handleDragEnd_ignored; auto|].
    destruct (in_dec string_dec active (map id (images w))) as [IA|NA];
      [|apply Ign, handleDragEnd_ignored; auto].
    destruct (in_dec string_dec o (map id (images w))) as [IO|NO];
      [|apply Ign, handleDragEnd_ignored; right; right; right; eauto].
    destruct (handleDragEnd_moved active o w NE IA IO)
      as [src [tgt [Hi [Pi [Hj [Pj [AM [LE R]]]]]]]].
    assert (arrayMove (images w)
              (findIndex (fun item => String.eqb (id item) active) (images w))
              (findIndex (fun item => String.eqb (id item) o) (images w))
            <> images w) as Changed.
    { intros E. rewrite AM in E. apply (f_equal (fun l => nth_error l
        (Z.to_nat (findIndex (fun item => String.eqb (id item) o) (images w))))) in E.
      rewrite (insertAt_nth _ src _ LE), Hj in E. congruence. }
    eexists. split; [exact R|]. unfold log, set_images. simpl images.
    erewrite since_app by (simpl; reflexivity).
    split; [|split; [reflexivity|intros E; now contradiction Changed]].
    right. exists o. split; [reflexivity|]. cbv zeta.
    split; [exact Changed|]. split; [|split; reflexivity].
    rewrite AM.
    eapply perm_trans; [apply removeAt_Permutation, Hi|].
    apply insertAt_Permutation.
  - intros i.
    destruct (find (fun x => String.eqb (id x) i) (images w)) as [img|] eqn:F.
    + destruct (handleDelete_found host p i w img F) as [t [rc [R [_ [_ [HC _]]]]]].
      eexists. split; [exact R|]. simpl images.
      erewrite since_app by (simpl; reflexivity).
      rewrite changeCalls_app, HC. simpl. repeat split.
      intros NI. now apply find_filter_absent.
    + unfold handleDelete, bind, get. rewrite F. unfold ret.
      unfold onImagesChange, modify, log, set_images. simpl.
      eexists. split; [reflexivity|]. simpl images.
      erewrite since_app by (simpl; reflexivity). repeat split.
      intros NI. now apply find_filter_absent.
Qed.

End Callback.

(** ** The size check of validateFile *)

Section SizeCheck.

Variable formatFileSize : Z -> string.
Variable host : Host.

(** C10.  [validateFile] answers [FILE_TOO_LARGE] only when it is handed a
    [maxFileSize] other than 0 that the size of the file exceeds.  Handed
    no [maxFileSize], or 0, it accepts every file of an accepted type,
    whatever its size.  An uploader whose [maxFileSize] is 0 keeps such a
    file among the valid files of every batch and reports no error for
    it; when it is enabled and has room it appends the file. *)
Theorem validateFile_zero_is_unlimited (f : File) :
  (forall options e,
     error (validateFile formatFileSize f options) = Some e ->
     code e = FILE_TOO_LARGE ->
     exists m, opt_maxFileSize options = Some m /\ m <> 0 /\ m < file_size f) /\
  (forall options,
     opt_maxFileSize options = None \/ opt_maxFileSize options = Some 0 ->
     isAcceptedType f (opt_acceptedFileTypes options) = true ->
     validateFile formatFileSize f options = mkValidation true None) /\
  (forall p,
     maxFileSize p = Some 0 ->
     isAcceptedType f (Some (acceptedFileTypes_of p)) = true ->
     (forall files, In f files -> In f (validFilesOf formatFileSize p files)) /\
     (forall files e, In e (errorsOf formatFileSize p files) -> err_file e <> Some f) /\
     (forall w,
        disabled_of p = false ->
        (forall r, remainingSlotsOf p (Z.of_nat (List.length (images w))) = Some r ->
                   1 <= r) ->
        exists w',
          handleFileSelect formatFileSize host p [f] w = Ok tt w' /\
          images w' = (images w ++
                       [mkImageFile (idAt host (idCalls w)) f
                          (host_createObjectURL host (urlCalls w) f)])%list /\
          sinkCalls (since w w') = [])).
Proof.
  split; [|split].
  - intros options e. unfold validateFile.
    destruct (opt_maxFileSize options) as [m|]; simpl.
    + destruct (negb (m =? 0) && (m <? file_size f)) eqn:T.
      * intros _ _. apply andb_true_iff in T. destruct T as [T1 T2].
        apply negb_true_iff, Z.eqb_neq in T1. apply Z.ltb_lt in T2.
        exists m. auto.
      * destruct (isAcceptedType f (opt_acceptedFileTypes options)); simpl.
        -- discriminate.
        -- intros [= <-]. discriminate.
    + destruct (isAcceptedType f (opt_acceptedFileTypes options)); simpl.
      * discriminate.
      * intros [= <-]. discriminate.
  - intros options M A. unfold validateFile.
    destruct M as [-> | ->]; simpl; now rewrite A.
  - intros p M A.
    assert (isValid (validationOf formatFileSize p f) = true) as V.
    { rewrite validationOf_isValid, A. unfold tooLarge, maxFileSize_of.
      rewrite M. reflexivity. }
    split; [|split].
    + intros files I. unfold validFilesOf. apply filter_In. auto.
    + intros files e I E.
      destruct (errorsOf_In formatFileSize p files e I) as [g [_ G]].
      destruct (validationOf_error_code formatFileSize p g e G) as [G' _].
      assert (g = f) as -> by congruence.
      unfold validationOf, validateFile in G, V.
      destruct (truthy _ && _); [discriminate V|].
      destruct (negb _); [discriminate V|discriminate G].
    + intros w D C.
      assert (Forall (fun g => isValid (validationOf formatFileSize p g) = true) [f])
        as V' by (constructor; [exact V|constructor]).
      destruct (validFilesOf_all formatFileSize p [f] V') as [VF EF].
      destruct (keptFiles_all formatFileSize p (List.length (images w)) [f] VF)
        as [K L].
      { intros r R. specialize (C r R). simpl. lia. }
      eexists. split; [now apply handleFileSelect_enabled|].
      rewrite afterAdd_sinkCalls, EF, L.
      rewrite (afterAdd_kept_all formatFileSize host p w [f] K L EF).
      simpl. split; [reflexivity|now destruct (onError p)].
Qed.

End SizeCheck.

(* ------------------------------------------------------------------ *)
(** * The statements at concrete inputs                                 *)
(* ------------------------------------------------------------------ *)

(** Two accepted files added to a sequence of three, with a ceiling of five. *)
Lemma handleFileSelect_appends_valid_batch_witness :
  exists w',
    handleFileSelect Demo.fmt Demo.host (Demo.limit 5) [Demo.png; Demo.png2] Demo.three
    = Ok tt w' /\
    images w'
    = [Demo.item0; Demo.item1; Demo.item2;
       mkImageFile "uuid-3" Demo.png "blob:3";
       mkImageFile "uuid-4" Demo.png2 "blob:4"].
Proof.
  destruct (handleFileSelect_appends_valid_batch Demo.fmt Demo.host
              (Demo.limit 5) [Demo.png; Demo.png2] Demo.three) as [w' [R [I _]]].
  - reflexivity.
  - repeat constructor; discriminate.
  - intros r E. vm_compute in E. injection E as <-. discriminate.
  - exists w'. split; [exact R|]. rewrite I. reflexivity.
Defined.

(** A ceiling of two, one item, three accepted files and one refused. *)
Lemma handleFileSelect_enforces_maxFiles_witness :
  exists w',
    handleFileSelect Demo.fmt Demo.host (Demo.limit 2)
                     [Demo.png; Demo.pdf; Demo.png2; Demo.png3] Demo.foreign
    = Ok tt w' /\
    images w' = [Demo.item0; mkImageFile "uuid-0" Demo.png "blob:0"] /\
    map message
        (filter (hasCode MAX_FILES_EXCEEDED) (sinkCalls (since Demo.foreign w')))
    = ["Only 1 of 3 files were added due to limit of 2."].
Proof.
  destruct (handleFileSelect_enforces_maxFiles Demo.fmt Demo.host
              (Demo.limit 2) [Demo.png; Demo.pdf; Demo.png2; Demo.png3]
              Demo.foreign eq_refl eq_refl) as [w' [R [T _]]].
  destruct (T 2 eq_refl) as [_ [_ K]].
  - discriminate.
  - discriminate.
  - destruct (K Demo.png Demo.png2 Demo.png3 eq_refl eq_refl) as [I L].
    exists w'. split; [exact R|]. split; [exact I|].
    rewrite L. reflexivity.
Defined.

(** The ceiling 0 is no ceiling, and a batch without an accepted file never
    meets the ceiling. *)
Lemma handleFileSelect_maxFiles_counterexample :
  (let w' := finalWorld (handleFileSelect Demo.fmt Demo.host (Demo.limit 0)
                                          [Demo.png] emptyWorld) in
   images emptyWorld = [] /\
   images w' = [mkImageFile "uuid-0" Demo.png "blob:0"] /\
   sinkCalls (trace w') = []) /\
  (let w' := finalWorld (handleFileSelect Demo.fmt Demo.host (Demo.limit 1)
                                          [Demo.huge] Demo.foreign) in
   List.length (images Demo.foreign) = 1%nat /\
   map code (sinkCalls (trace w')) = [FILE_TOO_LARGE] /\
   filter (hasCode MAX_FILES_EXCEEDED) (sinkCalls (trace w')) = []).
Proof. vm_compute. repeat split. Qed.

(** The middle one of three items is removed. *)
Lemma handleDelete_removes_item_witness :
  exists w' l1 l2,
    handleDelete Demo.host Demo.defaults (id Demo.item1) Demo.three = Ok tt w' /\
    images Demo.three = (l1 ++ Demo.item1 :: l2)%list /\
    images w' = (l1 ++ l2)%list /\
    releases (since Demo.three w') = [preview Demo.item1] /\
    browserRevokes (since Demo.three w')
    = (if JsSet.has (generatedUrls Demo.three) (preview Demo.item1)
       then [preview Demo.item1] else []) /\
    JsSet.has (generatedUrls w') (preview Demo.item1) = false.
Proof.
  apply (proj1 (handleDelete_removes_item Demo.host Demo.defaults Demo.three)).
  - simpl. repeat constructor; simpl; intuition discriminate.
  - simpl. auto.
Defined.

(** One file added to three items and removed again. *)
Lemma add_then_remove_round_trip_witness :
  exists w1 w2,
    handleFileSelect Demo.fmt Demo.host (Demo.limit 5) [Demo.png] Demo.three
    = Ok tt w1 /\
    images w1 = (images Demo.three ++ [mkImageFile "uuid-3" Demo.png "blob:3"])%list /\
    handleDelete Demo.host (Demo.limit 5) "uuid-3" w1 = Ok tt w2 /\
    images w2 = images Demo.three /\
    acquires (since Demo.three w2) = [(Demo.png, "blob:3")] /\
    releases (since Demo.three w2) = ["blob:3"] /\
    browserRevokes (since Demo.three w2) = ["blob:3"].
Proof.
  apply (add_then_remove_round_trip Demo.fmt Demo.host (Demo.limit 5)
                                    Demo.png Demo.three).
  - reflexivity.
  - reflexivity.
  - intros r E. vm_compute in E. injection E as <-. discriminate.
  - simpl. intuition discriminate.
Defined.


(** A file typed image/png under "image/*". *)
Lemma isAcceptedType_patterns_witness :
  isAcceptedType (mkFile "scan.bin" "image/png" 1) (Some "image/*") = true /\
  isAcceptedType Demo.photoPNG (Some ".png") = true /\
  isAcceptedType Demo.photoJpg (Some ".png") = false /\
  isAcceptedType Demo.pdf (Some "image/*") = false.
Proof.
  destruct isAcceptedType_patterns as [A [B [C [D _]]]].
  exact (conj (A (mkFile "scan.bin" "image/png" 1) eq_refl)
              (conj (C Demo.photoPNG eq_refl)
                    (conj (D Demo.photoJpg eq_refl) (B Demo.pdf eq_refl)))).
Defined.

(** A release in a browser whose revocation throws. *)
Lemma revokeObjectURL_never_throws_witness :
  let sink := Some (fun _ : JsError =>
                      callOnError Demo.defaults
                        (mkError UNKNOWN "Failed to clean up image preview" None)) in
  returns (safeRevokeObjectURL Demo.failingHost "blob:x" sink Demo.three) = true /\
  returns (revokeObjectURL Demo.failingHost "blob:x" sink Demo.three) = true.
Proof.
  intros sink.
  destruct (revokeObjectURL_never_throws Demo.failingHost "blob:x" sink Demo.three)
    as [S [R _]].
  - intros k E e w0. injection E as <-. reflexivity.
  - exact (conj S R).
Defined.

(** The first of three items dropped on the last. *)
Lemma handleDragEnd_relocates_witness :
  exists w',
    handleDragEnd "x" (Some "z") Demo.three = Ok tt w' /\
    Permutation (images Demo.three) (images w') /\
    nth_error (images w') 2 = Some Demo.item0.
Proof.
  destruct (proj1 (handleDragEnd_relocates "x" (Some "z") Demo.three) "z" eq_refl)
    as [w' [src [tgt [R [Hs [_ [_ [_ [N [_ [P _]]]]]]]]]]].
  - discriminate.
  - simpl. auto.
  - simpl. auto.
  - exists w'. split; [exact R|]. split; [exact P|].
    vm_compute in Hs. injection Hs as <-. exact N.
Defined.

(** Remove of an id that no item has, and a drop of the first item on the
    last. *)
Lemma onImagesChange_calls_witness :
  (exists w',
     handleDelete Demo.host Demo.defaults "nope" Demo.three = Ok tt w' /\
     changeCalls (since Demo.three w') = [images Demo.three]) /\
  (exists w',
     handleDragEnd "x" (Some "z") Demo.three = Ok tt w' /\
     (images w' <> images Demo.three ->
      changeCalls (since Demo.three w') = [images w'])).
Proof.
  destruct (onImagesChange_calls Demo.fmt Demo.host Demo.defaults Demo.three)
    as [_ [Mv Rm]].
  split.
  - destruct (Rm "nope") as [w' [R [_ [C [_ U]]]]].
    exists w'. split; [exact R|].
    rewrite C. f_equal. apply U.
    simpl. intros [H|[H|[H|[]]]]; discriminate H.
  - destruct (Mv "x" (Some "z")) as [w' [R [_ [C _]]]].
    exists w'. exact (conj R C).
Defined.

(** Remove of an unknown id calls [onImagesChange] although nothing changed. *)
Lemma onImagesChange_unknown_id_counterexample :
  let w' := finalWorld (handleDelete Demo.host Demo.defaults "nope" Demo.three) in
  ~ In "nope" (map id (images Demo.three)) /\
  images w' = images Demo.three /\
  changeCalls (since Demo.three w') = [images Demo.three].
Proof.
  cbv zeta. split; [simpl; intuition discriminate|].
  vm_compute. split; reflexivity.
Qed.

(** Twenty megabytes pass when no bound is handed to [validateFile]. *)
Lemma validateFile_zero_is_unlimited_witness :
  validateFile Demo.fmt Demo.huge (mkOptions None (Some "image/*"))
  = mkValidation true None /\
  validateFile Demo.fmt Demo.huge (mkOptions (Some 0) (Some "image/*"))
  = mkValidation true None.
Proof.
  destruct (validateFile_zero_is_unlimited Demo.fmt Demo.host Demo.huge)
    as [_ [U _]].
  split; apply U; simpl; auto.
Defined.

(** The uploader itself replaces a missing [maxFileSize] by ten megabytes
    before it validates. *)
Example default_bound_applies :
  maxFileSize_of Demo.defaults = 10485760 /\
  isValid (validationOf Demo.fmt Demo.defaults Demo.huge) = false /\
  isValid (validationOf Demo.fmt Demo.unlimitedSize Demo.huge) = true.
Proof. vm_compute. repeat split. Qed.

(** A disabled uploader ignores the batch it is handed. *)
Example disabled_ignores_batch :
  handleFileSelect Demo.fmt Demo.host Demo.disabledProps [Demo.png; Demo.huge]
                   Demo.three
  = Ok tt Demo.three.
Proof. reflexivity. Qed.

(* ------------------------------------------------------------------ *)
(** * Further properties of the code                                    *)
(* ------------------------------------------------------------------ *)

(** ** truncateFilename *)

Lemma string_length_app (a b : string) :
  String.length (a ++ b) = (String.length a + String.length b)%nat.
Proof. induction a as [|c a IH]; simpl; [reflexivity|now rewrite IH]. Qed.

Lemma substring_0_length (n : nat) (s : string) :
  String.length (substring 0 n s) = Nat.min n (String.length s).
Proof.
  revert s. induction n as [|n IH]; intros [|c s]; simpl; try reflexivity.
  now rewrite IH.
Qed.

Lemma substring_0_prefix (n : nat) (s : string) :
  exists rest, s = substring 0 n s ++ rest.
Proof.
  revert s. induction n as [|n IH]; intros [|c s]; simpl.
  - now exists EmptyString.
  - now exists (String c s).
  - now exists EmptyString.
  - destruct (IH s) as [rest E]. exists rest. now rewrite <- E.
Qed.

Lemma truncateFilename_long (name : string) (maxLength : Z) :
  3 <= maxLength -> maxLength < Z.of_nat (String.length name) ->
  truncateFilename name maxLength
  = substring 0 (Z.to_nat (maxLength - 3)) name ++ "...".
Proof.
  intros M L. unfold truncateFilename, slice0.
  assert (String.eqb name EmptyString = false) as ->.
  { apply String.eqb_neq. intros ->. simpl in L. lia. }
  assert ((Z.of_nat (String.length name) <=? maxLength) = false) as ->
      by (apply Z.leb_gt; lia).
  assert ((maxLength - 3 <? 0) = false) as -> by (apply Z.ltb_ge; lia).
  simpl. now rewrite Z.min_l by lia.
Qed.

Lemma truncateFilename_short (name : string) (maxLength : Z) :
  Z.of_nat (String.length name) <= maxLength ->
  truncateFilename name maxLength = name.
Proof.
  intros F. unfold truncateFilename.
  assert ((Z.of_nat (String.length name) <=? maxLength) = true) as ->
      by now apply Z.leb_le.
  now rewrite orb_true_r.
Qed.

Lemma truncateFilename_bound (name : string) (maxLength : Z) :
  3 <= maxLength ->
  Z.of_nat (String.length (truncateFilename name maxLength)) <= maxLength.
Proof.
  intros M.
  destruct (Z.le_gt_cases (Z.of_nat (String.length name)) maxLength) as [F|L].
  - now rewrite truncateFilename_short.
  - rewrite (truncateFilename_long name maxLength M L).
    rewrite string_length_app, substring_0_length. simpl. lia.
Qed.

(** X1.  With room for the ellipsis ([maxLength] at least 3) the label is
    never longer than [maxLength], and a name that fits, or the empty name,
    comes back as it is.  With the default, which every caller uses, the
    label has at most 40 characters. *)
Theorem truncateFilename_fits (name : string) (maxLength : Z) :
  (3 <= maxLength ->
   Z.of_nat (String.length (truncateFilename name maxLength)) <= maxLength) /\
  (Z.of_nat (String.length name) <= maxLength ->
   truncateFilename name maxLength = name) /\
  truncateFilename EmptyString maxLength = EmptyString /\
  Z.of_nat (String.length (truncateFilename name DEFAULT_FILENAME_TRUNCATE_LENGTH))
  <= 40.
Proof.
  split; [apply truncateFilename_bound|].
  split; [apply truncateFilename_short|].
  split; [reflexivity|].
  apply truncateFilename_bound. unfold DEFAULT_FILENAME_TRUNCATE_LENGTH. lia.
Qed.

(** X2.  A name longer than [maxLength] (at least 3) is cut to its first
    [maxLength - 3] characters followed by three dots, which makes exactly
    [maxLength] characters; truncating the result again changes nothing. *)
Theorem truncateFilename_ellipsis (name : string) (maxLength : Z) :
  3 <= maxLength ->
  (maxLength < Z.of_nat (String.length name) ->
   exists kept dropped,
     name = kept ++ dropped /\
     Z.of_nat (String.length kept) = maxLength - 3 /\
     truncateFilename name maxLength = kept ++ "..." /\
     Z.of_nat (String.length (truncateFilename name maxLength)) = maxLength) /\
  truncateFilename (truncateFilename name maxLength) maxLength
  = truncateFilename name maxLength.
Proof.
  intros M. split.
  - intros L.
    destruct (substring_0_prefix (Z.to_nat (maxLength - 3)) name) as [rest E].
    exists (substring 0 (Z.to_nat (maxLength - 3)) name), rest.
    rewrite (truncateFilename_long name maxLength M L).
    rewrite string_length_app, substring_0_length. simpl.
    repeat split; [exact E|lia|lia].
  - apply truncateFilename_short. now apply truncateFilename_bound.
Qed.

(** ** What one handler call changes *)

Section Summaries.

Variable formatFileSize : Z -> string.
Variable host : Host.

Lemma browserRevokes_sinkEvents (p : Props) (es : list ErrorPayload) :
  browserRevokes (sinkEvents p es) = [].
Proof.
  unfold sinkEvents. destruct (onError p); [|reflexivity].
  induction es; simpl; auto.
Qed.

Lemma releases_sinkEvents (p : Props) (es : list ErrorPayload) :
  releases (sinkEvents p es) = [].
Proof.
  unfold sinkEvents. destruct (onError p); [|reflexivity].
  induction es; simpl; auto.
Qed.

Lemma browserRevokes_createEvents (items : list ImageFile) :
  browserRevokes (createEvents items) = [].
Proof. induction items; simpl; auto. Qed.

Lemma releases_createEvents (items : list ImageFile) :
  releases (createEvents items) = [].
Proof. induction items; simpl; auto. Qed.

(** Add, enabled or not. *)
Lemma handleFileSelect_summary (p : Props) (files : list File) (w : World) :
  exists w' kept t,
    handleFileSelect formatFileSize host p files w = Ok tt w' /\
    (exists k, kept = firstn k (validFilesOf formatFileSize p files)) /\
    (disabled_of p = false ->
     kept = keptFiles formatFileSize p (List.length (images w)) files) /\
    images w' = (images w ++ itemsFrom host (idCalls w) (urlCalls w) kept)%list /\
    generatedUrls w'
    = fold_left JsSet.add
        (map preview (itemsFrom host (idCalls w) (urlCalls w) kept))
        (generatedUrls w) /\
    idCalls w' = (idCalls w + List.length kept)%nat /\
    urlCalls w' = (urlCalls w + List.length kept)%nat /\
    revokeCalls w' = revokeCalls w /\
    trace w' = (trace w ++ t)%list /\
    acquires t = map (fun it => (file it, preview it))
                     (itemsFrom host (idCalls w) (urlCalls w) kept) /\
    browserRevokes t = [] /\
    releases t = [].
Proof.
  destruct (disabled_of p) eqn:D.
  - exists w, [], []. rewrite (handleFileSelect_disabled _ _ _ _ _ D). simpl.
    rewrite !app_nil_r, !Nat.add_0_r.
    repeat split; try discriminate. now exists 0%nat.
  - exists (afterAdd formatFileSize host p w files),
      (keptFiles formatFileSize p (List.length (images w)) files),
      (addEvents formatFileSize host p w files).
    split; [now apply handleFileSelect_enabled|].
    split; [apply keptFiles_firstn|].
    unfold afterAdd. simpl. repeat split.
    + pose proof (afterAdd_acquires formatFileSize host p w files) as A.
      now rewrite afterAdd_since in A.
    + unfold addEvents.
      rewrite !browserRevokes_app, !browserRevokes_sinkEvents,
        browserRevokes_createEvents.
      now destruct (keptFiles _ _ _ _).
    + unfold addEvents.
      rewrite !releases_app, !releases_sinkEvents, releases_createEvents.
      now destruct (keptFiles _ _ _ _).
Qed.

(** Remove. *)
Lemma handleDelete_summary (p : Props) (i : string) (w : World) :
  exists w' t,
    handleDelete host p i w = Ok tt w' /\
    images w' = filter (fun x => negb (String.eqb (id x) i)) (images w) /\
    idCalls w' = idCalls w /\ urlCalls w' = urlCalls w /\
    trace w' = (trace w ++ t)%list /\
    acquires t = [] /\
    match find (fun x => String.eqb (id x) i) (images w) with
    | Some img =>
        releases t = [preview img] /\
        browserRevokes t
        = (if JsSet.has (generatedUrls w) (preview img) then [preview img] else []) /\
        generatedUrls w'
        = (if JsSet.has (generatedUrls w) (preview img)
           then JsSet.delete (generatedUrls w) (preview img)
           else generatedUrls w)
    | None =>
        releases t = [] /\ browserRevokes t = [] /\
        generatedUrls w' = generatedUrls w
    end.
Proof.
  destruct (find (fun x => String.eqb (id x) i) (images w)) as [img|] eqn:F.
  - destruct (handleDelete_found host p i w img F)
      as [t [rc [R [HR [HB [HC HA]]]]]].
    eexists _, _. split; [exact R|]. simpl.
    repeat split; try reflexivity.
    + rewrite acquires_app, HA. reflexivity.
    + rewrite releases_app, HR. reflexivity.
    + rewrite browserRevokes_app, HB. simpl. now rewrite app_nil_r.
  - unfold handleDelete, bind, get. rewrite F. unfold ret.
    unfold onImagesChange, modify, log, set_images. simpl.
    eexists _, _. split; [reflexivity|]. simpl. repeat split; reflexivity.
Qed.

(** Move. *)
Lemma handleDragEnd_summary (active : string) (over : option string) (w : World) :
  exists w' t,
    handleDragEnd active over w = Ok tt w' /\
    Permutation (images w) (images w') /\
    generatedUrls w' = generatedUrls w /\
    idCalls w' = idCalls w /\ urlCalls w' = urlCalls w /\
    revokeCalls w' = revokeCalls w /\
    trace w' = (trace w ++ t)%list /\
    acquires t = [] /\ browserRevokes t = [] /\ releases t = [] /\
    sinkCalls t = [].
Proof.
  assert (handleDragEnd active over w = Ok tt w ->
          exists w' t,
            handleDragEnd active over w = Ok tt w' /\
            Permutation (images w) (images w') /\
            generatedUrls w' = generatedUrls w /\
            idCalls w' = idCalls w /\ urlCalls w' = urlCalls w /\
            revokeCalls w' = revokeCalls w /\
            trace w' = (trace w ++ t)%list /\
            acquires t = [] /\ browserRevokes t = [] /\ releases t = [] /\
            sinkCalls t = []) as Ign.
  { intros R. exists w, []. rewrite app_nil_r. repeat split; auto. }
  destruct over as [o|]; [|apply Ign, handleDragEnd_ignored; auto].
  destruct (string_dec active o) as [->|NE];
    [apply Ign, handleDragEnd_ignored; auto|].
  destruct (in_dec string_dec active (map id (images w))) as [IA|NA];
    [|apply Ign, handleDragEnd_ignored; auto].
  destruct (in_dec string_dec o (map id (images w))) as [IO|NO];
    [|apply Ign, handleDragEnd_ignored; right; right; right; eauto].
  destruct (handleDragEnd_moved active o w NE IA IO)
    as [src [tgt [Hi [Pi [Hj [Pj [AM [LE R]]]]]]]].
  eexists _, _. split; [exact R|]. unfold log, set_images. simpl.
  repeat split; try reflexivity.
  rewrite AM.
  eapply perm_trans; [apply removeAt_Permutation, Hi|].
  apply insertAt_Permutation.
Qed.

End Summaries.

(** ** More about Add *)

Section MoreAdd.

Variable formatFileSize : Z -> string.
Variable host : Host.

Lemma validationOf_invalid (p : Props) (f : File) :
  isValid (validationOf formatFileSize p f) = false ->
  exists e, error (validationOf formatFileSize p f) = Some e /\
            err_file e = Some f /\
            (code e = FILE_TOO_LARGE \/ code e = INVALID_TYPE).
Proof.
  unfold validationOf, validateFile.
  destruct (truthy _ && _); simpl.
  - intros _. eexists. split; [reflexivity|]. simpl. auto.
  - destruct (negb _); simpl; [|discriminate].
    intros _. eexists. split; [reflexivity|]. simpl. auto.
Qed.

Lemma firstn_incl_valid (p : Props) (k : nat) (files : list File) (f : File) :
  In f (firstn k (validFilesOf formatFileSize p files)) ->
  In f files /\ isValid (validationOf formatFileSize p f) = true.
Proof. intros I. apply In_firstn in I. now apply validFilesOf_In in I. Qed.

(** X3.  Whatever the configuration and the batch, Add only appends: the
    items that were there stay, in their order, at the front.  The files of
    the new items are an initial part of the accepted files of the batch, in
    the order of the batch, so every one of them is a file of the batch that
    passes validation: not over the bound and of an accepted type. *)
Theorem handleFileSelect_only_appends (p : Props) (files : list File) (w : World) :
  exists w' items,
    handleFileSelect formatFileSize host p files w = Ok tt w' /\
    images w' = (images w ++ items)%list /\
    (exists k, map file items = firstn k (validFilesOf formatFileSize p files)) /\
    (forall it, In it items ->
       In (file it) files /\
       tooLarge p (file it) = false /\
       isAcceptedType (file it) (Some (acceptedFileTypes_of p)) = true).
Proof.
  destruct (handleFileSelect_summary formatFileSize host p files w)
    as [w' [kept [t [R [[k K] [_ [I _]]]]]]].
  exists w', (itemsFrom host (idCalls w) (urlCalls w) kept).
  split; [exact R|]. split; [exact I|]. rewrite itemsFrom_files. split.
  - now exists k.
  - intros it H.
    assert (In (file it) kept) as F.
    { rewrite <- (itemsFrom_files host (idCalls w) (urlCalls w) kept).
      now apply in_map. }
    rewrite K in F. apply firstn_incl_valid in F. destruct F as [F V].
    rewrite validationOf_isValid in V. apply andb_true_iff in V.
    destruct V as [V1 V2]. apply negb_true_iff in V1. auto.
Qed.

(** X4.  Validation splits a batch in two: every file is either accepted or
    answered by exactly one error that carries it, with the code
    [FILE_TOO_LARGE] or [INVALID_TYPE]; the errors come in the order of the
    batch.  An enabled uploader with an error callback reports these errors
    first and then at most one [MAX_FILES_EXCEEDED] error, which carries no
    file. *)
Theorem handleFileSelect_partition (p : Props) (files : list File) (w : World) :
  (List.length (validFilesOf formatFileSize p files)
   + List.length (errorsOf formatFileSize p files))%nat = List.length files /\
  map err_file (errorsOf formatFileSize p files)
  = map Some (filter (fun f => negb (isValid (validationOf formatFileSize p f)))
                     files) /\
  (forall e, In e (errorsOf formatFileSize p files) ->
             code e = FILE_TOO_LARGE \/ code e = INVALID_TYPE) /\
  (disabled_of p = false -> onError p = true ->
   exists w' limit,
     handleFileSelect formatFileSize host p files w = Ok tt w' /\
     sinkCalls (since w w') = (errorsOf formatFileSize p files ++ limit)%list /\
     (List.length limit <= 1)%nat /\
     (forall e, In e limit -> code e = MAX_FILES_EXCEEDED /\ err_file e = None)).
Proof.
  split; [|split; [|split]].
  - unfold validFilesOf, errorsOf. induction files as [|f fs IH]; simpl; [reflexivity|].
    rewrite length_app.
    destruct (isValid (validationOf formatFileSize p f)) eqn:V; simpl.
    + now rewrite IH.
    + destruct (validationOf_invalid p f V) as [e [E _]]. rewrite E. simpl. lia.
  - unfold errorsOf. induction files as [|f fs IH]; simpl; [reflexivity|].
    rewrite map_app, IH.
    destruct (isValid (validationOf formatFileSize p f)) eqn:V; simpl.
    + reflexivity.
    + destruct (validationOf_invalid p f V) as [e [E [F _]]]. rewrite E. simpl.
      now rewrite F.
  - intros e I. destruct (errorsOf_In formatFileSize p files e I) as [f [_ E]].
    destruct (validationOf_error_code formatFileSize p f e E) as [_ [[C _]|[C _]]];
      auto.
  - intros D SK.
    exists (afterAdd formatFileSize host p w files),
      (limitErrors formatFileSize p (List.length (images w)) files).
    split; [now apply handleFileSelect_enabled|].
    rewrite afterAdd_sinkCalls, SK. split; [reflexivity|]. split.
    + unfold limitErrors.
      destruct (validFilesOf formatFileSize p files); simpl; [lia|].
      destruct (remainingSlotsOf p _) as [r|]; simpl; [|lia].
      destruct (r <=? 0); simpl; [lia|]. destruct (r <? _); simpl; lia.
    + intros e I. split.
      * exact (limitErrors_code formatFileSize p _ files e I).
      * exact (limitErrors_no_file formatFileSize p _ files e I).
Qed.

(** X5.  A ceiling other than 0 is never passed by an Add: the sequence
    afterwards holds at most [maxFiles] items, or as many as it held before
    when that was more. *)
Theorem handleFileSelect_keeps_ceiling
        (p : Props) (n : Z) (files : list File) (w : World) :
  maxFiles p = Some n -> n <> 0 ->
  exists w',
    handleFileSelect formatFileSize host p files w = Ok tt w' /\
    Z.of_nat (List.length (images w'))
    <= Z.max n (Z.of_nat (List.length (images w))).
Proof.
  intros M N.
  destruct (handleFileSelect_summary formatFileSize host p files w)
    as [w' [kept [t [R [_ [K [I _]]]]]]].
  exists w'. split; [exact R|]. rewrite I, length_app.
  destruct (disabled_of p) eqn:D.
  - rewrite (handleFileSelect_disabled _ _ _ _ _ D) in R. injection R as <-.
    apply (f_equal (@List.length _)) in I. rewrite length_app in I. lia.
  - specialize (K eq_refl).
    assert (List.length (itemsFrom host (idCalls w) (urlCalls w) kept)
            = List.length kept) as ->.
    { rewrite <- (itemsFrom_files host (idCalls w) (urlCalls w) kept) at 2.
      now rewrite length_map. }
    rewrite K. unfold keptFiles.
    rewrite (remainingSlotsOf_limit p n _ M N).
    destruct (Z.max 0 (n - Z.of_nat (List.length (images w))) <=? 0) eqn:Z0.
    + simpl. lia.
    + apply Z.leb_gt in Z0.
      pose proof (firstn_le_length
                    (Z.to_nat (Z.max 0 (n - Z.of_nat (List.length (images w)))))
                    (validFilesOf formatFileSize p files)).
      lia.
Qed.

(** X6.  Add creates exactly one object URL for each item it appends, in
    order, and none for a file it rejects or drops; every URL it creates is
    outstanding afterwards; it releases and revokes nothing, and a handle
    that was outstanding before stays outstanding. *)
Theorem handleFileSelect_acquires_per_item
        (p : Props) (files : list File) (w : World) :
  exists w' items,
    handleFileSelect formatFileSize host p files w = Ok tt w' /\
    images w' = (images w ++ items)%list /\
    acquires (since w w') = map (fun it => (file it, preview it)) items /\
    urlCalls w' = (urlCalls w + List.length items)%nat /\
    releases (since w w') = [] /\
    browserRevokes (since w w') = [] /\
    (forall u, In u (generatedUrls w') <->
               In u (generatedUrls w) \/ In u (map preview items)).
Proof.
  destruct (handleFileSelect_summary formatFileSize host p files w)
    as [w' [kept [t [R [_ [_ [I [G [_ [U [_ [T [A [B L]]]]]]]]]]]]]].
  exists w', (itemsFrom host (idCalls w) (urlCalls w) kept).
  rewrite (since_app w w' t T).
  repeat split; try assumption.
  - rewrite U. f_equal.
    rewrite <- (itemsFrom_files host (idCalls w) (urlCalls w) kept) at 1.
    now rewrite length_map.
  - rewrite G. apply fold_add_In.
  - rewrite G. apply fold_add_In.
Qed.

(** X7.  As long as the dropzone is not disabled, which is how
    [ImageUploader] renders it while the uploader is enabled and below its
    ceiling, an Add with at least one accepted file appends the first
    accepted file, calls [onImagesChange] once, and never answers that the
    maximum is reached: a [MAX_FILES_EXCEEDED] error, if there is one, is
    the one about a part of the files being added. *)
Theorem dropzone_enabled_add_succeeds
        (p : Props) (files : list File) (w : World) (v : File) (vs : list File) :
  isDropzoneDisabled p w = false ->
  validFilesOf formatFileSize p files = v :: vs ->
  exists w' rest,
    handleFileSelect formatFileSize host p files w = Ok tt w' /\
    images w' = (images w ++
                 mkImageFile (idAt host (idCalls w)) v
                             (host_createObjectURL host (urlCalls w) v)
                 :: rest)%list /\
    changeCalls (since w w') = [images w'] /\
    (forall e, In e (sinkCalls (since w w')) -> code e = MAX_FILES_EXCEEDED ->
               exists r, 0 < r /\ e = onlySome p r (List.length (v :: vs))).
Proof.
  intros DZ V. unfold isDropzoneDisabled in DZ.
  apply orb_false_iff in DZ. destruct DZ as [D Z].
  assert (exists k ks, keptFiles formatFileSize p (List.length (images w)) files
                       = v :: ks /\
                       limitErrors formatFileSize p (List.length (images w)) files
                       = k /\
                       forall e, In e k ->
                         exists r, 0 < r /\ e = onlySome p r (List.length (v :: vs)))
    as [k [ks [K [L LE]]]].
  { unfold keptFiles, limitErrors, remainingSlotsOf. rewrite V.
    destruct (truthy (maxFiles p)) eqn:T.
    - destruct (maxFiles p) as [m|]; [|discriminate T].
      apply Z.leb_gt in Z.
      assert ((Z.max 0 (m - Z.of_nat (List.length (images w))) <=? 0) = false) as ->
          by (apply Z.leb_gt; lia).
      destruct (Z.to_nat (Z.max 0 (m - Z.of_nat (List.length (images w))))) eqn:N;
        [lia|].
      simpl firstn. eexists _, _. split; [reflexivity|]. split; [reflexivity|].
      intros e. destruct (_ <? _); [|intros []].
      intros [<-|[]]. eexists. split; [|reflexivity]. lia.
    - eexists _, _. split; [reflexivity|]. split; [reflexivity|]. intros e []. }
  exists (afterAdd formatFileSize host p w files).
  eexists. split; [now apply handleFileSelect_enabled|].
  rewrite afterAdd_changeCalls, afterAdd_sinkCalls.
  unfold afterAdd, itemsOf, keptOf. rewrite K, L. simpl.
  split; [reflexivity|]. split; [reflexivity|].
  intros e I C. destruct (onError p); [|contradiction].
  apply in_app_or in I. destruct I as [I|I]; [|now apply LE].
  destruct (errorsOf_In formatFileSize p files e I) as [f [_ E]].
  destruct (validationOf_error_code formatFileSize p f e E) as [_ [[C' _]|[C' _]]];
    congruence.
Qed.

End MoreAdd.

(** ** More about validation *)

Section MoreValidation.

Variable formatFileSize : Z -> string.

(** X8.  [validateFile] looks at the size first: a file over a bound other
    than 0 is answered [FILE_TOO_LARGE] whatever its type; a file that is
    not over the bound and of no accepted type is answered [INVALID_TYPE];
    every other file is valid.  The answer is valid exactly when it has no
    error, and an error always carries the file. *)
Theorem validateFile_verdict (f : File) (options : ValidateOptions) :
  let over := match opt_maxFileSize options with
              | Some m => negb (m =? 0) && (m <? file_size f)
              | None => false
              end in
  let v := validateFile formatFileSize f options in
  (over = true ->
   isValid v = false /\
   exists e, error v = Some e /\ code e = FILE_TOO_LARGE /\ err_file e = Some f) /\
  (over = false -> isAcceptedType f (opt_acceptedFileTypes options) = false ->
   isValid v = false /\
   exists e, error v = Some e /\ code e = INVALID_TYPE /\ err_file e = Some f) /\
  (over = false -> isAcceptedType f (opt_acceptedFileTypes options) = true ->
   v = mkValidation true None) /\
  (isValid v = true <-> error v = None).
Proof.
  cbv zeta. unfold validateFile, truthy.
  destruct (opt_maxFileSize options) as [m|].
  - destruct (negb (m =? 0) && (m <? file_size f));
      destruct (isAcceptedType f (opt_acceptedFileTypes options)); simpl;
      repeat split; try discriminate; try (intros; discriminate);
      try (eexists; repeat split; reflexivity).
  - simpl. destruct (isAcceptedType f (opt_acceptedFileTypes options)); simpl;
      repeat split; try discriminate; try (intros; discriminate);
      try (eexists; repeat split; reflexivity).
Qed.

End MoreValidation.

(** ** More about Remove and Move *)

Section MoreRemoveMove.

Variable host : Host.

(** X9.  Remove, on any sequence and in any browser, returns normally and
    hands the owner the items whose id differs from the one given, in their
    order: every item with that id is gone, not only the first.  It calls
    release once, for the first item with the id, when there is one, and
    not at all otherwise; it creates no object URL and adds no outstanding
    handle. *)
Theorem handleDelete_any_sequence (p : Props) (i : string) (w : World) :
  exists w',
    handleDelete host p i w = Ok tt w' /\
    images w' = filter (fun x => negb (String.eqb (id x) i)) (images w) /\
    (forall it, In it (images w') <-> In it (images w) /\ id it <> i) /\
    releases (since w w')
    = match find (fun x => String.eqb (id x) i) (images w) with
      | Some img => [preview img]
      | None => []
      end /\
    acquires (since w w') = [] /\
    (forall u, In u (generatedUrls w') -> In u (generatedUrls w)).
Proof.
  destruct (handleDelete_summary host p i w)
    as [w' [t [R [I [_ [_ [T [A F]]]]]]]].
  exists w'. split; [exact R|]. split; [exact I|].
  rewrite (since_app w w' t T). split; [|split; [|split; [exact A|]]].
  - intros it. rewrite I, filter_In, negb_true_iff, String.eqb_neq. reflexivity.
  - destruct (find _ (images w)); now destruct F.
  - intros u.
    destruct (find _ (images w)) as [img|]; destruct F as [_ [_ G]]; rewrite G.
    + destruct (JsSet.has _ _); [|auto].
      intros H. now apply JsSet_delete_In in H.
    + auto.
Qed.

(** X10.  A drag that ends, whatever its ids, returns normally and leaves
    the owner a permutation of the sequence, of the same length; it touches
    no handle: the outstanding URLs stay as they are, nothing is created,
    released or revoked, and no error is reported. *)
Theorem handleDragEnd_touches_no_handle
        (active : string) (over : option string) (w : World) :
  exists w',
    handleDragEnd active over w = Ok tt w' /\
    Permutation (images w) (images w') /\
    List.length (images w') = List.length (images w) /\
    generatedUrls w' = generatedUrls w /\
    acquires (since w w') = [] /\
    releases (since w w') = [] /\
    browserRevokes (since w w') = [] /\
    sinkCalls (since w w') = [].
Proof.
  destruct (handleDragEnd_summary active over w)
    as [w' [t [R [P [G [_ [_ [_ [T [A [B [L S]]]]]]]]]]]].
  exists w'. rewrite (since_app w w' t T).
  repeat split; try assumption.
  symmetry. now apply Permutation_length.
Qed.

End MoreRemoveMove.

(** ** Teardown (cleanup of useObjectURLs) *)

Section TeardownFacts.

Variable host : Host.

Lemma safeRevokeObjectURL_run (url : string) (k : JsError -> M unit)
      (report : JsError -> list Event) (w : World) :
  (forall e w0, k e w0 = Ok tt (addTrace (report e) w0)) ->
  safeRevokeObjectURL host url (Some k) w
  = Ok tt (mkWorld (images w) (generatedUrls w) (idCalls w) (urlCalls w)
                   (S (revokeCalls w))
                   (trace w ++ teardownEvents host report (revokeCalls w) [url])).
Proof.
  intros K.
  unfold safeRevokeObjectURL, tryCatch, URL_revokeObjectURL, console_warn,
    emit, modify, log, bind. simpl.
  destruct (host_revoke_throws host (revokeCalls w) url) as [e|].
  - rewrite K. unfold addTrace. simpl.
    now rewrite !app_nil_r, <- !app_assoc.
  - now rewrite app_nil_r.
Qed.

Lemma forEach_safeRevoke (k : JsError -> M unit)
      (report : JsError -> list Event) (urls : list string) (w : World) :
  (forall e w0, k e w0 = Ok tt (addTrace (report e) w0)) ->
  forEach (fun url => safeRevokeObjectURL host url (Some k)) urls w
  = Ok tt (mkWorld (images w) (generatedUrls w) (idCalls w) (urlCalls w)
                   (revokeCalls w + List.length urls)
                   (trace w ++ teardownEvents host report (revokeCalls w) urls)).
Proof.
  intros K. revert w. induction urls as [|u us IH]; intros w.
  - simpl. unfold ret. rewrite Nat.add_0_r, app_nil_r. now destruct w.
  - cbn [forEach]. unfold bind. rewrite (safeRevokeObjectURL_run u k report w K).
    rewrite IH. cbn [teardownEvents]. simpl.
    f_equal. f_equal; [lia|].
    now rewrite !app_nil_r, <- !app_assoc.
Qed.

Lemma cleanup_run (k : JsError -> M unit)
      (report : JsError -> list Event) (w : World) :
  (forall e w0, k e w0 = Ok tt (addTrace (report e) w0)) ->
  cleanup host (Some k) w
  = Ok tt (mkWorld (images w) [] (idCalls w) (urlCalls w)
                   (revokeCalls w + List.length (generatedUrls w))
                   (trace w ++ teardownEvents host report (revokeCalls w)
                                              (generatedUrls w))).
Proof.
  intros K. unfold cleanup, bind, get.
  rewrite (forEach_safeRevoke k report _ w K). reflexivity.
Qed.

Lemma teardownEvents_browserRevokes (report : JsError -> list Event)
      (n : nat) (urls : list string) :
  (forall e, browserRevokes (report e) = []) ->
  browserRevokes (teardownEvents host report n urls) = urls.
Proof.
  intros Q. revert n. induction urls as [|u us IH]; intros n; simpl;
    [reflexivity|].
  rewrite browserRevokes_app, IH.
  destruct (host_revoke_throws host n u); simpl; [rewrite Q|]; reflexivity.
Qed.

Lemma teardownEvents_acquires (report : JsError -> list Event)
      (n : nat) (urls : list string) :
  (forall e, acquires (report e) = []) ->
  acquires (teardownEvents host report n urls) = [].
Proof.
  intros Q. revert n. induction urls as [|u us IH]; intros n; simpl;
    [reflexivity|].
  rewrite acquires_app, IH.
  destruct (host_revoke_throws host n u); simpl; [rewrite Q|]; reflexivity.
Qed.

Lemma teardownEvents_sinkCalls (report : JsError -> list Event)
      (n : nat) (urls : list string) :
  sinkCalls (teardownEvents host report n urls)
  = flat_map (fun ue => sinkCalls (report (snd ue))) (failingRevokes host n urls).
Proof.
  revert n. induction urls as [|u us IH]; intros n; simpl; [reflexivity|].
  rewrite sinkCalls_app, IH.
  destruct (host_revoke_throws host n u); simpl; reflexivity.
Qed.

Lemma hookUnmount_run (w : World) :
  hookUnmount host w
  = Ok tt (mkWorld (images w) [] (idCalls w) (urlCalls w)
                   (revokeCalls w + List.length (generatedUrls w))
                   (trace w ++ teardownEvents host
                                 (fun e => [EvConsoleWarn "Cleanup error:" e])
                                 (revokeCalls w) (generatedUrls w))).
Proof. unfold hookUnmount. now apply cleanup_run. Qed.

Lemma uploaderUnmount_run (p : Props) (w : World) :
  uploaderUnmount host p w
  = Ok tt (mkWorld (images w) [] (idCalls w) (urlCalls w)
                   (revokeCalls w + List.length (generatedUrls w))
                   (trace w ++ teardownEvents host
                                 (fun _ => sinkEvents p [cleanupFailed])
                                 (revokeCalls w) (generatedUrls w))).
Proof.
  unfold uploaderUnmount. apply cleanup_run. intros e w0. apply callOnError_run.
Qed.

(** X11.  Either teardown function revokes every outstanding URL exactly
    once, in the order in which they were created, also when revocations
    throw: it goes on with the next URL, returns normally and leaves no URL
    outstanding.  The sequence is not touched and nothing is created.  A
    second teardown, whichever, finds nothing to revoke. *)
Theorem teardown_revokes_all (p : Props) (w : World) :
  (exists w',
     hookUnmount host w = Ok tt w' /\
     browserRevokes (since w w') = generatedUrls w /\
     generatedUrls w' = [] /\ images w' = images w /\
     acquires (since w w') = [] /\
     (exists w'', uploaderUnmount host p w' = Ok tt w'' /\
                  browserRevokes (since w' w'') = [])) /\
  (exists w',
     uploaderUnmount host p w = Ok tt w' /\
     browserRevokes (since w w') = generatedUrls w /\
     generatedUrls w' = [] /\ images w' = images w /\
     acquires (since w w') = [] /\
     (exists w'', hookUnmount host w' = Ok tt w'' /\
                  browserRevokes (since w' w'') = [])).
Proof.
  split.
  - eexists. split; [apply hookUnmount_run|].
    erewrite since_app by (simpl; reflexivity).
    rewrite teardownEvents_browserRevokes, teardownEvents_acquires
      by reflexivity.
    repeat split.
    eexists. split; [apply uploaderUnmount_run|].
    erewrite since_app by (simpl; reflexivity). reflexivity.
  - eexists. split; [apply uploaderUnmount_run|].
    erewrite since_app by (simpl; reflexivity).
    rewrite teardownEvents_browserRevokes, teardownEvents_acquires
      by (intros; first [apply browserRevokes_sinkEvents
                        |apply acquires_sinkEvents]).
    repeat split.
    eexists. split; [apply hookUnmount_run|].
    erewrite since_app by (simpl; reflexivity). reflexivity.
Qed.

(** X12.  During the teardown of the uploader every revocation that throws
    is reported once to the error callback, as an [UNKNOWN] error without a
    file, and nothing else is reported; the teardown of the hook reports
    nothing to the callback (it only warns on the console). *)
Theorem teardown_reports_failures (p : Props) (w : World) :
  (onError p = true ->
   exists w',
     uploaderUnmount host p w = Ok tt w' /\
     sinkCalls (since w w')
     = map (fun _ => cleanupFailed)
           (failingRevokes host (revokeCalls w) (generatedUrls w))) /\
  (exists w', hookUnmount host w = Ok tt w' /\ sinkCalls (since w w') = []).
Proof.
  split.
  - intros SK. eexists. split; [apply uploaderUnmount_run|].
    erewrite since_app by (simpl; reflexivity).
    rewrite teardownEvents_sinkCalls.
    induction (failingRevokes host (revokeCalls w) (generatedUrls w))
      as [|ue l IH]; simpl; [reflexivity|].
    rewrite IH, sinkCalls_sinkEvents, SK. reflexivity.
  - eexists. split; [apply hookUnmount_run|].
    erewrite since_app by (simpl; reflexivity).
    rewrite teardownEvents_sinkCalls.
    induction (failingRevokes host (revokeCalls w) (generatedUrls w));
      simpl; auto.
Qed.

End TeardownFacts.

(** ** The life of the object URLs over a session *)

Section ListFacts.

(** Items that stay after a [filter] still differ in what made them differ. *)
Lemma filter_keeps_distinct {B} (key : ImageFile -> B) (keep : ImageFile -> bool)
      (items : list ImageFile) (D : NoDup (map key items)) :
  NoDup (map key (filter keep items)).
Proof.
  induction items as [|it items IH]; [constructor|].
  cbn [map filter] in *. inversion D as [|? ? Fresh Rest]; subst.
  destruct (keep it); [|now apply IH].
  cbn [map]. constructor; [|now apply IH].
  intros Again. apply Fresh. apply in_map_iff in Again.
  destruct Again as [other [Same Kept]]. apply filter_In in Kept.
  rewrite <- Same. apply in_map. tauto.
Qed.

Lemma NoDup_map_eq {A B} (f : A -> B) (l : list A) (a b : A) :
  NoDup (map f l) -> In a l -> In b l -> f a = f b -> a = b.
Proof.
  induction l as [|x l IH]; simpl; intros ND Ia Ib E; [contradiction|].
  inversion ND as [|? ? N ND']; subst.
  destruct Ia as [->|Ia], Ib as [->|Ib]; auto.
  - exfalso. apply N. rewrite E. now apply in_map.
  - exfalso. apply N. rewrite <- E. now apply in_map.
Qed.

Lemma JsSet_delete_absent (s : list string) (u : string) :
  ~ In u s -> JsSet.delete s u = s.
Proof.
  intros N. unfold JsSet.delete. apply filter_all. intros y Hy.
  apply negb_true_iff, String.eqb_neq. intros ->. now apply N.
Qed.

Lemma JsSet_delete_Permutation (s : list string) (u : string) :
  NoDup s -> In u s -> Permutation s (u :: JsSet.delete s u).
Proof.
  induction s as [|a s IH]; intros ND I; [contradiction|].
  inversion ND as [|? ? N ND']; subst.
  destruct (string_dec u a) as [->|NE].
  - unfold JsSet.delete. simpl. rewrite String.eqb_refl. simpl.
    fold (JsSet.delete s a). now rewrite JsSet_delete_absent.
  - destruct I as [->|I]; [now contradiction NE|].
    unfold JsSet.delete. simpl.
    assert (String.eqb u a = false) as -> by now apply String.eqb_neq.
    simpl. fold (JsSet.delete s u).
    eapply perm_trans; [apply perm_skip, IH; assumption|apply perm_swap].
Qed.

Lemma fold_add_fresh (l s : list string) :
  NoDup l -> (forall x, In x l -> ~ In x s) ->
  fold_left JsSet.add l s = (s ++ l)%list.
Proof.
  revert s. induction l as [|a l IH]; intros s ND F; simpl.
  - now rewrite app_nil_r.
  - inversion ND as [|? ? N ND']; subst.
    assert (JsSet.add s a = (s ++ [a])%list) as ->.
    { unfold JsSet.add. destruct (JsSet.has s a) eqn:H; [|reflexivity].
      apply JsSet_has_In in H. exfalso. apply (F a); [now left|exact H]. }
    rewrite IH; [now rewrite <- app_assoc|exact ND'|].
    intros x Hx I. apply in_app_or in I. destruct I as [I|[->|[]]].
    + apply (F x); [now right|exact I].
    + now apply N.
Qed.

End ListFacts.

Section FreshItems.

Variable host : Host.

Lemma itemsFrom_preview_In (nid nurl : nat) (files : list File) (u : string) :
  In u (map preview (itemsFrom host nid nurl files)) ->
  exists m g, (nurl <= m < nurl + List.length files)%nat /\
              u = host_createObjectURL host m g.
Proof.
  revert nid nurl. induction files as [|f fs IH]; intros nid nurl I;
    simpl in *; [contradiction|].
  destruct I as [<-|I].
  - exists nurl, f. split; [lia|reflexivity].
  - destruct (IH _ _ I) as [m [g [B E]]]. exists m, g. split; [lia|exact E].
Qed.

Lemma itemsFrom_preview_NoDup (nid nurl : nat) (files : list File) :
  freshUrls host -> NoDup (map preview (itemsFrom host nid nurl files)).
Proof.
  intros F. revert nid nurl. induction files as [|f fs IH]; intros nid nurl;
    simpl; constructor; [|apply IH].
  intros I. destruct (itemsFrom_preview_In _ _ _ _ I) as [m [g [B E]]].
  apply F in E. lia.
Qed.

Lemma itemsFrom_id_In (nid nurl : nat) (files : list File) (i : string) :
  In i (map id (itemsFrom host nid nurl files)) ->
  exists m, (nid <= m < nid + List.length files)%nat /\ i = idAt host m.
Proof.
  revert nid nurl. induction files as [|f fs IH]; intros nid nurl I;
    simpl in *; [contradiction|].
  destruct I as [<-|I].
  - exists nid. split; [lia|reflexivity].
  - destruct (IH _ _ I) as [m [B E]]. exists m. split; [lia|exact E].
Qed.

Lemma itemsFrom_id_NoDup (nid nurl : nat) (files : list File) :
  freshIds host -> NoDup (map id (itemsFrom host nid nurl files)).
Proof.
  intros F. revert nid nurl. induction files as [|f fs IH]; intros nid nurl;
    simpl; constructor; [|apply IH].
  intros I. destruct (itemsFrom_id_In _ _ _ _ I) as [m [B E]].
  apply F in E. lia.
Qed.

End FreshItems.

Section SessionSteps.

Variable formatFileSize : Z -> string.
Variable host : Host.

(** What the effect run again and every event keep, a session keeps. *)
Lemma sessionFrom_invariant (I : World -> Prop) :
  (forall p w, I w -> exists w', effectRerun host p w = Ok tt w' /\ I w') ->
  (forall pa w, I w ->
     exists w', perform formatFileSize host pa w = Ok tt w' /\ I w') ->
  forall prev events w, I w ->
    exists w', sessionFrom formatFileSize host prev events w = Ok tt w' /\ I w'.
Proof.
  intros HE HP prev events. revert prev.
  induction events as [|pa es IH]; intros prev w H.
  - exists w. split; [reflexivity|exact H].
  - assert (exists w0, rerender host prev (fst pa) w = Ok tt w0 /\ I w0)
      as [w0 [R0 H0]].
    { unfold rerender. destruct prev as [q|]; [|now exists w].
      destruct (Bool.eqb (onError q) (onError (fst pa))); [now exists w|].
      now apply HE. }
    destruct (HP pa w0 H0) as [w1 [R1 H1]].
    destruct (IH (Some (fst pa)) w1 H1) as [w' [R' H']].
    exists w'. split; [|exact H'].
    cbn [sessionFrom]. unfold bind. now rewrite R0, R1.
Qed.

(** With the same [onError] on every render only the handlers run. *)
Lemma sessionFrom_steady (b : bool) (prev : option Props)
      (events : list (Props * Action)) (w : World) :
  sameOnError b events = true ->
  (forall q, prev = Some q -> onError q = b) ->
  sessionFrom formatFileSize host prev events w
  = forEach (perform formatFileSize host) events w.
Proof.
  revert prev w. induction events as [|pa es IH]; intros prev w S Q;
    [reflexivity|].
  simpl in S. apply andb_true_iff in S. destruct S as [Sa S].
  apply andb_true_iff in Sa. destruct Sa as [Eb _].
  apply Bool.eqb_prop in Eb.
  cbn [sessionFrom forEach].
  assert (rerender host prev (fst pa) w = Ok tt w) as R0.
  { unfold rerender. destruct prev as [q|]; [|reflexivity].
    now rewrite (Q q eq_refl), Eb, Bool.eqb_reflx. }
  unfold bind at 1. rewrite R0. unfold bind.
  destruct (perform formatFileSize host pa w) as [[] w1|e w1]; [|reflexivity].
  apply IH; [exact S|]. intros q E. now injection E as <-.
Qed.

Lemma session_steady (events : list (Props * Action)) (w : World) :
  stableOnError events = true ->
  session formatFileSize host events w
  = forEach (perform formatFileSize host) events w.
Proof.
  intros S. destruct events as [|pa es]; [reflexivity|].
  apply (sessionFrom_steady (onError (fst pa))); [exact S|discriminate].
Qed.

Lemma stableOnError_same (events : list (Props * Action)) :
  stableOnError events = true -> exists b, sameOnError b events = true.
Proof.
  destruct events as [|pa es]; intros S; [now exists true|].
  now exists (onError (fst pa)).
Qed.

End SessionSteps.

Section HandlesInvariant.

Variable formatFileSize : Z -> string.
Variable host : Host.
Hypothesis fresh : freshUrls host.

Lemma createdUrls_app (w w' : World) (t : list Event) :
  trace w' = (trace w ++ t)%list ->
  createdUrls w' = (createdUrls w ++ map snd (acquires t))%list /\
  revokedUrls w' = (revokedUrls w ++ browserRevokes t)%list.
Proof.
  intros T. unfold createdUrls, revokedUrls. rewrite T.
  now rewrite acquires_app, browserRevokes_app, map_app.
Qed.

Lemma handlesInOrder_empty : handlesInOrder host emptyWorld.
Proof.
  unfold handlesInOrder, createdUrls, revokedUrls. simpl.
  repeat split; try constructor; intros ? [].
Qed.

Lemma handlesInOrder_outstanding (w : World) :
  handlesInOrder host w ->
  NoDup (generatedUrls w) /\ NoDup (revokedUrls w) /\
  (forall u, In u (generatedUrls w) -> In u (createdUrls w)) /\
  (forall u, In u (generatedUrls w) -> ~ In u (revokedUrls w)).
Proof.
  intros [ND [_ [P _]]].
  pose proof (Permutation_NoDup P ND) as N.
  split; [now apply NoDup_app_remove_r in N|].
  split; [now apply NoDup_app_remove_l in N|].
  split.
  - intros u I. apply (Permutation_in u (Permutation_sym P)).
    apply in_or_app. now left.
  - intros u I R. clear - N I R.
    induction (generatedUrls w) as [|a g IH]; [contradiction|].
    simpl in N. inversion N as [|? ? X N']; subst.
    destruct I as [->|I]; [apply X, in_or_app; now right|now apply IH].
Qed.

Lemma handleFileSelect_keeps_handles (p : Props) (files : list File) (w : World) :
  handlesInOrder host w ->
  exists w', handleFileSelect formatFileSize host p files w = Ok tt w' /\
             handlesInOrder host w'.
Proof.
  intros H.
  destruct (handlesInOrder_outstanding w H) as [NG [NR [GC GR]]].
  destruct H as [ND [B [P [NP TR]]]].
  destruct (handleFileSelect_summary formatFileSize host p files w)
    as [w' [kept [t [R [_ [_ [I [G [_ [U [_ [T [A [BR _]]]]]]]]]]]]]].
  exists w'. split; [exact R|].
  destruct (createdUrls_app w w' t T) as [C V].
  rewrite A, map_map in C. simpl in C. rewrite BR, app_nil_r in V.
  set (items := itemsFrom host (idCalls w) (urlCalls w) kept) in *.
  change (map (fun x => preview x) items) with (map preview items) in C.
  assert (forall u, In u (map preview items) -> ~ In u (createdUrls w)) as NC.
  { intros u Iu Cu.
    destruct (itemsFrom_preview_In host _ _ _ _ Iu) as [m [g [Bm E]]].
    destruct (B u Cu) as [m' [g' [Bm' E']]].
    rewrite E in E'. apply fresh in E'. lia. }
  assert (NoDup (map preview items)) as NI
      by now apply itemsFrom_preview_NoDup.
  assert (generatedUrls w' = (generatedUrls w ++ map preview items)%list) as G'.
  { rewrite G. apply fold_add_fresh; [exact NI|].
    intros u Iu Gu. apply (NC u Iu). now apply GC. }
  unfold handlesInOrder. rewrite C, V, G', I, U.
  split; [|split; [|split; [|split]]].
  - apply NoDup_app; [exact ND|exact NI|]. intros u Cu Iu. now apply (NC u Iu).
  - intros u Iu. apply in_app_or in Iu. destruct Iu as [Iu|Iu].
    + destruct (B u Iu) as [m [g [Bm E]]]. exists m, g. split; [lia|exact E].
    + destruct (itemsFrom_preview_In host _ _ _ _ Iu) as [m [g [Bm E]]].
      exists m, g. split; [lia|exact E].
  - rewrite <- app_assoc.
    eapply perm_trans; [apply Permutation_app_tail, P|].
    rewrite <- !app_assoc. apply Permutation_app_head, Permutation_app_comm.
  - rewrite map_app. apply NoDup_app; [exact NP|exact NI|].
    intros u Pu Iu. apply (NC u Iu). apply GC.
    apply in_map_iff in Pu. destruct Pu as [it [<- Pu]]. now apply TR.
  - intros it Iit. apply in_or_app. apply in_app_or in Iit.
    destruct Iit as [Iit|Iit]; [left; now apply TR|right; now apply in_map].
Qed.

Lemma handleDelete_keeps_handles (p : Props) (i : string) (w : World) :
  handlesInOrder host w ->
  exists w', handleDelete host p i w = Ok tt w' /\ handlesInOrder host w'.
Proof.
  intros H.
  destruct (handlesInOrder_outstanding w H) as [NG [NR [GC GR]]].
  destruct H as [ND [B [P [NP TR]]]].
  destruct (handleDelete_summary host p i w)
    as [w' [t [R [I [_ [U [T [A F]]]]]]]].
  exists w'. split; [exact R|].
  destruct (createdUrls_app w w' t T) as [C V].
  rewrite A, app_nil_r in C.
  unfold handlesInOrder. rewrite C, V, I, U.
  destruct (find (fun x => String.eqb (id x) i) (images w)) as [img|] eqn:FI.
  - destruct F as [_ [BR G]].
    apply find_some in FI. destruct FI as [Iimg Eimg].
    assert (JsSet.has (generatedUrls w) (preview img) = true) as HS
        by (apply JsSet_has_In; now apply TR).
    rewrite HS in BR, G. rewrite BR, G.
    split; [exact ND|]. split; [exact B|]. split; [|split].
    + eapply perm_trans; [exact P|].
      eapply perm_trans;
        [apply Permutation_app_tail,
           (JsSet_delete_Permutation _ (preview img) NG (TR img Iimg))|].
      simpl. rewrite app_assoc. apply Permutation_cons_append.
    + now apply filter_keeps_distinct.
    + intros it Iit. apply filter_In in Iit. destruct Iit as [Iit Eit].
      apply JsSet_delete_In. split; [now apply TR|].
      intros E. apply (NoDup_map_eq preview _ _ _ NP Iit Iimg) in E. subst it.
      rewrite Eimg in Eit. discriminate.
  - destruct F as [_ [BR G]]. rewrite BR, G, app_nil_r.
    split; [exact ND|]. split; [exact B|]. split; [exact P|]. split.
    + now apply filter_keeps_distinct.
    + intros it Iit. apply filter_In in Iit. now apply TR.
Qed.

Lemma handleDragEnd_keeps_handles (active : string) (over : option string) (w : World) :
  handlesInOrder host w ->
  exists w', handleDragEnd active over w = Ok tt w' /\ handlesInOrder host w'.
Proof.
  intros [ND [B [P [NP TR]]]].
  destruct (handleDragEnd_summary active over w)
    as [w' [t [R [PI [G [_ [U [_ [T [A [BR _]]]]]]]]]]].
  exists w'. split; [exact R|].
  destruct (createdUrls_app w w' t T) as [C V].
  rewrite A, app_nil_r in C. rewrite BR, app_nil_r in V.
  unfold handlesInOrder. rewrite C, V, G, U.
  split; [exact ND|]. split; [exact B|]. split; [exact P|]. split.
  - eapply Permutation_NoDup; [apply Permutation_map, PI|exact NP].
  - intros it Iit. apply TR.
    now apply (Permutation_in it (Permutation_sym PI)).
Qed.

Lemma steady_keeps_handles (b : bool) (events : list (Props * Action))
      (w : World) :
  sameOnError b events = true ->
  handlesInOrder host w ->
  exists w', forEach (perform formatFileSize host) events w = Ok tt w' /\
             handlesInOrder host w'.
Proof.
  revert w. induction events as [|[p a] es IH]; intros w S H.
  - exists w. split; [reflexivity|exact H].
  - simpl in S. apply andb_true_iff in S. destruct S as [Sa S].
    apply andb_true_iff in Sa. destruct Sa as [_ Sa].
    assert (exists w1, perform formatFileSize host (p, a) w = Ok tt w1 /\
                       handlesInOrder host w1) as [w1 [R1 H1]].
    { destruct a as [files|i|active over|]; simpl.
      - now apply handleFileSelect_keeps_handles.
      - now apply handleDelete_keeps_handles.
      - now apply handleDragEnd_keeps_handles.
      - discriminate Sa. }
    destruct (IH w1 S H1) as [w' [R' H']].
    exists w'. split; [|exact H'].
    cbn [forEach]. unfold bind. now rewrite R1.
Qed.

Lemma session_keeps_handles (events : list (Props * Action)) (w : World) :
  stableOnError events = true ->
  handlesInOrder host w ->
  exists w', session formatFileSize host events w = Ok tt w' /\
             handlesInOrder host w'.
Proof.
  intros S H. rewrite (session_steady _ _ _ _ S).
  destruct (stableOnError_same events S) as [b Sb].
  now apply (steady_keeps_handles b).
Qed.

(** *** The books alone, which also a run of the effect keeps *)

Lemma handlesInOrder_ledger (w : World) :
  handlesInOrder host w -> urlLedger host w.
Proof. intros [ND [B [P _]]]. repeat split; assumption. Qed.

Lemma urlLedger_outstanding (w : World) :
  urlLedger host w ->
  NoDup (generatedUrls w) /\ NoDup (revokedUrls w) /\
  (forall u, In u (generatedUrls w) -> In u (createdUrls w)) /\
  (forall u, In u (generatedUrls w) -> ~ In u (revokedUrls w)).
Proof.
  intros [ND [_ P]].
  pose proof (Permutation_NoDup P ND) as N.
  split; [now apply NoDup_app_remove_r in N|].
  split; [now apply NoDup_app_remove_l in N|].
  split.
  - intros u I. apply (Permutation_in u (Permutation_sym P)).
    apply in_or_app. now left.
  - intros u I R. clear - N I R.
    induction (generatedUrls w) as [|a g IH]; [contradiction|].
    simpl in N. inversion N as [|? ? X N']; subst.
    destruct I as [->|I]; [apply X, in_or_app; now right|now apply IH].
Qed.

Lemma handleFileSelect_keeps_ledger (p : Props) (files : list File) (w : World) :
  urlLedger host w ->
  exists w', handleFileSelect formatFileSize host p files w = Ok tt w' /\
             urlLedger host w'.
Proof.
  intros H.
  destruct (urlLedger_outstanding w H) as [NG [NR [GC GR]]].
  destruct H as [ND [B P]].
  destruct (handleFileSelect_summary formatFileSize host p files w)
    as [w' [kept [t [R [_ [_ [I [G [_ [U [_ [T [A [BR _]]]]]]]]]]]]]].
  exists w'. split; [exact R|].
  destruct (createdUrls_app w w' t T) as [C V].
  rewrite A, map_map in C. simpl in C. rewrite BR, app_nil_r in V.
  set (items := itemsFrom host (idCalls w) (urlCalls w) kept) in *.
  change (map (fun x => preview x) items) with (map preview items) in C.
  assert (forall u, In u (map preview items) -> ~ In u (createdUrls w)) as NC.
  { intros u Iu Cu.
    destruct (itemsFrom_preview_In host _ _ _ _ Iu) as [m [g [Bm E]]].
    destruct (B u Cu) as [m' [g' [Bm' E']]].
    rewrite E in E'. apply fresh in E'. lia. }
  assert (NoDup (map preview items)) as NI
      by now apply itemsFrom_preview_NoDup.
  assert (generatedUrls w' = (generatedUrls w ++ map preview items)%list) as G'.
  { rewrite G. apply fold_add_fresh; [exact NI|].
    intros u Iu Gu. apply (NC u Iu). now apply GC. }
  unfold urlLedger. rewrite C, V, G', U.
  split; [|split].
  - apply NoDup_app; [exact ND|exact NI|]. intros u Cu Iu. now apply (NC u Iu).
  - intros u Iu. apply in_app_or in Iu. destruct Iu as [Iu|Iu].
    + destruct (B u Iu) as [m [g [Bm E]]]. exists m, g. split; [lia|exact E].
    + destruct (itemsFrom_preview_In host _ _ _ _ Iu) as [m [g [Bm E]]].
      exists m, g. split; [lia|exact E].
  - rewrite <- app_assoc.
    eapply perm_trans; [apply Permutation_app_tail, P|].
    rewrite <- !app_assoc. apply Permutation_app_head, Permutation_app_comm.
Qed.

Lemma handleDelete_keeps_ledger (p : Props) (i : string) (w : World) :
  urlLedger host w ->
  exists w', handleDelete host p i w = Ok tt w' /\ urlLedger host w'.
Proof.
  intros H.
  destruct (urlLedger_outstanding w H) as [NG _].
  destruct H as [ND [B P]].
  destruct (handleDelete_summary host p i w)
    as [w' [t [R [_ [_ [U [T [A F]]]]]]]].
  exists w'. split; [exact R|].
  destruct (createdUrls_app w w' t T) as [C V].
  rewrite A, app_nil_r in C.
  unfold urlLedger. rewrite C, V, U.
  split; [exact ND|]. split; [exact B|].
  destruct (find (fun x => String.eqb (id x) i) (images w)) as [img|].
  - destruct F as [_ [BR G]]. rewrite BR, G.
    destruct (JsSet.has (generatedUrls w) (preview img)) eqn:HS.
    + apply JsSet_has_In in HS.
      eapply perm_trans; [exact P|].
      eapply perm_trans;
        [apply Permutation_app_tail,
           (JsSet_delete_Permutation _ (preview img) NG HS)|].
      simpl. rewrite app_assoc. apply Permutation_cons_append.
    + now rewrite app_nil_r.
  - destruct F as [_ [BR G]]. now rewrite BR, G, app_nil_r.
Qed.

Lemma handleDragEnd_keeps_ledger (active : string) (over : option string) (w : World) :
  urlLedger host w ->
  exists w', handleDragEnd active over w = Ok tt w' /\ urlLedger host w'.
Proof.
  intros [ND [B P]].
  destruct (handleDragEnd_summary active over w)
    as [w' [t [R [_ [G [_ [U [_ [T [A [BR _]]]]]]]]]]].
  exists w'. split; [exact R|].
  destruct (createdUrls_app w w' t T) as [C V].
  rewrite A, app_nil_r in C. rewrite BR, app_nil_r in V.
  unfold urlLedger. rewrite C, V, G, U. auto.
Qed.

(** All revocations of a teardown, whoever is told about the failures. *)
Lemma teardown_keeps_ledger (report : JsError -> list Event) (w : World) :
  (forall e, browserRevokes (report e) = []) ->
  (forall e, acquires (report e) = []) ->
  urlLedger host w ->
  let w' := mkWorld (images w) [] (idCalls w) (urlCalls w)
              (revokeCalls w + List.length (generatedUrls w))
              (trace w ++ teardownEvents host report (revokeCalls w)
                                         (generatedUrls w)) in
  urlLedger host w' /\
  Permutation (createdUrls w') (revokedUrls w').
Proof.
  intros QB QA [ND [B P]] w'.
  destruct (createdUrls_app w w' _ eq_refl) as [C V].
  rewrite (teardownEvents_acquires host report _ _ QA) in C.
  rewrite (teardownEvents_browserRevokes host report _ _ QB) in V.
  simpl in C. rewrite app_nil_r in C.
  assert (Permutation (createdUrls w') (revokedUrls w')) as P'.
  { rewrite C, V. eapply perm_trans; [exact P|apply Permutation_app_comm]. }
  split; [|exact P'].
  unfold urlLedger. split; [now rewrite C|]. split; [|exact P'].
  intros u Iu. rewrite C in Iu. exact (B u Iu).
Qed.

Lemma uploaderUnmount_keeps_ledger (p : Props) (w : World) :
  urlLedger host w ->
  exists w', uploaderUnmount host p w = Ok tt w' /\
             urlLedger host w' /\
             generatedUrls w' = [] /\
             Permutation (createdUrls w') (revokedUrls w').
Proof.
  intros H. eexists. split; [apply uploaderUnmount_run|].
  destruct (teardown_keeps_ledger (fun _ => sinkEvents p [cleanupFailed]) w)
    as [L P]; try assumption.
  - intros. apply browserRevokes_sinkEvents.
  - intros. apply acquires_sinkEvents.
  - split; [exact L|]. split; [reflexivity|exact P].
Qed.

Lemma hookUnmount_keeps_ledger (w : World) :
  urlLedger host w ->
  exists w', hookUnmount host w = Ok tt w' /\
             urlLedger host w' /\
             generatedUrls w' = [] /\
             Permutation (createdUrls w') (revokedUrls w').
Proof.
  intros H. eexists. split; [apply hookUnmount_run|].
  destruct (teardown_keeps_ledger
              (fun e => [EvConsoleWarn "Cleanup error:" e]) w)
    as [L P]; try assumption; try reflexivity.
  split; [exact L|]. split; [reflexivity|exact P].
Qed.

Lemma perform_keeps_ledger (pa : Props * Action) (w : World) :
  urlLedger host w ->
  exists w', perform formatFileSize host pa w = Ok tt w' /\ urlLedger host w'.
Proof.
  intros H. destruct pa as [p [files|i|active over|]]; unfold perform; simpl.
  - now apply handleFileSelect_keeps_ledger.
  - now apply handleDelete_keeps_ledger.
  - now apply handleDragEnd_keeps_ledger.
  - destruct (onError p); [|now exists w].
    destruct (uploaderUnmount_keeps_ledger p w H) as [w1 [R1 [L1 _]]]. eauto.
Qed.

Lemma session_keeps_ledger (events : list (Props * Action)) (w : World) :
  urlLedger host w ->
  exists w', session formatFileSize host events w = Ok tt w' /\
             urlLedger host w'.
Proof.
  apply (sessionFrom_invariant formatFileSize host (urlLedger host)).
  - intros p w0 H. destruct (uploaderUnmount_keeps_ledger p w0 H)
      as [w1 [R1 [L1 _]]]. eauto.
  - apply perform_keeps_ledger.
Qed.

End HandlesInvariant.

Section LifecycleTheorems.

Variable formatFileSize : Z -> string.
Variable host : Host.

(** X13.  In a browser that never hands out the same object URL twice, a
    session that starts with the handles in order (as in the empty
    uploader) returns normally, whatever its events, and keeps the books:
    no URL is created twice, no URL is revoked twice, and every URL created
    so far is either outstanding or revoked and never both.  As long as the
    owner hands the same [onError] function on every render, so that the
    effect of the uploader is not run again before the teardown, the items
    of the sequence moreover show different URLs, each of them outstanding
    and not revoked. *)
Theorem session_keeps_handles_in_order
        (events : list (Props * Action)) (w : World) :
  freshUrls host ->
  handlesInOrder host w ->
  exists w',
    session formatFileSize host events w = Ok tt w' /\
    NoDup (createdUrls w') /\
    NoDup (revokedUrls w') /\
    Permutation (createdUrls w') (generatedUrls w' ++ revokedUrls w') /\
    (forall u, In u (generatedUrls w') -> ~ In u (revokedUrls w')) /\
    (stableOnError events = true ->
     handlesInOrder host w' /\
     NoDup (map preview (images w')) /\
     (forall it, In it (images w') ->
                 In (preview it) (generatedUrls w') /\
                 ~ In (preview it) (revokedUrls w'))).
Proof.
  intros F H.
  destruct (session_keeps_ledger formatFileSize host F events w
              (handlesInOrder_ledger host w H)) as [w' [R L]].
  exists w'. split; [exact R|].
  destruct (urlLedger_outstanding host w' L) as [NG [NR [GC GR]]].
  destruct L as [ND [B P]].
  split; [exact ND|]. split; [exact NR|]. split; [exact P|].
  split; [exact GR|].
  intros S.
  destruct (session_keeps_handles formatFileSize host F events w S H)
    as [w2 [R2 H2]].
  rewrite R in R2. injection R2 as <-.
  split; [exact H2|]. destruct H2 as [_ [_ [_ [NP TR]]]].
  split; [exact NP|]. intros it Iit. split; [now apply TR|].
  apply GR. now apply TR.
Qed.

(** X14.  In such a browser, after any session of the uploader, from its
    first render to its teardown, every object URL that was created has
    been revoked exactly once and none is outstanding; this holds for
    either teardown function and also when revocations throw. *)
Theorem session_then_teardown_revokes_each_once
        (events : list (Props * Action)) (p : Props) :
  freshUrls host ->
  exists w,
    session formatFileSize host events emptyWorld = Ok tt w /\
    (exists w', uploaderUnmount host p w = Ok tt w' /\
                generatedUrls w' = [] /\
                NoDup (revokedUrls w') /\
                Permutation (createdUrls w') (revokedUrls w')) /\
    (exists w', hookUnmount host w = Ok tt w' /\
                generatedUrls w' = [] /\
                NoDup (revokedUrls w') /\
                Permutation (createdUrls w') (revokedUrls w')).
Proof.
  intros F.
  destruct (session_keeps_ledger formatFileSize host F events emptyWorld
              (handlesInOrder_ledger host _ (handlesInOrder_empty host)))
    as [w [R L]].
  exists w. split; [exact R|]. split.
  - destruct (uploaderUnmount_keeps_ledger host p w L) as [w' [U [L' [G P]]]].
    exists w'. split; [exact U|]. split; [exact G|]. split; [|exact P].
    now destruct (urlLedger_outstanding host w' L') as [_ [NR _]].
  - destruct (hookUnmount_keeps_ledger host w L) as [w' [U [L' [G P]]]].
    exists w'. split; [exact U|]. split; [exact G|]. split; [|exact P].
    now destruct (urlLedger_outstanding host w' L') as [_ [NR _]].
Qed.

End LifecycleTheorems.

Section IdsInvariant.

Variable formatFileSize : Z -> string.
Variable host : Host.
Hypothesis freshU : freshUrls host.
Hypothesis freshI : freshIds host.

Lemma idsInOrder_empty : idsInOrder host emptyWorld.
Proof.
  unfold idsInOrder. simpl. repeat split; try constructor; intros ? [].
Qed.

Lemma handleFileSelect_appends_outstanding
      (p : Props) (files : list File) (w : World) :
  urlLedger host w ->
  exists w' kept,
    handleFileSelect formatFileSize host p files w = Ok tt w' /\
    let items := itemsFrom host (idCalls w) (urlCalls w) kept in
    images w' = (images w ++ items)%list /\
    generatedUrls w' = (generatedUrls w ++ map preview items)%list /\
    idCalls w' = (idCalls w + List.length kept)%nat.
Proof.
  intros H.
  destruct (urlLedger_outstanding host w H) as [_ [_ [GC _]]].
  destruct H as [_ [B _]].
  destruct (handleFileSelect_summary formatFileSize host p files w)
    as [w' [kept [t [R [_ [_ [I [G [IC _]]]]]]]]].
  exists w', kept. split; [exact R|]. cbv zeta.
  split; [exact I|]. split; [|exact IC].
  rewrite G. apply fold_add_fresh; [now apply itemsFrom_preview_NoDup|].
  intros u Iu Gu.
  destruct (itemsFrom_preview_In host _ _ _ _ Iu) as [m [g [Bm E]]].
  destruct (B u (GC u Gu)) as [m' [g' [Bm' E']]].
  rewrite E in E'. apply freshU in E'. lia.
Qed.

Lemma handleFileSelect_keeps_ids (p : Props) (files : list File) (w : World) :
  handlesInOrder host w -> idsInOrder host w ->
  exists w', handleFileSelect formatFileSize host p files w = Ok tt w' /\
             idsInOrder host w'.
Proof.
  intros H [NI [BI PG]].
  destruct (handleFileSelect_appends_outstanding p files w
              (handlesInOrder_ledger host w H))
    as [w' [kept [R [I [G IC]]]]].
  exists w'. split; [exact R|].
  unfold idsInOrder. rewrite I, G, IC, !map_app.
  split; [|split].
  - apply NoDup_app; [exact NI|now apply itemsFrom_id_NoDup|].
    intros i Io In'.
    destruct (itemsFrom_id_In host _ _ _ _ In') as [m [Bm E]].
    apply in_map_iff in Io. destruct Io as [it [<- Io]].
    destruct (BI it Io) as [m' [Bm' E']].
    rewrite E' in E. apply freshI in E. lia.
  - intros it Iit. apply in_app_or in Iit. destruct Iit as [Iit|Iit].
    + destruct (BI it Iit) as [m [Bm E]]. exists m. split; [lia|exact E].
    + destruct (itemsFrom_id_In host (idCalls w) (urlCalls w) kept (id it))
        as [m [Bm E]]; [now apply in_map|].
      exists m. split; [lia|exact E].
  - now apply Permutation_app_tail.
Qed.

Lemma handleDelete_keeps_ids (p : Props) (i : string) (w : World) :
  handlesInOrder host w -> idsInOrder host w ->
  exists w', handleDelete host p i w = Ok tt w' /\ idsInOrder host w'.
Proof.
  intros H [NI [BI PG]].
  destruct (handlesInOrder_outstanding host w H) as [NG _].
  destruct H as [_ [_ [_ [_ TR]]]].
  destruct (handleDelete_summary host p i w)
    as [w' [t [R [I [IC [_ [_ [_ F]]]]]]]].
  exists w'. split; [exact R|].
  unfold idsInOrder. rewrite I, IC.
  split; [now apply filter_keeps_distinct|]. split.
  { intros it Iit. apply filter_In in Iit. now apply BI. }
  destruct (find (fun x => String.eqb (id x) i) (images w)) as [img|] eqn:FI.
  - destruct F as [_ [_ G]].
    apply find_some in FI. destruct FI as [Iimg Eimg].
    apply String.eqb_eq in Eimg. subst i.
    rewrite (proj2 (JsSet_has_In _ _) (TR img Iimg)) in G. rewrite G.
    destruct (find_filter_unique (images w) img NI Iimg) as [l1 [l2 [E [_ FL]]]].
    rewrite FL. rewrite E, map_app in PG. simpl in PG.
    apply (Permutation_cons_inv (a := preview img)).
    eapply perm_trans;
      [apply Permutation_sym,
         (JsSet_delete_Permutation _ (preview img) NG (TR img Iimg))|].
    eapply perm_trans; [exact PG|].
    rewrite map_app. apply Permutation_sym, Permutation_middle.
  - destruct F as [_ [_ G]]. rewrite G.
    rewrite filter_all; [exact PG|].
    intros x Ix. apply negb_true_iff. now apply (find_none _ _ FI).
Qed.

Lemma handleDragEnd_keeps_ids (active : string) (over : option string) (w : World) :
  idsInOrder host w ->
  exists w', handleDragEnd active over w = Ok tt w' /\ idsInOrder host w'.
Proof.
  intros [NI [BI PG]].
  destruct (handleDragEnd_summary active over w)
    as [w' [t [R [PI [G [IC _]]]]]].
  exists w'. split; [exact R|].
  unfold idsInOrder. rewrite G, IC. split; [|split].
  - eapply Permutation_NoDup; [apply Permutation_map, PI|exact NI].
  - intros it Iit. apply BI.
    now apply (Permutation_in it (Permutation_sym PI)).
  - eapply perm_trans; [exact PG|now apply Permutation_map].
Qed.

Lemma steady_keeps_ids (b : bool) (events : list (Props * Action))
      (w : World) :
  sameOnError b events = true ->
  handlesInOrder host w -> idsInOrder host w ->
  exists w', forEach (perform formatFileSize host) events w = Ok tt w' /\
             handlesInOrder host w' /\ idsInOrder host w'.
Proof.
  revert w. induction events as [|[p a] es IH]; intros w S H J.
  - exists w. auto.
  - simpl in S. apply andb_true_iff in S. destruct S as [Sa S].
    apply andb_true_iff in Sa. destruct Sa as [_ Sa].
    assert (exists w1, perform formatFileSize host (p, a) w = Ok tt w1 /\
                       handlesInOrder host w1 /\ idsInOrder host w1)
      as [w1 [R1 [H1 J1]]].
    { destruct a as [files|i|active over|]; simpl.
      - destruct (handleFileSelect_keeps_handles formatFileSize host freshU
                    p files w H) as [w1 [R1 H1]].
        destruct (handleFileSelect_keeps_ids p files w H J) as [w2 [R2 J2]].
        rewrite R1 in R2. injection R2 as <-. eauto.
      - destruct (handleDelete_keeps_handles host p i w H) as [w1 [R1 H1]].
        destruct (handleDelete_keeps_ids p i w H J) as [w2 [R2 J2]].
        rewrite R1 in R2. injection R2 as <-. eauto.
      - destruct (handleDragEnd_keeps_handles host active over w H)
          as [w1 [R1 H1]].
        destruct (handleDragEnd_keeps_ids active over w J) as [w2 [R2 J2]].
        rewrite R1 in R2. injection R2 as <-. eauto.
      - discriminate Sa. }
    destruct (IH w1 S H1 J1) as [w' [R' HJ]].
    exists w'. split; [|exact HJ].
    cbn [forEach]. unfold bind. now rewrite R1.
Qed.

Lemma session_keeps_ids (events : list (Props * Action)) (w : World) :
  stableOnError events = true ->
  handlesInOrder host w -> idsInOrder host w ->
  exists w', session formatFileSize host events w = Ok tt w' /\
             handlesInOrder host w' /\ idsInOrder host w'.
Proof.
  intros S H J. rewrite (session_steady _ _ _ _ S).
  destruct (stableOnError_same events S) as [b Sb].
  now apply (steady_keeps_ids b).
Qed.

(** *** What also a run of the effect keeps *)

Lemma idsInOrder_ledger (w : World) : idsInOrder host w -> idsLedger host w.
Proof.
  intros [NI [BI PG]]. split; [exact NI|]. split; [exact BI|].
  intros u Iu. exact (Permutation_in u PG Iu).
Qed.

Lemma handleFileSelect_keeps_idsLedger
      (p : Props) (files : list File) (w : World) :
  idsLedger host w ->
  exists w', handleFileSelect formatFileSize host p files w = Ok tt w' /\
             idsLedger host w'.
Proof.
  intros [NI [BI SG]].
  destruct (handleFileSelect_summary formatFileSize host p files w)
    as [w' [kept [t [R [_ [_ [I [G [IC _]]]]]]]]].
  exists w'. split; [exact R|].
  unfold idsLedger. rewrite I, IC, !map_app.
  split; [|split].
  - apply NoDup_app; [exact NI|now apply itemsFrom_id_NoDup|].
    intros i Io In'.
    destruct (itemsFrom_id_In host _ _ _ _ In') as [m [Bm E]].
    apply in_map_iff in Io. destruct Io as [it [<- Io]].
    destruct (BI it Io) as [m' [Bm' E']].
    rewrite E' in E. apply freshI in E. lia.
  - intros it Iit. apply in_app_or in Iit. destruct Iit as [Iit|Iit].
    + destruct (BI it Iit) as [m [Bm E]]. exists m. split; [lia|exact E].
    + destruct (itemsFrom_id_In host (idCalls w) (urlCalls w) kept (id it))
        as [m [Bm E]]; [now apply in_map|].
      exists m. split; [lia|exact E].
  - intros u Iu. rewrite G in Iu. apply fold_add_In in Iu.
    apply in_or_app. destruct Iu as [Iu|Iu]; [left; now apply SG|now right].
Qed.

Lemma handleDelete_keeps_idsLedger (p : Props) (i : string) (w : World) :
  idsLedger host w ->
  exists w', handleDelete host p i w = Ok tt w' /\ idsLedger host w'.
Proof.
  intros [NI [BI SG]].
  destruct (handleDelete_summary host p i w)
    as [w' [t [R [I [IC [_ [_ [_ F]]]]]]]].
  exists w'. split; [exact R|].
  unfold idsLedger. rewrite I, IC.
  split; [now apply filter_keeps_distinct|]. split.
  { intros it Iit. apply filter_In in Iit. now apply BI. }
  intros u Iu.
  destruct (find (fun x => String.eqb (id x) i) (images w)) as [img|] eqn:FI.
  - destruct F as [_ [_ G]]. rewrite G in Iu.
    apply find_some in FI. destruct FI as [Iimg Eimg].
    apply String.eqb_eq in Eimg.
    assert (In u (generatedUrls w) /\ u <> preview img) as [Gu N].
    { destruct (JsSet.has (generatedUrls w) (preview img)) eqn:HS;
        [now apply JsSet_delete_In in Iu|].
      split; [exact Iu|]. intros ->. apply JsSet_has_In in Iu. congruence. }
    destruct (proj1 (in_map_iff _ _ _) (SG u Gu)) as [it [E Iit]].
    apply in_map_iff. exists it. split; [exact E|].
    apply filter_In. split; [exact Iit|].
    apply negb_true_iff, String.eqb_neq. intros Ei.
    apply N. rewrite <- E. f_equal.
    apply (NoDup_map_eq id (images w)); congruence.
  - destruct F as [_ [_ G]]. rewrite G in Iu.
    rewrite filter_all; [now apply SG|].
    intros x Ix. apply negb_true_iff. now apply (find_none _ _ FI).
Qed.

Lemma handleDragEnd_keeps_idsLedger
      (active : string) (over : option string) (w : World) :
  idsLedger host w ->
  exists w', handleDragEnd active over w = Ok tt w' /\ idsLedger host w'.
Proof.
  intros [NI [BI SG]].
  destruct (handleDragEnd_summary active over w)
    as [w' [t [R [PI [G [IC _]]]]]].
  exists w'. split; [exact R|].
  unfold idsLedger. rewrite G, IC. split; [|split].
  - eapply Permutation_NoDup; [apply Permutation_map, PI|exact NI].
  - intros it Iit. apply BI.
    now apply (Permutation_in it (Permutation_sym PI)).
  - intros u Iu. apply (Permutation_in u (Permutation_map preview PI)).
    now apply SG.
Qed.

Lemma effectRerun_keeps_idsLedger (p : Props) (w : World) :
  idsLedger host w ->
  exists w', effectRerun host p w = Ok tt w' /\ idsLedger host w'.
Proof.
  intros [NI [BI SG]]. eexists. split; [apply uploaderUnmount_run|].
  unfold idsLedger. simpl. split; [exact NI|]. split; [exact BI|].
  intros u [].
Qed.

Lemma perform_keeps_idsLedger (pa : Props * Action) (w : World) :
  idsLedger host w ->
  exists w', perform formatFileSize host pa w = Ok tt w' /\ idsLedger host w'.
Proof.
  intros H. destruct pa as [p [files|i|active over|]]; unfold perform; simpl.
  - now apply handleFileSelect_keeps_idsLedger.
  - now apply handleDelete_keeps_idsLedger.
  - now apply handleDragEnd_keeps_idsLedger.
  - destruct (onError p); [|now exists w].
    now apply effectRerun_keeps_idsLedger.
Qed.

Lemma session_keeps_idsLedger (events : list (Props * Action)) (w : World) :
  idsLedger host w ->
  exists w', session formatFileSize host events w = Ok tt w' /\
             idsLedger host w'.
Proof.
  apply (sessionFrom_invariant formatFileSize host (idsLedger host)).
  - apply effectRerun_keeps_idsLedger.
  - apply perform_keeps_idsLedger.
Qed.

End IdsInvariant.

Section SessionTheorems.

Variable formatFileSize : Z -> string.
Variable host : Host.

(** X15.  When the id source never repeats an id, a session that starts in
    order (as in the empty uploader) returns normally, whatever its events,
    keeps the ids of the items pairwise different and leaks no handle:
    every outstanding handle is the preview of an item of the sequence.
    When moreover the browser never repeats an object URL and the owner
    hands the same [onError] on every render, so that the effect of the
    uploader is not run again before the teardown, the outstanding handles
    are, up to order, exactly the previews of the items. *)
Theorem session_leaks_no_handle (events : list (Props * Action)) (w : World) :
  freshUrls host -> freshIds host ->
  handlesInOrder host w -> idsInOrder host w ->
  exists w',
    session formatFileSize host events w = Ok tt w' /\
    NoDup (map id (images w')) /\
    (forall u, In u (generatedUrls w') -> In u (map preview (images w'))) /\
    (stableOnError events = true ->
     idsInOrder host w' /\
     Permutation (generatedUrls w') (map preview (images w')) /\
     List.length (generatedUrls w') = List.length (images w')).
Proof.
  intros FU FI H J.
  destruct (session_keeps_idsLedger formatFileSize host FI events w
              (idsInOrder_ledger host w J)) as [w' [R [NI [_ SG]]]].
  exists w'. split; [exact R|]. split; [exact NI|]. split; [exact SG|].
  intros S.
  destruct (session_keeps_ids formatFileSize host FU FI events w S H J)
    as [w2 [R2 [_ J2]]].
  rewrite R in R2. injection R2 as <-.
  split; [exact J2|]. destruct J2 as [_ [_ PG]]. split; [exact PG|].
  rewrite (Permutation_length PG). apply length_map.
Qed.


Lemma perform_appends (pa : Props * Action) (w : World) :
  exists w1 t1,
    perform formatFileSize host pa w = Ok tt w1 /\
    trace w1 = (trace w ++ t1)%list /\
    (forall u, In u (generatedUrls w1) ->
               In u (generatedUrls w) \/ In u (map snd (acquires t1))).
Proof.
  destruct pa as [p [files|i|active over|]]; unfold perform; simpl.
  - destruct (handleFileSelect_summary formatFileSize host p files w)
      as [w1 [kept [t [R [_ [_ [_ [G [_ [_ [_ [T [A _]]]]]]]]]]]]].
    exists w1, t. split; [exact R|]. split; [exact T|].
    intros u Iu. rewrite G in Iu. apply fold_add_In in Iu.
    rewrite A, map_map. exact Iu.
  - destruct (handleDelete_summary host p i w)
      as [w1 [t [R [_ [_ [_ [T [_ F]]]]]]]].
    exists w1, t. split; [exact R|]. split; [exact T|].
    intros u Iu. left.
    destruct (find _ (images w)); destruct F as [_ [_ G]]; rewrite G in Iu;
      [|exact Iu].
    destruct (JsSet.has _ _); [now apply JsSet_delete_In in Iu|exact Iu].
  - destruct (handleDragEnd_summary active over w)
      as [w1 [t [R [_ [G [_ [_ [_ [T _]]]]]]]]].
    exists w1, t. split; [exact R|]. split; [exact T|].
    intros u Iu. left. now rewrite <- G.
  - destruct (onError p).
    + eexists _, _. split; [apply uploaderUnmount_run|].
      split; [reflexivity|]. intros u [].
    + exists w, []. rewrite app_nil_r. split; [reflexivity|]. auto.
Qed.

Lemma rerender_appends (prev : option Props) (p : Props) (w : World) :
  exists w1 t1,
    rerender host prev p w = Ok tt w1 /\
    trace w1 = (trace w ++ t1)%list /\
    (forall u, In u (generatedUrls w1) ->
               In u (generatedUrls w) \/ In u (map snd (acquires t1))).
Proof.
  assert (exists w1 t1,
             ret tt w = Ok tt w1 /\ trace w1 = (trace w ++ t1)%list /\
             (forall u, In u (generatedUrls w1) ->
                        In u (generatedUrls w) \/ In u (map snd (acquires t1))))
    as N.
  { exists w, []. rewrite app_nil_r. split; [reflexivity|]. auto. }
  unfold rerender. destruct prev as [q|]; [|exact N].
  destruct (Bool.eqb (onError q) (onError p)); [exact N|].
  eexists _, _. split; [apply uploaderUnmount_run|].
  split; [reflexivity|]. intros u [].
Qed.

Lemma sessionFrom_appends (prev : option Props)
      (events : list (Props * Action)) (w : World) :
  exists w' t,
    sessionFrom formatFileSize host prev events w = Ok tt w' /\
    trace w' = (trace w ++ t)%list /\
    (forall u, In u (generatedUrls w') ->
               In u (generatedUrls w) \/ In u (map snd (acquires t))).
Proof.
  revert prev w. induction events as [|pa es IH]; intros prev w.
  - exists w, []. rewrite app_nil_r. repeat split; auto.
  - destruct (rerender_appends prev (fst pa) w) as [w0 [t0 [R0 [T0 G0]]]].
    destruct (perform_appends pa w0) as [w1 [t1 [R1 [T1 G1]]]].
    destruct (IH (Some (fst pa)) w1) as [w' [t' [R' [T' G']]]].
    exists w', (t0 ++ t1 ++ t')%list. split; [|split].
    + cbn [sessionFrom]. unfold bind. now rewrite R0, R1.
    + now rewrite T', T1, T0, <- !app_assoc.
    + intros u Iu. rewrite !acquires_app, !map_app, !in_app_iff.
      destruct (G' u Iu) as [Iw1|It']; [|auto].
      destruct (G1 u Iw1) as [Iw0|It1]; [|auto].
      destruct (G0 u Iw0); auto.
Qed.

(** X17.  A session returns normally in every browser, also in one whose
    revocations throw: no handler lets an exception out.  It only adds to
    the history of calls, and a handle that is outstanding afterwards was
    outstanding before or was created during the session. *)
Theorem session_never_throws (events : list (Props * Action)) (w : World) :
  exists w' t,
    session formatFileSize host events w = Ok tt w' /\
    trace w' = (trace w ++ t)%list /\
    (forall u, In u (generatedUrls w') ->
               In u (generatedUrls w) \/ In u (map snd (acquires t))).
Proof. exact (sessionFrom_appends None events w). Qed.

(** X20.  When the effect of the uploader is run again, as it is when a
    render brings another [onError] function, or one where there was none,
    or none where there was one, every outstanding object URL is revoked in
    the browser, in the order of the set, and none stays outstanding, while
    the sequence stays as it is: the items shown keep previews whose URL is
    revoked.  Remove of an item afterwards revokes nothing in the browser,
    and neither does the teardown. *)
Theorem onError_change_revokes_shown_previews (p : Props) (w : World) :
  exists w',
    effectRerun host p w = Ok tt w' /\
    (onError p = true ->
     perform formatFileSize host (p, OnErrorChanged) w = Ok tt w') /\
    (forall q, onError q <> onError p ->
               rerender host (Some p) q w = Ok tt w') /\
    images w' = images w /\
    generatedUrls w' = [] /\
    browserRevokes (since w w') = generatedUrls w /\
    acquires (since w w') = [] /\
    (forall q i, exists w'',
        handleDelete host q i w' = Ok tt w'' /\
        images w'' = filter (fun x => negb (String.eqb (id x) i)) (images w) /\
        browserRevokes (since w' w'') = []) /\
    (forall q, exists w'',
        uploaderUnmount host q w' = Ok tt w'' /\
        browserRevokes (since w' w'') = []).
Proof.
  eexists. split; [apply uploaderUnmount_run|].
  set (w' := mkWorld _ _ _ _ _ _).
  split.
  { intros E. unfold perform. simpl. rewrite E. apply uploaderUnmount_run. }
  split.
  { intros q NE. unfold rerender.
    destruct (Bool.eqb (onError p) (onError q)) eqn:EB;
      [apply Bool.eqb_prop in EB; congruence|].
    apply uploaderUnmount_run. }
  split; [reflexivity|]. split; [reflexivity|].
  assert (since w w'
          = teardownEvents host (fun _ => sinkEvents p [cleanupFailed])
                           (revokeCalls w) (generatedUrls w)) as SE
      by (apply since_app; reflexivity).
  split.
  { rewrite SE. apply teardownEvents_browserRevokes.
    intros. apply browserRevokes_sinkEvents. }
  split.
  { rewrite SE. apply teardownEvents_acquires.
    intros. apply acquires_sinkEvents. }
  split.
  - intros q i.
    destruct (handleDelete_summary host q i w')
      as [w'' [t [R [I [_ [_ [T [_ F]]]]]]]].
    exists w''. split; [exact R|]. split; [exact I|].
    rewrite (since_app _ _ _ T).
    destruct (find _ (images w')); destruct F as [_ [B _]]; exact B.
  - intros q. eexists. split; [apply uploaderUnmount_run|].
    erewrite since_app; [|reflexivity]. reflexivity.
Qed.

End SessionTheorems.

(** ** More about accept strings *)

Section AcceptStrings.

Lemma trimStart_blank (s : string) :
  forallb Js.isSpace (list_ascii_of_string s) = true ->
  Js.trimStart s = EmptyString.
Proof.
  induction s as [|c s IH]; simpl; intros H; [reflexivity|].
  apply andb_true_iff in H. destruct H as [C H]. rewrite C. now apply IH.
Qed.

Lemma trim_no_space (s : string) :
  forallb (fun c => negb (Js.isSpace c)) (list_ascii_of_string s) = true ->
  Js.trim s = s.
Proof.
  intros H. unfold Js.trim.
  assert (Js.trimStart s = s) as ->.
  { destruct s as [|c s]; [reflexivity|]. simpl in *.
    apply andb_true_iff in H. destruct H as [C _].
    apply negb_true_iff in C. now rewrite C. }
  induction s as [|c s IH]; simpl in *; [reflexivity|].
  apply andb_true_iff in H. destruct H as [C H]. apply negb_true_iff in C.
  rewrite (IH H), C. now destruct s.
Qed.

Lemma split_single (sep : ascii) (s : string) :
  forallb (fun c => negb (Ascii.eqb c sep)) (list_ascii_of_string s) = true ->
  Js.split sep s = [s].
Proof.
  induction s as [|c s IH]; simpl; intros H; [reflexivity|].
  apply andb_true_iff in H. destruct H as [C H]. apply negb_true_iff in C.
  now rewrite C, (IH H).
Qed.

Lemma split_app (sep : ascii) (a rest : string) :
  forallb (fun c => negb (Ascii.eqb c sep)) (list_ascii_of_string a) = true ->
  Js.split sep (a ++ String sep rest) = a :: Js.split sep rest.
Proof.
  induction a as [|c a IH]; simpl; intros H.
  - now rewrite Ascii.eqb_refl.
  - apply andb_true_iff in H. destruct H as [C H]. apply negb_true_iff in C.
    now rewrite C, (IH H).
Qed.

Lemma chars_app (a b : string) :
  list_ascii_of_string (a ++ b)
  = (list_ascii_of_string a ++ list_ascii_of_string b)%list.
Proof. induction a as [|c a IH]; simpl; [reflexivity|now rewrite IH]. Qed.

Lemma isToken_facts (t : string) :
  isToken t = true ->
  t <> EmptyString /\
  forallb (fun c => negb (Js.isSpace c)) (list_ascii_of_string t) = true /\
  forallb (fun c => negb (Ascii.eqb c ",")) (list_ascii_of_string t) = true.
Proof.
  unfold isToken. intros H. apply andb_true_iff in H. destruct H as [N H].
  apply negb_true_iff, String.eqb_neq in N. split; [exact N|].
  clear N. induction (list_ascii_of_string t) as [|c l IH]; simpl in *; [auto|].
  apply andb_true_iff in H. destruct H as [C H].
  apply andb_true_iff in C. destruct C as [C1 C2].
  destruct (IH H) as [I1 I2]. now rewrite C1, C2, I1, I2.
Qed.

Lemma concat_tokens (ps : list string) :
  ps <> [] -> forallb isToken ps = true ->
  Js.split "," (String.concat "," ps) = ps /\
  forallb (fun c => negb (Js.isSpace c))
          (list_ascii_of_string (String.concat "," ps)) = true /\
  String.concat "," ps <> EmptyString.
Proof.
  induction ps as [|p ps IH]; intros NE H; [now contradiction NE|].
  simpl in H. apply andb_true_iff in H. destruct H as [T H].
  destruct (isToken_facts p T) as [N [S C]].
  destruct ps as [|q ps].
  - simpl. split; [now apply split_single|]. split; [exact S|exact N].
  - destruct (IH ltac:(discriminate) H) as [I1 [I2 I3]].
    change (String.concat "," (p :: q :: ps))
      with (p ++ String "," (String.concat "," (q :: ps))).
    split; [|split].
    + now rewrite (split_app "," p _ C), I1.
    + rewrite chars_app, forallb_app, S. simpl. exact I2.
    + destruct p; [now contradiction N|discriminate].
Qed.

(** X18.  Without an accept string, and with one that is empty or holds
    white space only, every file is of an accepted type. *)
Theorem isAcceptedType_blank_accepts_all (f : File) :
  isAcceptedType f None = true /\
  isAcceptedType f (Some EmptyString) = true /\
  (forall a, forallb Js.isSpace (list_ascii_of_string a) = true ->
             isAcceptedType f (Some a) = true).
Proof.
  split; [reflexivity|]. split; [reflexivity|].
  intros a H. unfold isAcceptedType, Js.trim.
  now rewrite (trimStart_blank a H).
Qed.

(** X19.  An accept string that lists patterns separated by commas, each
    pattern not empty and free of white space and commas, accepts a file
    exactly when one of the patterns, put in lower case, matches it; this
    includes the single pattern "image/*", which the code treats apart. *)
Theorem isAcceptedType_list (f : File) (ps : list string) :
  ps <> [] -> forallb isToken ps = true ->
  isAcceptedType f (Some (String.concat "," ps))
  = existsb (matchesPattern f) (map Js.toLowerCase ps).
Proof.
  intros NE H. destruct (concat_tokens ps NE H) as [SP [NS NN]].
  unfold isAcceptedType. rewrite (trim_no_space _ NS).
  assert (String.eqb (String.concat "," ps) EmptyString = false) as ->
      by now apply String.eqb_neq.
  assert (map (fun s => Js.toLowerCase (Js.trim s)) ps = map Js.toLowerCase ps) as M.
  { clear - H. induction ps as [|p ps IH]; simpl in *; [reflexivity|].
    apply andb_true_iff in H. destruct H as [T H].
    destruct (isToken_facts p T) as [_ [S _]].
    now rewrite (trim_no_space p S), (IH H). }
  destruct (String.eqb (String.concat "," ps) "image/*") eqn:E.
  - apply String.eqb_eq in E. rewrite E in SP. simpl in SP.
    rewrite <- SP. simpl. now rewrite orb_false_r.
  - now rewrite SP, M.
Qed.

End AcceptStrings.

(* ------------------------------------------------------------------ *)
(** * The further properties at concrete inputs                         *)
(* ------------------------------------------------------------------ *)

Lemma strokes_inj (n m : nat) : Sample.strokes n = Sample.strokes m -> n = m.
Proof.
  revert m. induction n as [|n IH]; intros [|m] E; simpl in E;
    try discriminate; [reflexivity|].
  injection E as E. f_equal. now apply IH.
Qed.

Lemma Sample_freshUrls : freshUrls Sample.host.
Proof.
  intros n m f g E. simpl in E. injection E as E. now apply strokes_inj.
Qed.

Lemma Sample_freshIds : freshIds Sample.host.
Proof.
  intros n m E. unfold idAt in E. simpl in E. injection E as E.
  now apply strokes_inj.
Qed.

Lemma truncateFilename_fits_witness :
  Z.of_nat (String.length (truncateFilename Sample.longName 40)) <= 40 /\
  truncateFilename "a.png" 40 = "a.png".
Proof.
  destruct (truncateFilename_fits Sample.longName 40) as [B _].
  destruct (truncateFilename_fits "a.png" 40) as [_ [S _]].
  split; [apply B; discriminate|apply S; discriminate].
Defined.

Lemma truncateFilename_ellipsis_witness :
  truncateFilename (truncateFilename Sample.longName 40) 40
  = truncateFilename Sample.longName 40.
Proof.
  apply (truncateFilename_ellipsis Sample.longName 40). discriminate.
Defined.

Lemma handleFileSelect_only_appends_witness :
  exists w' items,
    handleFileSelect Demo.fmt Demo.host (Demo.limit 4)
                     [Demo.png; Demo.pdf; Demo.huge; Demo.png2] Demo.three
    = Ok tt w' /\
    images w' = (images Demo.three ++ items)%list.
Proof.
  destruct (handleFileSelect_only_appends Demo.fmt Demo.host (Demo.limit 4)
              [Demo.png; Demo.pdf; Demo.huge; Demo.png2] Demo.three)
    as [w' [items [R [I _]]]].
  exists w', items. exact (conj R I).
Defined.

Lemma handleFileSelect_partition_witness :
  exists w' limit,
    handleFileSelect Demo.fmt Demo.host (Demo.limit 4)
                     [Demo.png; Demo.pdf; Demo.huge; Demo.png2] Demo.three
    = Ok tt w' /\
    sinkCalls (since Demo.three w')
    = (errorsOf Demo.fmt (Demo.limit 4)
                [Demo.png; Demo.pdf; Demo.huge; Demo.png2] ++ limit)%list /\
    (List.length limit <= 1)%nat.
Proof.
  destruct (handleFileSelect_partition Demo.fmt Demo.host (Demo.limit 4)
              [Demo.png; Demo.pdf; Demo.huge; Demo.png2] Demo.three)
    as [_ [_ [_ S]]].
  destruct (S eq_refl eq_refl) as [w' [limit [R [C [L _]]]]].
  exists w', limit. exact (conj R (conj C L)).
Defined.

Lemma handleFileSelect_keeps_ceiling_witness :
  exists w',
    handleFileSelect Demo.fmt Demo.host (Demo.limit 4)
                     [Demo.png; Demo.png2; Demo.png3] Demo.three
    = Ok tt w' /\
    Z.of_nat (List.length (images w')) <= 4.
Proof.
  destruct (handleFileSelect_keeps_ceiling Demo.fmt Demo.host (Demo.limit 4) 4
              [Demo.png; Demo.png2; Demo.png3] Demo.three eq_refl)
    as [w' [R L]].
  - discriminate.
  - exists w'. exact (conj R L).
Defined.

Lemma handleFileSelect_acquires_per_item_witness :
  exists w' items,
    handleFileSelect Demo.fmt Demo.host (Demo.limit 4)
                     [Demo.png; Demo.png2; Demo.png3] Demo.three
    = Ok tt w' /\
    acquires (since Demo.three w') = map (fun it => (file it, preview it)) items /\
    browserRevokes (since Demo.three w') = [].
Proof.
  destruct (handleFileSelect_acquires_per_item Demo.fmt Demo.host (Demo.limit 4)
              [Demo.png; Demo.png2; Demo.png3] Demo.three)
    as [w' [items [R [_ [A [_ [_ [B _]]]]]]]].
  exists w', items. exact (conj R (conj A B)).
Defined.

Lemma dropzone_enabled_add_succeeds_witness :
  exists w' rest,
    handleFileSelect Demo.fmt Demo.host (Demo.limit 4)
                     [Demo.pdf; Demo.png; Demo.png2] Demo.three
    = Ok tt w' /\
    images w' = (images Demo.three ++
                 mkImageFile "uuid-3" Demo.png "blob:3" :: rest)%list.
Proof.
  destruct (dropzone_enabled_add_succeeds Demo.fmt Demo.host (Demo.limit 4)
              [Demo.pdf; Demo.png; Demo.png2] Demo.three
              Demo.png [Demo.png2] eq_refl eq_refl)
    as [w' [rest [R [I _]]]].
  exists w', rest. exact (conj R I).
Defined.

Lemma validateFile_verdict_witness :
  isValid (validateFile Demo.fmt (mkFile "big.pdf" "application/pdf" 99)
                        (mkOptions (Some 10) (Some "image/*"))) = false /\
  exists e,
    error (validateFile Demo.fmt (mkFile "big.pdf" "application/pdf" 99)
                        (mkOptions (Some 10) (Some "image/*"))) = Some e /\
    code e = FILE_TOO_LARGE /\
    err_file e = Some (mkFile "big.pdf" "application/pdf" 99).
Proof.
  apply (validateFile_verdict Demo.fmt (mkFile "big.pdf" "application/pdf" 99)
                              (mkOptions (Some 10) (Some "image/*"))).
  reflexivity.
Defined.

Lemma handleDelete_any_sequence_witness :
  exists w',
    handleDelete Sample.host Demo.defaults "x"
                 (mkWorld [Demo.item0; Demo.item1; Demo.item0] [] 0 0 0 [])
    = Ok tt w' /\
    images w' = [Demo.item1].
Proof.
  destruct (handleDelete_any_sequence Sample.host Demo.defaults "x"
              (mkWorld [Demo.item0; Demo.item1; Demo.item0] [] 0 0 0 []))
    as [w' [R [I _]]].
  exists w'. exact (conj R I).
Defined.

Lemma handleDragEnd_touches_no_handle_witness :
  exists w',
    handleDragEnd "z" (Some "x") Demo.three = Ok tt w' /\
    generatedUrls w' = generatedUrls Demo.three /\
    browserRevokes (since Demo.three w') = [].
Proof.
  destruct (handleDragEnd_touches_no_handle "z" (Some "x") Demo.three)
    as [w' [R [_ [_ [G [_ [_ [B _]]]]]]]].
  exists w'. exact (conj R (conj G B)).
Defined.

Lemma teardown_revokes_all_witness :
  exists w',
    uploaderUnmount Sample.host Demo.defaults Demo.three = Ok tt w' /\
    browserRevokes (since Demo.three w') = ["blob:x"; "blob:y"; "blob:z"] /\
    generatedUrls w' = [].
Proof.
  destruct (teardown_revokes_all Sample.host Demo.defaults Demo.three)
    as [_ [w' [R [B [G _]]]]].
  exists w'. exact (conj R (conj B G)).
Defined.

Lemma teardown_reports_failures_witness :
  exists w',
    uploaderUnmount Sample.host Demo.defaults Demo.three = Ok tt w' /\
    sinkCalls (since Demo.three w')
    = [cleanupFailed; cleanupFailed; cleanupFailed].
Proof.
  destruct (teardown_reports_failures Sample.host Demo.defaults Demo.three)
    as [S _].
  destruct (S eq_refl) as [w' [R C]].
  exists w'. exact (conj R C).
Defined.

Lemma session_keeps_handles_in_order_witness :
  exists w',
    session Demo.fmt Sample.host Sample.events emptyWorld = Ok tt w' /\
    NoDup (createdUrls w') /\
    NoDup (revokedUrls w') /\
    Permutation (createdUrls w') (generatedUrls w' ++ revokedUrls w') /\
    (forall u, In u (generatedUrls w') -> ~ In u (revokedUrls w')) /\
    handlesInOrder Sample.host w' /\
    NoDup (map preview (images w')) /\
    (forall it, In it (images w') ->
                In (preview it) (generatedUrls w') /\
                ~ In (preview it) (revokedUrls w')).
Proof.
  destruct (session_keeps_handles_in_order Demo.fmt Sample.host Sample.events
              emptyWorld Sample_freshUrls (handlesInOrder_empty Sample.host))
    as [w' [R [NC [NR [P [GR S]]]]]].
  exists w'.
  exact (conj R (conj NC (conj NR (conj P (conj GR (S eq_refl)))))).
Defined.

Lemma session_then_teardown_revokes_each_once_witness :
  exists w w',
    session Demo.fmt Sample.host Sample.events emptyWorld = Ok tt w /\
    uploaderUnmount Sample.host Demo.defaults w = Ok tt w' /\
    Permutation (createdUrls w') (revokedUrls w').
Proof.
  destruct (session_then_teardown_revokes_each_once Demo.fmt Sample.host
              Sample.events Demo.defaults Sample_freshUrls)
    as [w [R [[w' [U [_ [_ P]]]] _]]].
  exists w, w'. exact (conj R (conj U P)).
Defined.

Lemma session_leaks_no_handle_witness :
  exists w',
    session Demo.fmt Sample.host Sample.events emptyWorld = Ok tt w' /\
    NoDup (map id (images w')) /\
    (forall u, In u (generatedUrls w') -> In u (map preview (images w'))) /\
    idsInOrder Sample.host w' /\
    Permutation (generatedUrls w') (map preview (images w')) /\
    List.length (generatedUrls w') = List.length (images w').
Proof.
  destruct (session_leaks_no_handle Demo.fmt Sample.host Sample.events
              emptyWorld Sample_freshUrls Sample_freshIds
              (handlesInOrder_empty Sample.host) (idsInOrder_empty Sample.host))
    as [w' [R [NI [SG S]]]].
  exists w'. exact (conj R (conj NI (conj SG (S eq_refl)))).
Defined.


Lemma onError_change_revokes_shown_previews_witness :
  exists w',
    perform Demo.fmt Sample.host (Demo.limit 3, OnErrorChanged) Demo.three
    = Ok tt w' /\
    images w' = images Demo.three /\
    generatedUrls w' = [] /\
    browserRevokes (since Demo.three w') = ["blob:x"; "blob:y"; "blob:z"] /\
    exists w'',
      handleDelete Sample.host (Demo.limit 3) "x" w' = Ok tt w'' /\
      browserRevokes (since w' w'') = [].
Proof.
  destruct (onError_change_revokes_shown_previews Demo.fmt Sample.host
              (Demo.limit 3) Demo.three)
    as [w' [_ [P [_ [I [G [B [_ [D _]]]]]]]]].
  destruct (D (Demo.limit 3) "x") as [w'' [R'' [_ B'']]].
  exists w'.
  exact (conj (P eq_refl)
              (conj I (conj G (conj B (ex_intro _ w'' (conj R'' B'')))))).
Defined.

(** The sample session of an owner that writes [onError] inline: the item
    that stays from the first Add shows a URL the effect has revoked, and
    its Remove revoked nothing. *)
Example inline_onError_session :
  exists w,
    session Demo.fmt Sample.host Sample.eventsInlineOnError emptyWorld
    = Ok tt w /\
    map preview (images w) = ["blob:i"; "blob:ii"] /\
    generatedUrls w = ["blob:ii"] /\
    revokedUrls w = ["blob:"; "blob:i"].
Proof.
  eexists. split; [vm_compute; reflexivity|]. vm_compute. auto.
Qed.

Lemma session_never_throws_witness :
  exists w' t,
    session Demo.fmt Sample.host Sample.events Demo.three = Ok tt w' /\
    trace w' = (trace Demo.three ++ t)%list.
Proof.
  destruct (session_never_throws Demo.fmt Sample.host Sample.events Demo.three)
    as [w' [t [R [T _]]]].
  exists w', t. exact (conj R T).
Defined.

Lemma isAcceptedType_blank_accepts_all_witness :
  isAcceptedType Demo.pdf (Some "   ") = true.
Proof.
  apply (isAcceptedType_blank_accepts_all Demo.pdf). reflexivity.
Defined.

Lemma isAcceptedType_list_witness :
  isAcceptedType Demo.photoJpg (Some "image/png,.JPG,video/*")
  = existsb (matchesPattern Demo.photoJpg) ["image/png"; ".jpg"; "video/*"].
Proof.
  apply (isAcceptedType_list Demo.photoJpg ["image/png"; ".JPG"; "video/*"]).
  - discriminate.
  - reflexivity.
Defined.
